(** * mrrcrypt: the mirror-field engine and the key-file shuffle

    A shallow embedding of [src/modules/mirrorfield.c] and of
    [keyfile_shuffle_string] and the writing part of [keyfile_create] from
    [src/modules/keyfile.c].

    Conventions of the embedding.
    - C [int] values are integers of [Z]. The positions, cell codes and
      sums the engine computes are bounded by small multiples of
      [GRID_SIZE] and of 255, far inside the range of [int], so no
      wrap-around is written. The call counter of [mirrorfield_set] grows
      by one per call for as long as the process runs; it is written as
      an integer of [Z] too, which is what the C [int] holds for as long
      as it stays within [INT_MAX], that is for the first 2^31 calls, and
      the statements about calls made after the key has been loaded
      carry that bound. The C operators [/] and [%] truncate towards
      zero: they are [Z.quot] and [Z.rem].
    - [unsigned char] values are integers of [Z] in the range 0..255.
    - The C arrays [grid], [perimeterChars] and [visited] are lists read
      with [aget] and written with [aset]; the predicate [wf] states the
      lengths their declarations give them.
    - The function-local [static] variables of the C file ([i] of
      [mirrorfield_set], [evenodd] of [mirrorfield_crypt_char],
      [lastStartCharPos] and [lastEndCharPos] of [mirrorfield_roll_chars])
      are fields of the engine state, which every function threads;
      [resetCursor] of [mirrorfield_draw] is an argument and a result of
      that function.
    - [GRID_SIZE] comes from [main.h], which is not part of the sources at
      hand: it is a parameter of the development. The statements about
      calls of [mirrorfield_crypt_char] assume [2 <= GRID_SIZE]: with
      [GRID_SIZE = 1] the collision loops of the roll would move by
      [GRID_SIZE/2 = 0].
    - The [while] loops take a fuel argument; running out of fuel is the
      outcome [OutOfFuel], and the theorems show how much fuel is enough.
    - Reading the uninitialised [r] and [c] after a scan that found
      nothing is the outcome [Undefined].
    - The [debug] argument of [mirrorfield_crypt_char] only drives the
      renderer; the embedding is that of [debug = 0].
    - [rand()] of keyfile.c is answered from a list of draws. *)

From Stdlib Require Import ZArith List Bool Lia Permutation Ascii FinFun.
Import ListNotations.
Local Open Scope Z_scope.

(** ** Arrays *)

Fixpoint upd_nth {A : Type} (n : nat) (v : A) (l : list A) : list A :=
  match l with
  | [] => []
  | x :: t => match n with
              | O => v :: t
              | S n' => x :: upd_nth n' v t
              end
  end.

(** [a[i]] *)
Definition aget (a : list Z) (i : Z) : Z := nth (Z.to_nat i) a 0.

(** [a[i] = v] *)
Definition aset (a : list Z) (i : Z) (v : Z) : list Z :=
  if i <? 0 then a else upd_nth (Z.to_nat i) v a.

(** The integers [lo], [lo+1], ..., [hi-1], the values a [for] loop
    counter takes. *)
Definition range (lo hi : Z) : list Z :=
  map (fun k => lo + Z.of_nat k) (seq 0 (Z.to_nat (hi - lo))).

(** The largest value of a C [int] of 32 bits. *)
Definition INT_MAX : Z := 2147483647.

(** ** Constants of mirrorfield.c *)

Definition MIRROR_NONE : Z := 3.
Definition MIRROR_FORWARD : Z := 0.
Definition MIRROR_STRAIGHT : Z := 1.
Definition MIRROR_BACKWARD : Z := 2.

(** [DIR_DOWN] .. [DIR_UP] are the macros 1..4 of the C file. *)
Inductive direction : Type := DIR_DOWN | DIR_LEFT | DIR_RIGHT | DIR_UP.

(** The character constants the loader compares with. *)
Definition char_slash : Z := 47.
Definition char_backslash : Z := 92.
Definition char_minus : Z := 45.
Definition char_space : Z := 32.

(** ** The engine state: the two static arrays and the static locals *)

Record state : Type := mkState {
  grid : list Z;
  perimeterChars : list Z;
  set_i : Z;                (* [static int i] of mirrorfield_set *)
  evenodd : Z;              (* [static int evenodd] of mirrorfield_crypt_char *)
  lastStartCharPos : Z;     (* statics of mirrorfield_roll_chars *)
  lastEndCharPos : Z
}.

Definition with_grid (st : state) (g : list Z) : state :=
  mkState g (perimeterChars st) (set_i st) (evenodd st)
          (lastStartCharPos st) (lastEndCharPos st).

Definition with_perimeterChars (st : state) (p : list Z) : state :=
  mkState (grid st) p (set_i st) (evenodd st)
          (lastStartCharPos st) (lastEndCharPos st).

Definition with_set_i (st : state) (i : Z) : state :=
  mkState (grid st) (perimeterChars st) i (evenodd st)
          (lastStartCharPos st) (lastEndCharPos st).

Definition with_evenodd (st : state) (e : Z) : state :=
  mkState (grid st) (perimeterChars st) (set_i st) e
          (lastStartCharPos st) (lastEndCharPos st).

Definition with_last (st : state) (s e : Z) : state :=
  mkState (grid st) (perimeterChars st) (set_i st) (evenodd st) s e.

(** What a call can do: return, run into behaviour the C language leaves
    undefined (the state is the one reached at that point), or still be
    looping when the fuel is spent. *)
Inductive outcome (A : Type) : Type :=
| Ret (a : A)
| Undefined (st : state)
| OutOfFuel.
Arguments Ret {A} a.
Arguments Undefined {A} st.
Arguments OutOfFuel {A}.

(** Example engines used to exercise the theorems (GRID_SIZE = 2). *)
Definition demo_grid : list Z := [0; 3; 2; 1].
Definition demo_perim : list Z := [65; 66; 67; 68; 69; 70; 71; 72].
Definition demo_state : state := mkState demo_grid demo_perim 11 0 (-1) (-1).
Definition demo_empty_state : state :=
  mkState [3; 3; 3; 3] demo_perim 11 0 (-1) (-1).
Definition demo_key : list Z :=
  [char_slash; char_space; char_backslash; char_minus] ++ demo_perim.

(** ** keyfile.c: keyfile_shuffle_string *)

(** [str] lists the characters before the terminating NUL, so that
    [strlen(str)] is its length. The calls of [rand()] are answered, in
    order, from a supply of draws. *)
Inductive shuffled : Type :=
| Shuffled (str : list ascii) (rest : list nat)
| ModuloZero            (* [rand() % strlen(str)] on the empty string *)
| NoMoreDraws.          (* the supply ended before the function returned *)

(** [while ((rIndex = (rand() % strlen(str))) == sIndex) ;] *)
Fixpoint draw_other (draws : list nat) (len sIndex : nat) : option (nat * list nat) :=
  match draws with
  | [] => None
  | x :: rest =>
      let rIndex := (x mod len)%nat in
      if (rIndex =? sIndex)%nat then draw_other rest len sIndex
      else Some (rIndex, rest)
  end.

(** The [for] loop, [p] iterations. *)
Fixpoint shuffle_loop (p : nat) (str : list ascii) (c1 : ascii) (sIndex : nat)
         (draws : list nat) : option (list ascii * ascii * list nat) :=
  match p with
  | O => Some (str, c1, draws)
  | S p' =>
      match draw_other draws (length str) sIndex with
      | None => None
      | Some (rIndex, draws) =>
          let c2 := nth rIndex str zero in
          let str := upd_nth rIndex c1 str in
          shuffle_loop p' str c2 sIndex draws
      end
  end.

Definition keyfile_shuffle_string (str : list ascii) (p : Z) (draws : list nat)
  : shuffled :=
  match str with
  | [] => ModuloZero
  | _ :: _ =>
      match draws with
      | [] => NoMoreDraws
      | x :: draws =>
          let sIndex := (x mod length str)%nat in
          let c1 := nth sIndex str zero in
          match shuffle_loop (Z.to_nat p) str c1 sIndex draws with
          | None => NoMoreDraws
          | Some (str, c1, draws) => Shuffled (upd_nth sIndex c1 str) draws
          end
      end
  end.

(** Draws that let the call return: a first draw, and after it at least
    [p] draws the rejection loop accepts. *)
Definition enough_draws (str : list ascii) (p : Z) (draws : list nat) : Prop :=
  match draws with
  | [] => False
  | x :: rest =>
      (Z.to_nat p <=
       length (filter (fun y => negb ((y mod length str) =? (x mod length str))%nat)
                      rest))%nat
  end.

(** An example string and supply of draws. *)
Definition demo_str : list ascii := ["a"; "b"; "c"; "d"]%char.
Definition demo_draws : list nat := [6; 2; 1; 7; 4; 3; 5]%nat.

Section MirrorField.

Variable GRID_SIZE : Z.

(** ** mirrorfield_init *)

(** The state at program start: static storage is zeroed, the static
    locals hold their initialisers. *)
Definition fresh_state : state :=
  mkState (repeat 0 (Z.to_nat (GRID_SIZE * GRID_SIZE)))
          (repeat 0 (Z.to_nat (GRID_SIZE * 4)))
          (-1) 0 (-1) (-1).

Definition mirrorfield_init (st : state) : state :=
  with_perimeterChars
    (with_grid st (repeat 0 (Z.to_nat (GRID_SIZE * GRID_SIZE))))
    (repeat 0 (Z.to_nat (GRID_SIZE * 4))).

(** ** mirrorfield_set *)

(** [++i] is [set_i st + 1]: the value the C [int] takes for as long as
    the counter is below [INT_MAX] before the call. *)
Definition mirrorfield_set (ch : Z) (st : state) : Z * state :=
  let i := set_i st + 1 in
  let st := with_set_i st i in
  if i <? GRID_SIZE * GRID_SIZE then
    let t := (Z.quot i GRID_SIZE) * GRID_SIZE + Z.rem i GRID_SIZE in
    if ch =? char_slash then (1, with_grid st (aset (grid st) t MIRROR_FORWARD))
    else if ch =? char_backslash then (1, with_grid st (aset (grid st) t MIRROR_BACKWARD))
    else if ch =? char_minus then (1, with_grid st (aset (grid st) t MIRROR_STRAIGHT))
    else if ch =? char_space then (1, with_grid st (aset (grid st) t MIRROR_NONE))
    else (0, st)
  else
    let t := i - GRID_SIZE * GRID_SIZE in
    if t <? GRID_SIZE * 4 then
      (1, with_perimeterChars st (aset (perimeterChars st) t ch))
    else (0, st).

(** Feeding a sequence of key characters, one call each; the results of
    the calls are collected in order. *)
Fixpoint set_all (chs : list Z) (st : state) : list Z * state :=
  match chs with
  | [] => ([], st)
  | ch :: rest =>
      let '(ok, st1) := mirrorfield_set ch st in
      let '(oks, st2) := set_all rest st1 in
      (ok :: oks, st2)
  end.

(** ** mirrorfield_validate *)

Definition mirrorfield_validate (st : state) : Z :=
  if existsb (fun i => (aget (grid st) i <? 0) || (aget (grid st) i >? 3))
             (range 0 (GRID_SIZE * GRID_SIZE))
  then 0
  else if existsb (fun i =>
                     existsb (fun i2 => aget (perimeterChars st) i
                                        =? aget (perimeterChars st) i2)
                             (range (i + 1) (GRID_SIZE * 4)))
                  (range 0 (GRID_SIZE * 4))
  then 0
  else 1.

(** ** mirrorfield_roll_chars *)

(** One of the two collision loops: [pos] moves by [GRID_SIZE/2] while it
    equals one of the four positions. *)
Fixpoint roll_avoid (fuel : nat) (pos a b c d : Z) : option Z :=
  match fuel with
  | O => None
  | S fuel' =>
      if (pos =? a) || (pos =? b) || (pos =? c) || (pos =? d)
      then roll_avoid fuel' (Z.rem (pos + Z.quot GRID_SIZE 2) (GRID_SIZE * 4)) a b c d
      else Some pos
  end.

(** The three assignments through [tempChar]. *)
Definition roll_one (p : list Z) (pos rollPos : Z) : list Z :=
  let tempChar := aget p pos in
  let p := aset p pos (aget p rollPos) in
  aset p rollPos tempChar.

Definition mirrorfield_roll_chars (fuel : nat) (startCharPos endCharPos : Z)
           (st : state) : outcome state :=
  let p := perimeterChars st in
  let startRollCharPos :=
    if startCharPos =? 0
    then Z.rem (startCharPos + aget p startCharPos + aget p (startCharPos + 1)) (GRID_SIZE * 4)
    else Z.rem (startCharPos + aget p startCharPos + aget p (startCharPos - 1)) (GRID_SIZE * 4) in
  let endRollCharPos :=
    if endCharPos =? 0
    then Z.rem (endCharPos + aget p endCharPos + aget p (endCharPos + 1)) (GRID_SIZE * 4)
    else Z.rem (endCharPos + aget p endCharPos + aget p (endCharPos - 1)) (GRID_SIZE * 4) in
  match roll_avoid fuel startRollCharPos startCharPos endCharPos
                   (lastStartCharPos st) (lastEndCharPos st) with
  | None => OutOfFuel
  | Some startRollCharPos =>
      match roll_avoid fuel endRollCharPos endCharPos startCharPos
                       (lastEndCharPos st) (lastStartCharPos st) with
      | None => OutOfFuel
      | Some endRollCharPos =>
          let p' :=
            if aget p startCharPos >? aget p endCharPos
            then roll_one (roll_one p startCharPos startRollCharPos)
                          endCharPos endRollCharPos
            else roll_one (roll_one p endCharPos endRollCharPos)
                          startCharPos startRollCharPos in
          Ret (with_last (with_perimeterChars st p') startCharPos endCharPos)
      end
  end.

(** ** mirrorfield_crypt_char *)

(** The scan for the input character: the position of its first
    occurrence, or [GRID_SIZE * 4] when the loop runs to its end. *)
Fixpoint scan_perimeter (n : nat) (startCharPos : Z) (p : list Z) (ch : Z) : Z :=
  match n with
  | O => startCharPos
  | S n' => if aget p startCharPos =? ch then startCharPos
            else scan_perimeter n' (startCharPos + 1) p ch
  end.

(** Starting row, column and direction; no branch of the C [if] chain is
    taken when the scan found nothing, and [r], [c] stay uninitialised. *)
Definition entry (startCharPos : Z) : option (Z * Z * direction) :=
  if startCharPos <? GRID_SIZE then Some (0, startCharPos, DIR_DOWN)
  else if startCharPos <? GRID_SIZE * 2
       then Some (startCharPos - GRID_SIZE, GRID_SIZE - 1, DIR_LEFT)
  else if startCharPos <? GRID_SIZE * 3
       then Some (startCharPos - GRID_SIZE * 2, 0, DIR_RIGHT)
  else if startCharPos <? GRID_SIZE * 4
       then Some (GRID_SIZE - 1, startCharPos - GRID_SIZE * 3, DIR_UP)
  else None.

(** The first [switch]: the change of direction at a cell holding [m]. *)
Definition reflect (m : Z) (d : direction) : direction :=
  if m =? MIRROR_FORWARD then
    match d with
    | DIR_DOWN => DIR_LEFT
    | DIR_LEFT => DIR_DOWN
    | DIR_RIGHT => DIR_UP
    | DIR_UP => DIR_RIGHT
    end
  else if m =? MIRROR_BACKWARD then
    match d with
    | DIR_DOWN => DIR_RIGHT
    | DIR_LEFT => DIR_UP
    | DIR_RIGHT => DIR_DOWN
    | DIR_UP => DIR_LEFT
    end
  else d.

(** The last [switch]: one step, and the end position when the step
    leaves the grid. *)
Definition advance (r c : Z) (d : direction) (endCharPos : Z) : Z * Z * Z :=
  match d with
  | DIR_DOWN => let r := r + 1 in
                (r, c, if r =? GRID_SIZE then c + GRID_SIZE * 3 else endCharPos)
  | DIR_LEFT => let c := c - 1 in
                (r, c, if c =? -1 then r + GRID_SIZE * 2 else endCharPos)
  | DIR_RIGHT => let c := c + 1 in
                 (r, c, if c =? GRID_SIZE then r + GRID_SIZE else endCharPos)
  | DIR_UP => let r := r - 1 in
              (r, c, if r =? -1 then c else endCharPos)
  end.

(** What one turn of the traversal loop does at the cell [t]: un-spin a
    mirror met before, change direction, spin and mark. *)
Definition visit (t : Z) (d : direction) (g visited : list Z)
  : direction * list Z * list Z :=
  let g := if negb (aget visited t =? 0)
           then aset g t (Z.rem (aget g t + 2) 3) else g in
  let d := reflect (aget g t) d in
  if negb (aget g t =? MIRROR_NONE)
  then (d, aset g t (Z.rem (aget g t + 1) 3), aset visited t 1)
  else (d, g, visited).

(** The traversal loop [while (endCharPos < 0)]. *)
Fixpoint traverse (fuel : nat) (r c : Z) (d : direction) (endCharPos : Z)
         (g visited : list Z) : option (Z * list Z) :=
  match fuel with
  | O => None
  | S fuel' =>
      if endCharPos <? 0 then
        let t := r * GRID_SIZE + c in
        let '(d, g, visited) := visit t d g visited in
        let '(r, c, endCharPos) := advance r c d endCharPos in
        traverse fuel' r c d endCharPos g visited
      else Some (endCharPos, g)
  end.

Definition mirrorfield_crypt_char (fuel : nat) (ch : Z) (st : state)
  : outcome (Z * state) :=
  let st := with_evenodd st (Z.rem (evenodd st + 1) 2) in
  let visited := repeat 0 (Z.to_nat (GRID_SIZE * GRID_SIZE)) in
  let p := perimeterChars st in
  let startCharPos := scan_perimeter (Z.to_nat (GRID_SIZE * 4)) 0 p ch in
  match entry startCharPos with
  | None => Undefined st
  | Some (r, c, d) =>
      match traverse fuel r c d (-1) (grid st) visited with
      | None => OutOfFuel
      | Some (endCharPos, g) =>
          let st := with_grid st g in
          let ech := aget p endCharPos in
          let ech :=
            if (aget p startCharPos =? startCharPos)
               || (aget p endCharPos =? endCharPos)
            then (if negb (evenodd st =? 0) then aget p startCharPos else ech)
            else ech in
          match mirrorfield_roll_chars fuel startCharPos endCharPos st with
          | Ret st' => Ret (ech, st')
          | Undefined st' => Undefined st'
          | OutOfFuel => OutOfFuel
          end
      end
  end.

(** A message through the engine, one call per character. *)
Fixpoint crypt_stream (fuel : nat) (msg : list Z) (st : state)
  : outcome (list Z * state) :=
  match msg with
  | [] => Ret ([], st)
  | ch :: rest =>
      match mirrorfield_crypt_char fuel ch st with
      | Ret (ech, st1) =>
          match crypt_stream fuel rest st1 with
          | Ret (out, st2) => Ret (ech :: out, st2)
          | Undefined st' => Undefined st'
          | OutOfFuel => OutOfFuel
          end
      | Undefined st' => Undefined st'
      | OutOfFuel => OutOfFuel
      end
  end.

(** ** Notions the statements are written with *)

(** The shape the C declarations give the two arrays. *)
Definition wf (st : state) : Prop :=
  length (grid st) = Z.to_nat (GRID_SIZE * GRID_SIZE) /\
  length (perimeterChars st) = Z.to_nat (GRID_SIZE * 4) /\
  Forall (fun b => 0 <= b < 256) (perimeterChars st).

(** A key that passes [mirrorfield_validate]. *)
Definition ready (st : state) : Prop :=
  wf st /\ mirrorfield_validate st = 1.

(** Fuel that is enough for every loop of one call. *)
Definition fuel_bound : nat := (Z.to_nat (4 * GRID_SIZE * GRID_SIZE) + 1)%nat.

(** The table of the loader: glyph to cell code. *)
Definition cell_code (ch : Z) : option Z :=
  if ch =? char_slash then Some 0
  else if ch =? char_minus then Some 1
  else if ch =? char_backslash then Some 2
  else if ch =? char_space then Some 3
  else None.

(** The same table in the order the loading paragraph of the
    specification lists it: slash, backslash, minus, space to 0, 1, 2, 3. *)
Definition claimed_cell_code (ch : Z) : option Z :=
  if ch =? char_slash then Some 0
  else if ch =? char_backslash then Some 1
  else if ch =? char_minus then Some 2
  else if ch =? char_space then Some 3
  else None.

(** The opposite-edge mirror image of a slot. *)
Definition opposite_slot (s : Z) : Z :=
  if s <? GRID_SIZE then s + 3 * GRID_SIZE
  else if s <? 2 * GRID_SIZE then s + GRID_SIZE
  else if s <? 3 * GRID_SIZE then s - GRID_SIZE
  else s - 3 * GRID_SIZE.

(** *** The roll procedure as the specification words it *)

Definition neigh (x : Z) : Z := if x =? 0 then x + 1 else x - 1.

Definition swap_slots (p : list Z) (i j : Z) : list Z :=
  map (fun k => if k =? i then aget p j
                else if k =? j then aget p i
                else aget p k)
      (range 0 (Z.of_nat (length p))).

Fixpoint spec_avoid (fuel : nat) (x : Z) (forbidden : list Z) : option Z :=
  match fuel with
  | O => None
  | S fuel' =>
      if existsb (Z.eqb x) forbidden
      then spec_avoid fuel' ((x + GRID_SIZE / 2) mod (4 * GRID_SIZE)) forbidden
      else Some x
  end.

Definition spec_roll (fuel : nat) (s e : Z) (perim : list Z) (lastStart lastEnd : Z)
  : option (list Z * Z * Z) :=
  let P := 4 * GRID_SIZE in
  let rs := (s + aget perim s + aget perim (neigh s)) mod P in
  let re := (e + aget perim e + aget perim (neigh e)) mod P in
  match spec_avoid fuel rs [s; e; lastStart; lastEnd] with
  | None => None
  | Some rs =>
      match spec_avoid fuel re [e; s; lastEnd; lastStart] with
      | None => None
      | Some re =>
          let perim' :=
            if aget perim e <? aget perim s
            then swap_slots (swap_slots perim s rs) e re
            else swap_slots (swap_slots perim e re) s rs in
          Some (perim', s, e)
      end
  end.

(** *** The ray in a grid that does not change *)

Definition ray : Type := (Z * Z * direction)%type.

Definition cell (x : ray) : Z := let '(r, c, _) := x in r * GRID_SIZE + c.

Definition in_grid (x : ray) : Prop :=
  let '(r, c, _) := x in 0 <= r < GRID_SIZE /\ 0 <= c < GRID_SIZE.

(** One turn of the traversal loop when every cell reflects with the code
    [g0] gives it: the next ray, or the end position. *)
Definition ray_step (g0 : list Z) (x : ray) : ray + Z :=
  let '(r, c, d) := x in
  let d' := reflect (aget g0 (r * GRID_SIZE + c)) d in
  let '(r', c', e) := advance r c d' (-1) in
  if e <? 0 then inl (r', c', d') else inr e.

(** [ray_path g0 x ts e]: from [x] the ray crosses the cells [ts], in
    order, and leaves at the end position [e]. *)
Inductive ray_path (g0 : list Z) : ray -> list Z -> Z -> Prop :=
| ray_path_exit x e :
    ray_step g0 x = inr e -> ray_path g0 x [cell x] e
| ray_path_step x y ts e :
    ray_step g0 x = inl y -> ray_path g0 y ts e ->
    ray_path g0 x (cell x :: ts) e.

Fixpoint ray_iter (g0 : list Z) (k : nat) (x : ray) : option ray :=
  match k with
  | O => Some x
  | S k' => match ray_step g0 x with
            | inl y => ray_iter g0 k' y
            | inr _ => None
            end
  end.

Definition opposite (d : direction) : direction :=
  match d with
  | DIR_DOWN => DIR_UP
  | DIR_UP => DIR_DOWN
  | DIR_LEFT => DIR_RIGHT
  | DIR_RIGHT => DIR_LEFT
  end.

(** The ray that runs the same path backwards through the cell of [x]. *)
Definition turn_back (g0 : list Z) (x : ray) : ray :=
  let '(r, c, d) := x in
  (r, c, opposite (reflect (aget g0 (r * GRID_SIZE + c)) d)).

Definition all_rays : list ray :=
  list_prod (list_prod (range 0 GRID_SIZE) (range 0 GRID_SIZE))
            [DIR_DOWN; DIR_LEFT; DIR_RIGHT; DIR_UP].

Definition grid_ok (g : list Z) : Prop :=
  forall t, 0 <= t < GRID_SIZE * GRID_SIZE -> 0 <= aget g t <= 3.

(** What the loop keeps true of [grid] and [visited] once the ray has
    crossed the cells [V] of a grid that was [g0] when the call began:
    the mirrors among [V] are marked and stand one spin further. *)
Definition spun (g0 V g visited : list Z) : Prop :=
  length g = length g0 /\ length visited = length g0 /\
  forall t, 0 <= t < Z.of_nat (length g0) ->
    (In t V /\ aget g0 t <> MIRROR_NONE /\ aget visited t = 1 /\
     aget g t = Z.rem (aget g0 t + 1) 3)
    \/ (~ (In t V /\ aget g0 t <> MIRROR_NONE) /\ aget visited t = 0 /\
        aget g t = aget g0 t).

(** The character a call returns when the ray runs from slot [s] to slot
    [e], [p] and [evenodd] being the perimeter and the parity at that
    point of the call. *)
Definition emitted (p : list Z) (evenodd s e : Z) : Z :=
  if (aget p s =? s) || (aget p e =? e)
  then (if negb (evenodd =? 0) then aget p s else aget p e)
  else aget p e.

(** Two engines that have processed the two halves of a round trip: equal
    but for the order of the two remembered positions. *)
Definition in_sync (a b : state) : Prop :=
  grid a = grid b /\ perimeterChars a = perimeterChars b /\
  evenodd a = evenodd b /\
  ((lastStartCharPos a = lastStartCharPos b /\ lastEndCharPos a = lastEndCharPos b)
   \/ (lastStartCharPos a = lastEndCharPos b /\ lastEndCharPos a = lastStartCharPos b)).

End MirrorField.


(** ** mirrorfield_draw *)

(** What [mirrorfield_draw] prints, one item a call of [printf]: the
    escape sequences by name, ["%2c"] with its character and ["%2x"] with
    its byte. [resetCursor], a static of the function, is an argument and
    a result. *)
Inductive printed : Type :=
| SaveCursor            (* "\033[s" *)
| ClearScreen           (* "\033[2J" *)
| CursorHome            (* "\033[H" *)
| ForegroundBlack       (* "\x1B[30m" *)
| BackgroundWhite       (* "\x1B[47m" *)
| HighlightOff          (* "\x1B[0m" *)
| Char2 (ch : Z)        (* printf("%2c", ch) *)
| Hex2 (b : Z)          (* printf("%2x", b) *)
| NewLine
| RestoreCursor.        (* "\033[u" *)

(** The chain [if (r == -1 && c == -1) ... else printf("%2c", ' ')]. *)
Definition draw_cell (GRID_SIZE : Z) (st : state) (r c : Z) : printed :=
  if (r =? -1) && (c =? -1) then Char2 char_space
  else if (r =? -1) && (c =? GRID_SIZE) then Char2 char_space
  else if (r =? GRID_SIZE) && (c =? -1) then Char2 char_space
  else if (r =? GRID_SIZE) && (c =? GRID_SIZE) then Char2 char_space
  else if r =? -1 then Hex2 (aget (perimeterChars st) c)
  else if c =? GRID_SIZE then Hex2 (aget (perimeterChars st) (r + GRID_SIZE))
  else if r =? GRID_SIZE then Hex2 (aget (perimeterChars st) (c + GRID_SIZE * 3))
  else if c =? -1 then Hex2 (aget (perimeterChars st) (r + GRID_SIZE * 2))
  else if aget (grid st) (r * GRID_SIZE + c) =? MIRROR_FORWARD then Char2 char_slash
  else if aget (grid st) (r * GRID_SIZE + c) =? MIRROR_BACKWARD then Char2 char_backslash
  else if aget (grid st) (r * GRID_SIZE + c) =? MIRROR_STRAIGHT then Char2 char_minus
  else Char2 char_space.

(** The body of the inner loop. *)
Definition draw_at (GRID_SIZE : Z) (pos_r pos_c : Z) (st : state) (r c : Z)
  : list printed :=
  (if (r =? pos_r) && (c =? pos_c) then [ForegroundBlack; BackgroundWhite] else [])
  ++ [draw_cell GRID_SIZE st r c]
  ++ (if (r =? pos_r) && (c =? pos_c) then [HighlightOff] else []).

(** The body of the outer loop. *)
Definition draw_row (GRID_SIZE : Z) (pos_r pos_c : Z) (st : state) (r : Z)
  : list printed :=
  flat_map (draw_at GRID_SIZE pos_r pos_c st r) (range (-1) (GRID_SIZE + 1))
  ++ [NewLine].

Definition mirrorfield_draw (GRID_SIZE : Z) (pos_r pos_c : Z) (st : state)
           (resetCursor : Z) : list printed * Z :=
  ([if negb (resetCursor =? 0) then SaveCursor else ClearScreen]
   ++ [CursorHome]
   ++ flat_map (draw_row GRID_SIZE pos_r pos_c st) (range (-1) (GRID_SIZE + 1))
   ++ [NewLine]
   ++ (if negb (resetCursor =? 0) then [RestoreCursor] else []),
   if negb (resetCursor =? 0) then resetCursor else 1).

(** The cells of a picture: what [printf("%2c")] and [printf("%2x")]
    printed, in order. *)
Definition is_cell (p : printed) : bool :=
  match p with
  | Char2 _ | Hex2 _ => true
  | _ => false
  end.

(** The items that switch the highlight on and off. *)
Definition is_highlight (p : printed) : bool :=
  match p with
  | ForegroundBlack | BackgroundWhite | HighlightOff => true
  | _ => false
  end.

(** ** keyfile.c: what keyfile_create writes *)

(** The part of [keyfile_create] between the opening and the closing of
    the key file: the calls of [base64_encode_char], in order, whose
    results the function prints to the file. [base64.h], [SUPPORTED_CHARS]
    and [GRID_SIZE] belong to files that are not at hand: the encoder is
    left uninterpreted (a write is the character and the flag it is given)
    and the two macros are parameters. The directories and the file are
    taken to have been created. *)

Definition MIRROR_DENSITY : nat := 6.

Inductive b64_flag : Type := B64_NOFORCE | B64_FORCE.

(** [switch (rand() % MIRROR_DENSITY)] *)
Definition mirror_glyph (x : nat) : ascii :=
  match (x mod MIRROR_DENSITY)%nat with
  | 1%nat => "/"%char
  | 2%nat => "\"%char
  | _ => " "%char
  end.

(** The inner loop [for (c = 0; c < width; ++c)], one draw a cell. *)
Fixpoint write_row (cols : nat) (draws : list nat) : option (list ascii * list nat) :=
  match cols with
  | O => Some ([], draws)
  | S cols' =>
      match draws with
      | [] => None
      | x :: draws =>
          match write_row cols' draws with
          | None => None
          | Some (gs, draws) => Some (mirror_glyph x :: gs, draws)
          end
      end
  end.

(** The outer loop [for (r = 0; r < width; ++r)]. *)
Fixpoint write_rows (rows cols : nat) (draws : list nat)
  : option (list ascii * list nat) :=
  match rows with
  | O => Some ([], draws)
  | S rows' =>
      match write_row cols draws with
      | None => None
      | Some (gs, draws) =>
          match write_rows rows' cols draws with
          | None => None
          | Some (gs', draws) => Some (gs ++ gs', draws)
          end
      end
  end.

(** The last loop: every character of the shuffled string, the last one
    with [B64_FORCE]. *)
Fixpoint write_chars (s : list ascii) : list (ascii * b64_flag) :=
  match s with
  | [] => []
  | c :: t =>
      match t with
      | [] => [(c, B64_FORCE)]
      | _ :: _ => (c, B64_NOFORCE) :: write_chars t
      end
  end.

Inductive created : Type :=
| Created (writes : list (ascii * b64_flag)) (rest : list nat)
| CreateModuloZero      (* the shuffle of an empty [SUPPORTED_CHARS] *)
| CreateNoMoreDraws.

Definition keyfile_create_writes (GRID_SIZE : Z) (SUPPORTED_CHARS : list ascii)
           (draws : list nat) : created :=
  let width := Z.to_nat GRID_SIZE in
  match write_rows width width draws with
  | None => CreateNoMoreDraws
  | Some (gs, draws) =>
      match keyfile_shuffle_string SUPPORTED_CHARS 1000 draws with
      | Shuffled shuffledChars rest =>
          Created (map (fun g => (g, B64_NOFORCE)) gs ++ write_chars shuffledChars)
                  rest
      | ModuloZero => CreateModuloZero
      | NoMoreDraws => CreateNoMoreDraws
      end
  end.

(** A character as the [unsigned char] the engine is given. *)
Definition byte_of_char (c : ascii) : Z := Z.of_N (N_of_ascii c).

(** The key a list of writes holds, as the loader receives it once the
    file has been decoded. *)
Definition key_of_writes (ws : list (ascii * b64_flag)) : list Z :=
  map (fun w => byte_of_char (fst w)) ws.

(** Examples for the key file: an alphabet of eight characters and a
    supply of draws long enough for a key with [GRID_SIZE = 2]. *)
Definition demo_alphabet : list ascii := ["A"; "B"; "C"; "D"; "E"; "F"; "G"; "H"]%char.
Definition demo_supply : list nat := seq 0 1400.

(** What [keyfile_create] writes from [demo_supply]:
    the glyphs of the draws 0, 1, 2, 3 and the shuffled alphabet. *)
Definition demo_writes : list (ascii * b64_flag) :=
  [(" ", B64_NOFORCE); ("/", B64_NOFORCE); ("\", B64_NOFORCE); (" ", B64_NOFORCE);
   ("B", B64_NOFORCE); ("C", B64_NOFORCE); ("D", B64_NOFORCE); ("F", B64_NOFORCE);
   ("E", B64_NOFORCE); ("G", B64_NOFORCE); ("H", B64_NOFORCE); ("A", B64_FORCE)]%char.

(** * Facts about arrays *)

Lemma length_upd_nth {A : Type} (n : nat) (v : A) (l : list A) :
  length (upd_nth n v l) = length l.
Proof.
  revert n; induction l as [|x t IH]; intros [|n]; simpl; auto.
Qed.

Lemma nth_upd_nth_same {A : Type} (n : nat) (v d : A) (l : list A) :
  (n < length l)%nat -> nth n (upd_nth n v l) d = v.
Proof.
  revert n; induction l as [|x t IH]; intros [|n] H; simpl in *; try lia; auto.
  apply IH; lia.
Qed.

Lemma nth_upd_nth_other {A : Type} (n m : nat) (v d : A) (l : list A) :
  n <> m -> nth m (upd_nth n v l) d = nth m l d.
Proof.
  revert n m; induction l as [|x t IH]; intros [|n] [|m] H; simpl; auto; try lia.
Qed.

Lemma length_aset (a : list Z) (i v : Z) : length (aset a i v) = length a.
Proof.
  unfold aset; destruct (i <? 0); auto using length_upd_nth.
Qed.

Lemma aget_aset_same (a : list Z) (i v : Z) :
  0 <= i < Z.of_nat (length a) -> aget (aset a i v) i = v.
Proof.
  intros H; unfold aget, aset.
  destruct (Z.ltb_spec i 0); try lia.
  apply nth_upd_nth_same; lia.
Qed.

Lemma aget_aset_other (a : list Z) (i j v : Z) :
  i <> j -> 0 <= j -> aget (aset a i v) j = aget a j.
Proof.
  intros Hne Hj; unfold aget, aset.
  destruct (Z.ltb_spec i 0); auto.
  apply nth_upd_nth_other; lia.
Qed.

Lemma aget_ext (a b : list Z) :
  length a = length b ->
  (forall i, 0 <= i < Z.of_nat (length a) -> aget a i = aget b i) ->
  a = b.
Proof.
  intros Hl H; apply (nth_ext a b 0 0 Hl).
  intros n Hn; specialize (H (Z.of_nat n)); unfold aget in H.
  rewrite Nat2Z.id in H; apply H; lia.
Qed.

Lemma aget_In (a : list Z) (i : Z) :
  0 <= i < Z.of_nat (length a) -> In (aget a i) a.
Proof.
  intros H; unfold aget; apply nth_In; lia.
Qed.

Lemma In_aget (a : list Z) (x : Z) :
  In x a -> exists i, 0 <= i < Z.of_nat (length a) /\ aget a i = x.
Proof.
  intros H; destruct (In_nth a x 0 H) as (n & Hn & Hx).
  exists (Z.of_nat n); unfold aget; rewrite Nat2Z.id; split; [lia | exact Hx].
Qed.

Lemma NoDup_aget_inj (a : list Z) (i j : Z) :
  NoDup a -> 0 <= i < Z.of_nat (length a) -> 0 <= j < Z.of_nat (length a) ->
  aget a i = aget a j -> i = j.
Proof.
  intros Hnd Hi Hj H; unfold aget in H.
  assert (Z.to_nat i = Z.to_nat j) by (apply (proj1 (NoDup_nth a 0) Hnd); auto; lia).
  lia.
Qed.

Lemma aget_repeat (v : Z) (n : nat) (i : Z) :
  0 <= i < Z.of_nat n -> aget (repeat v n) i = v.
Proof.
  intros H; unfold aget; apply nth_repeat_lt; lia.
Qed.

Lemma In_range (lo hi x : Z) : In x (range lo hi) <-> lo <= x < hi.
Proof.
  unfold range; rewrite in_map_iff; split.
  - intros (k & Hk & Hin); apply in_seq in Hin; lia.
  - intros H; exists (Z.to_nat (x - lo)); split; [lia | apply in_seq; lia].
Qed.

Lemma length_range (lo hi : Z) : length (range lo hi) = Z.to_nat (hi - lo).
Proof.
  unfold range; rewrite length_map, length_seq; reflexivity.
Qed.

Lemma NoDup_range (lo hi : Z) : NoDup (range lo hi).
Proof.
  unfold range; apply Injective_map_NoDup; [| apply seq_NoDup].
  intros a b H; lia.
Qed.

Lemma aget_range0 (n i : Z) : 0 <= i < n -> aget (range 0 n) i = i.
Proof.
  intros H; unfold aget, range.
  set (f := fun k => 0 + Z.of_nat k).
  rewrite (nth_indep _ 0 (f O)) by (rewrite length_map, length_seq; lia).
  rewrite map_nth, seq_nth by lia; unfold f; lia.
Qed.

(** A write changes the number of occurrences of a value by what it
    removes and what it puts. *)
Lemma count_occ_upd_nth {A : Type} (eq_dec : forall x y : A, {x = y} + {x <> y})
      (d : A) (l : list A) (n : nat) (v x : A) :
  (n < length l)%nat ->
  (count_occ eq_dec (upd_nth n v l) x
   + (if eq_dec (nth n l d) x then 1 else 0)
   = count_occ eq_dec l x + (if eq_dec v x then 1 else 0))%nat.
Proof.
  revert n; induction l as [|y t IH]; intros [|n] H; simpl in *; try lia.
  - destruct (eq_dec v x), (eq_dec y x); lia.
  - specialize (IH n ltac:(lia)).
    destruct (eq_dec y x); lia.
Qed.

Lemma count_occ_aset (a : list Z) (i v x : Z) :
  0 <= i < Z.of_nat (length a) ->
  (count_occ Z.eq_dec (aset a i v) x
   + (if Z.eq_dec (aget a i) x then 1 else 0)
   = count_occ Z.eq_dec a x + (if Z.eq_dec v x then 1 else 0))%nat.
Proof.
  intros H; unfold aset, aget.
  destruct (Z.ltb_spec i 0); try lia.
  apply count_occ_upd_nth; lia.
Qed.

(** Two writes that exchange what they put give a permutation. *)
Lemma upd_nth_exchange {A : Type} (eq_dec : forall x y : A, {x = y} + {x <> y})
      (l : list A) (i j : nat) (a b : A) :
  (i < length l)%nat -> (j < length l)%nat -> i <> j ->
  Permutation (upd_nth i a (upd_nth j b l)) (upd_nth i b (upd_nth j a l)).
Proof.
  intros Hi Hj Hij.
  apply (proj2 (Permutation_count_occ eq_dec _ _)); intros x.
  pose proof (count_occ_upd_nth eq_dec a (upd_nth j b l) i a x
                ltac:(rewrite length_upd_nth; lia)) as H1.
  pose proof (count_occ_upd_nth eq_dec a l j b x Hj) as H2.
  pose proof (count_occ_upd_nth eq_dec a (upd_nth j a l) i b x
                ltac:(rewrite length_upd_nth; lia)) as H3.
  pose proof (count_occ_upd_nth eq_dec a l j a x Hj) as H4.
  rewrite nth_upd_nth_other in H1, H3 by lia.
  lia.
Qed.

Lemma upd_nth_same {A : Type} (d : A) (l : list A) (n : nat) :
  upd_nth n (nth n l d) l = l.
Proof.
  revert n; induction l as [|y t IH]; intros [|n]; simpl; auto.
  rewrite IH; reflexivity.
Qed.

Lemma roll_one_length (p : list Z) (i j : Z) :
  length (roll_one p i j) = length p.
Proof.
  unfold roll_one; rewrite !length_aset; reflexivity.
Qed.

Lemma roll_one_get (p : list Z) (i j k : Z) :
  0 <= i < Z.of_nat (length p) -> 0 <= j < Z.of_nat (length p) -> 0 <= k ->
  aget (roll_one p i j) k =
  if k =? j then aget p i else if k =? i then aget p j else aget p k.
Proof.
  intros Hi Hj Hk; unfold roll_one.
  destruct (Z.eqb_spec k j) as [->|Hkj].
  - rewrite aget_aset_same by (rewrite length_aset; lia); reflexivity.
  - rewrite aget_aset_other by lia.
    destruct (Z.eqb_spec k i) as [->|Hki].
    + rewrite aget_aset_same by lia; reflexivity.
    + rewrite aget_aset_other by lia; reflexivity.
Qed.

Lemma roll_one_Permutation (p : list Z) (i j : Z) :
  0 <= i < Z.of_nat (length p) -> 0 <= j < Z.of_nat (length p) ->
  Permutation p (roll_one p i j).
Proof.
  intros Hi Hj; apply (proj2 (Permutation_count_occ Z.eq_dec p _)); intros x.
  unfold roll_one.
  pose proof (count_occ_aset p i (aget p j) x Hi) as H1.
  pose proof (count_occ_aset (aset p i (aget p j)) j (aget p i) x
                ltac:(rewrite length_aset; lia)) as H2.
  destruct (Z.eq_dec i j) as [->|Hij].
  - rewrite aget_aset_same in H2 by lia. lia.
  - rewrite aget_aset_other in H2 by lia. lia.
Qed.

Lemma roll_one_swap_slots (p : list Z) (i j : Z) :
  0 <= i < Z.of_nat (length p) -> 0 <= j < Z.of_nat (length p) ->
  roll_one p i j = swap_slots p i j.
Proof.
  intros Hi Hj; apply aget_ext.
  - unfold swap_slots; rewrite roll_one_length, length_map, length_range; lia.
  - rewrite roll_one_length; intros k Hk.
    rewrite roll_one_get by lia.
    unfold swap_slots.
    set (f := fun k => if k =? i then aget p j
                else if k =? j then aget p i else aget p k).
    unfold aget at 4.
    rewrite (nth_indep _ 0 (f 0)) by (rewrite length_map, length_range; lia).
    rewrite map_nth. fold (aget (range 0 (Z.of_nat (length p))) k).
    rewrite aget_range0 by lia. unfold f.
    destruct (Z.eqb_spec k j), (Z.eqb_spec k i); subst; auto.
Qed.

(** * Loading and validation *)

Section Loading.

Variable GRID_SIZE : Z.
Hypothesis GRID_SIZE_pos : 0 < GRID_SIZE.

Lemma set_all_counter (chs : list Z) (st : state) :
  set_i (snd (set_all GRID_SIZE chs st)) = set_i st + Z.of_nat (length chs).
Proof.
  revert st; induction chs as [|ch rest IH]; intros st.
  - simpl; lia.
  - cbn [set_all].
    destruct (mirrorfield_set GRID_SIZE ch st) as [ok st1] eqn:E1.
    specialize (IH st1).
    destruct (set_all GRID_SIZE rest st1) as [oks st2]; cbn [snd] in *.
    assert (set_i st1 = set_i st + 1).
    { unfold mirrorfield_set in E1.
      repeat match type of E1 with
             | (if ?b then _ else _) = _ => destruct b
             end; inversion E1; reflexivity. }
    rewrite IH, length_cons; lia.
Qed.

Lemma cell_index (i : Z) : Z.quot i GRID_SIZE * GRID_SIZE + Z.rem i GRID_SIZE = i.
Proof.
  pose proof (Z.quot_rem' i GRID_SIZE); lia.
Qed.

(** C7, as amended: the call that follows [length chs] earlier calls,
    for as long as the counter of the calls stays within [INT_MAX]. The
    counter grows by one and is still within [INT_MAX]. In the grid phase
    a glyph is stored as its cell code, where slash, minus, backslash and
    space have the codes 0, 1, 2 and 3, and any other byte makes the call
    fail; in the perimeter phase the byte is stored as it is; every later
    call fails. *)
Theorem mirrorfield_set_phases (chs : list Z) (ch : Z) :
  Z.of_nat (length chs) <= INT_MAX ->
  let st := snd (set_all GRID_SIZE chs (fresh_state GRID_SIZE)) in
  let k := Z.of_nat (length chs) in
  let ok := fst (mirrorfield_set GRID_SIZE ch st) in
  let st' := snd (mirrorfield_set GRID_SIZE ch st) in
  (set_i st' = set_i st + 1 /\ set_i st' = k /\ set_i st' <= INT_MAX)
  /\ (k < GRID_SIZE * GRID_SIZE ->
      perimeterChars st' = perimeterChars st /\
      match cell_code ch with
      | Some code => ok = 1 /\ grid st' = aset (grid st) k code
      | None => ok = 0 /\ grid st' = grid st
      end)
  /\ (GRID_SIZE * GRID_SIZE <= k < GRID_SIZE * GRID_SIZE + 4 * GRID_SIZE ->
      ok = 1 /\ grid st' = grid st /\
      perimeterChars st' = aset (perimeterChars st) (k - GRID_SIZE * GRID_SIZE) ch)
  /\ (GRID_SIZE * GRID_SIZE + 4 * GRID_SIZE <= k ->
      ok = 0 /\ grid st' = grid st /\ perimeterChars st' = perimeterChars st).
Proof.
  intros Hint st k ok st'.
  assert (Hi : set_i st + 1 = k).
  { unfold st, k; rewrite set_all_counter; unfold fresh_state; cbn [set_i]; lia. }
  split.
  { assert (Hc : set_i st' = set_i st + 1).
    { pose proof (set_all_counter [ch] st) as H1. cbn [set_all length] in H1.
      fold st' in H1.
      destruct (mirrorfield_set GRID_SIZE ch st) as [ok1 st1] eqn:E.
      subst st'. cbn [snd] in *. lia. }
    fold k in Hint. lia. }
  subst ok st'; unfold mirrorfield_set; rewrite Hi, cell_index.
  destruct (Z.ltb_spec k (GRID_SIZE * GRID_SIZE)) as [Hk|Hk].
  - split; [intros _ | split; intros; lia].
    unfold cell_code.
    destruct (ch =? char_slash) eqn:E1; [cbn; auto|].
    destruct (ch =? char_backslash) eqn:E2.
    { apply Z.eqb_eq in E2; subst ch; cbn; auto. }
    destruct (ch =? char_minus) eqn:E3; [cbn; auto|].
    destruct (ch =? char_space) eqn:E4; cbn; auto.
  - split; [intros; lia|].
    destruct (Z.ltb_spec (k - GRID_SIZE * GRID_SIZE) (GRID_SIZE * 4)).
    + split; [intros _; cbn; auto | intros; lia].
    + split; [intros; lia | intros _; cbn; auto].
Qed.

Lemma existsb_false {A : Type} (f : A -> bool) (l : list A) :
  existsb f l = false <-> forall x, In x l -> f x = false.
Proof.
  split.
  - intros H x Hx; destruct (f x) eqn:E; auto.
    rewrite <- H; symmetry; apply existsb_exists; eauto.
  - intros H; destruct (existsb f l) eqn:E; auto.
    apply existsb_exists in E; destruct E as (x & Hx & Hf).
    rewrite (H x Hx) in Hf; discriminate.
Qed.

Lemma validate_cases (st : state) :
  (mirrorfield_validate GRID_SIZE st = 1 <->
   (forall i, 0 <= i < GRID_SIZE * GRID_SIZE -> 0 <= aget (grid st) i <= 3) /\
   (forall i j, 0 <= i < 4 * GRID_SIZE -> 0 <= j < 4 * GRID_SIZE -> i <> j ->
                aget (perimeterChars st) i <> aget (perimeterChars st) j))
  /\ (mirrorfield_validate GRID_SIZE st = 1 \/ mirrorfield_validate GRID_SIZE st = 0).
Proof.
  unfold mirrorfield_validate.
  destruct (existsb _ (range 0 (GRID_SIZE * GRID_SIZE))) eqn:E1.
  - split; [|auto]. split; [discriminate|].
    intros [Hg _]. apply existsb_exists in E1; destruct E1 as (i & Hi & Hb).
    apply In_range in Hi; specialize (Hg i Hi).
    apply orb_true_iff in Hb; rewrite Z.gtb_ltb, !Z.ltb_lt in Hb; lia.
  - rewrite existsb_false in E1.
    destruct (existsb _ (range 0 (GRID_SIZE * 4))) eqn:E2.
    + split; [|auto]. split; [discriminate|].
      intros [_ Hp]. apply existsb_exists in E2; destruct E2 as (i & Hi & Hb).
      apply existsb_exists in Hb; destruct Hb as (j & Hj & Hb).
      apply In_range in Hi, Hj. apply Z.eqb_eq in Hb.
      exfalso; apply (Hp i j); auto; lia.
    + rewrite existsb_false in E2.
      split; [|auto]. split; [intros _|auto]. split.
      * intros i Hi. specialize (E1 i (proj2 (In_range _ _ _) Hi)).
        apply orb_false_iff in E1; rewrite Z.gtb_ltb, !Z.ltb_ge in E1; lia.
      * assert (Hlt : forall i j, 0 <= i -> i < j -> j < 4 * GRID_SIZE ->
                  aget (perimeterChars st) i <> aget (perimeterChars st) j).
        { intros i j Hi Hij Hj.
          assert (Hin : In i (range 0 (GRID_SIZE * 4))) by (apply In_range; lia).
          specialize (E2 i Hin).
          rewrite existsb_false in E2.
          assert (Hjn : In j (range (i + 1) (GRID_SIZE * 4))) by (apply In_range; lia).
          specialize (E2 j Hjn).
          apply Z.eqb_neq; exact E2. }
        intros i j Hi Hj Hne.
        destruct (Z.lt_total i j) as [H|[H|H]]; try lia.
        -- apply Hlt; lia.
        -- apply not_eq_sym, Hlt; lia.
Qed.

(** C5: [mirrorfield_validate] answers 1 exactly when every cell of the
    grid holds a value from 0 to 3 and no two perimeter slots hold the
    same byte, and it answers 0 otherwise. *)
Theorem mirrorfield_validate_iff (st : state) :
  (mirrorfield_validate GRID_SIZE st = 1 <->
   (forall i, 0 <= i < GRID_SIZE * GRID_SIZE -> 0 <= aget (grid st) i <= 3) /\
   (forall i j, 0 <= i < 4 * GRID_SIZE -> 0 <= j < 4 * GRID_SIZE -> i <> j ->
                aget (perimeterChars st) i <> aget (perimeterChars st) j))
  /\ (mirrorfield_validate GRID_SIZE st = 1 \/ mirrorfield_validate GRID_SIZE st = 0).
Proof.
  exact (validate_cases st).
Qed.

Lemma ready_grid_ok (st : state) : ready GRID_SIZE st -> grid_ok GRID_SIZE (grid st).
Proof.
  intros [_ Hv]; apply (proj1 (validate_cases st)) in Hv.
  exact (proj1 Hv).
Qed.

Lemma ready_NoDup (st : state) : ready GRID_SIZE st -> NoDup (perimeterChars st).
Proof.
  intros [(_ & Hl & _) Hv]; apply (proj1 (validate_cases st)) in Hv.
  destruct Hv as [_ Hp].
  apply (proj2 (NoDup_nth (perimeterChars st) 0)); intros i j Hi Hj H.
  destruct (Nat.eq_dec i j) as [|Hne]; auto.
  exfalso; apply (Hp (Z.of_nat i) (Z.of_nat j)); try lia.
  unfold aget; rewrite !Nat2Z.id; exact H.
Qed.

Lemma ready_intro (st : state) :
  wf GRID_SIZE st -> grid_ok GRID_SIZE (grid st) -> NoDup (perimeterChars st) ->
  ready GRID_SIZE st.
Proof.
  intros Hwf Hg Hnd; split; auto.
  apply (proj1 (validate_cases st)); split; auto.
  destruct Hwf as (_ & Hl & _).
  intros i j Hi Hj Hne H; apply Hne.
  apply (NoDup_aget_inj (perimeterChars st)); auto; lia.
Qed.

Lemma Forall_upd_nth {A : Type} (P : A -> Prop) (n : nat) (v : A) (l : list A) :
  P v -> Forall P l -> Forall P (upd_nth n v l).
Proof.
  intros Hv Hl; revert n; induction Hl as [|x t Hx Ht IH]; intros [|n]; simpl;
    auto.
Qed.

Lemma mirrorfield_set_wf (ch : Z) (st : state) :
  0 <= ch < 256 -> wf GRID_SIZE st ->
  wf GRID_SIZE (snd (mirrorfield_set GRID_SIZE ch st)).
Proof.
  intros Hch (Lg & Lp & Hb). unfold mirrorfield_set.
  repeat match goal with
         | |- context [if ?b then _ else _] => destruct b
         end; cbn [snd]; repeat split; cbn; rewrite ?length_aset; auto.
  unfold aset. destruct (_ <? 0); auto. apply Forall_upd_nth; auto.
Qed.

(** An engine loaded from key bytes has arrays of the declared shape;
    when it passes validation it is [ready]. *)
Lemma loaded_wf (key : list Z) :
  Forall (fun b => 0 <= b < 256) key ->
  wf GRID_SIZE (snd (set_all GRID_SIZE key (fresh_state GRID_SIZE))).
Proof.
  assert (H0 : wf GRID_SIZE (fresh_state GRID_SIZE)).
  { repeat split; cbn; rewrite ?repeat_length; auto.
    apply Forall_forall; intros x Hx; apply repeat_spec in Hx; lia. }
  revert H0; generalize (fresh_state GRID_SIZE).
  induction key as [|ch rest IH]; intros st Hst Hkey; [exact Hst|].
  inversion Hkey as [|? ? Hch Hrest]; subst. cbn [set_all].
  pose proof (mirrorfield_set_wf ch st Hch Hst) as H1.
  destruct (mirrorfield_set GRID_SIZE ch st) as [ok st1]. cbn [snd] in H1.
  specialize (IH st1 H1 Hrest).
  destruct (set_all GRID_SIZE rest st1) as [oks st2]. exact IH.
Qed.

Lemma loaded_ready (key : list Z) :
  Forall (fun b => 0 <= b < 256) key ->
  mirrorfield_validate GRID_SIZE (snd (set_all GRID_SIZE key (fresh_state GRID_SIZE))) = 1 ->
  ready GRID_SIZE (snd (set_all GRID_SIZE key (fresh_state GRID_SIZE))).
Proof.
  intros Hkey Hv; split; [apply loaded_wf; exact Hkey|exact Hv].
Qed.

End Loading.

(** * mirrorfield_roll_chars *)

Section Rolling.

Variable GRID_SIZE : Z.
Hypothesis GRID_SIZE_ge2 : 2 <= GRID_SIZE.

Lemma aget_byte (p : list Z) (i : Z) :
  Forall (fun b => 0 <= b < 256) p -> 0 <= aget p i < 256.
Proof.
  intros H; unfold aget.
  destruct (Nat.lt_ge_cases (Z.to_nat i) (length p)) as [Hlt|Hge].
  - exact (proj1 (Forall_forall _ p) H _ (nth_In p 0 Hlt)).
  - rewrite nth_overflow by lia; lia.
Qed.

(** One move of a collision loop stays on the perimeter and is a shift by
    [GRID_SIZE/2], possibly wrapped once. *)
Lemma roll_move (x : Z) :
  0 <= x < 4 * GRID_SIZE ->
  let y := Z.rem (x + Z.quot GRID_SIZE 2) (GRID_SIZE * 4) in
  0 <= y < 4 * GRID_SIZE /\
  (y = x + Z.quot GRID_SIZE 2 \/ y = x + Z.quot GRID_SIZE 2 - 4 * GRID_SIZE) /\
  1 <= Z.quot GRID_SIZE 2 /\ 2 * Z.quot GRID_SIZE 2 <= GRID_SIZE.
Proof.
  intros Hx y; subst y.
  rewrite Z.quot_div_nonneg by lia.
  assert (Hh : 1 <= GRID_SIZE / 2 /\ 2 * (GRID_SIZE / 2) <= GRID_SIZE).
  { pose proof (Z.div_mod GRID_SIZE 2 ltac:(lia)).
    pose proof (Z.mod_pos_bound GRID_SIZE 2 ltac:(lia)). lia. }
  rewrite Z.rem_mod_nonneg by lia.
  replace (GRID_SIZE * 4) with (4 * GRID_SIZE) by lia.
  destruct (Z.lt_ge_cases (x + GRID_SIZE / 2) (4 * GRID_SIZE)) as [Hlt|Hge].
  - rewrite Z.mod_small by lia. lia.
  - replace (x + GRID_SIZE / 2)
      with ((x + GRID_SIZE / 2 - 4 * GRID_SIZE) + 1 * (4 * GRID_SIZE)) by lia.
    rewrite Z_mod_plus_full, Z.mod_small by lia. lia.
Qed.

Lemma roll_move_mod (x : Z) :
  0 <= x ->
  Z.rem (x + Z.quot GRID_SIZE 2) (GRID_SIZE * 4)
  = (x + GRID_SIZE / 2) mod (4 * GRID_SIZE).
Proof.
  intros Hx.
  rewrite Z.quot_div_nonneg by lia.
  assert (0 <= GRID_SIZE / 2) by (apply Z.div_pos; lia).
  rewrite Z.rem_mod_nonneg by lia.
  f_equal; lia.
Qed.

Lemma roll_avoid_range (fuel : nat) (pos a b c d x : Z) :
  0 <= pos < 4 * GRID_SIZE ->
  roll_avoid GRID_SIZE fuel pos a b c d = Some x ->
  0 <= x < 4 * GRID_SIZE /\ x <> a /\ x <> b /\ x <> c /\ x <> d.
Proof.
  revert pos; induction fuel as [|fuel IH]; intros pos Hpos H; [discriminate|].
  cbn [roll_avoid] in H.
  destruct ((pos =? a) || (pos =? b) || (pos =? c) || (pos =? d)) eqn:E.
  - apply IH in H; auto. apply (roll_move pos Hpos).
  - inversion H; subst x.
    rewrite !orb_false_iff, !Z.eqb_neq in E. tauto.
Qed.

Lemma roll_avoid_swap (fuel : nat) (pos a b c d : Z) :
  roll_avoid GRID_SIZE fuel pos a b c d = roll_avoid GRID_SIZE fuel pos a b d c.
Proof.
  revert pos; induction fuel as [|fuel IH]; intros pos; [reflexivity|].
  cbn [roll_avoid]. rewrite IH.
  replace ((pos =? a) || (pos =? b) || (pos =? d) || (pos =? c))
    with ((pos =? a) || (pos =? b) || (pos =? c) || (pos =? d)); auto.
  destruct (pos =? a), (pos =? b), (pos =? c), (pos =? d); reflexivity.
Qed.

Lemma roll_avoid_spec_avoid (fuel : nat) (pos a b c d : Z) :
  0 <= pos < 4 * GRID_SIZE ->
  roll_avoid GRID_SIZE fuel pos a b c d = spec_avoid GRID_SIZE fuel pos [a; b; c; d].
Proof.
  revert pos; induction fuel as [|fuel IH]; intros pos Hpos; [reflexivity|].
  cbn [roll_avoid spec_avoid existsb].
  rewrite <- roll_move_mod by lia.
  rewrite <- IH by (apply (roll_move pos Hpos)).
  rewrite orb_false_r, !orb_assoc. reflexivity.
Qed.

Lemma roll_avoid_step (fuel : nat) (pos a b c d : Z) :
  roll_avoid GRID_SIZE (S fuel) pos a b c d =
  if (pos =? a) || (pos =? b) || (pos =? c) || (pos =? d)
  then roll_avoid GRID_SIZE fuel
                  (Z.rem (pos + Z.quot GRID_SIZE 2) (GRID_SIZE * 4)) a b c d
  else Some pos.
Proof. reflexivity. Qed.

Lemma roll_hit (x a b c d : Z) :
  (x =? a) || (x =? b) || (x =? c) || (x =? d) = true -> In x [a; b; c; d].
Proof.
  rewrite !orb_true_iff, !Z.eqb_eq; simpl; intuition.
Qed.

(** Five turns of a collision loop meet five different positions, so one
    of them is none of the four the loop avoids. *)
Lemma roll_avoid_returns (fuel : nat) (pos a b c d : Z) :
  0 <= pos < 4 * GRID_SIZE -> (5 <= fuel)%nat ->
  exists x, roll_avoid GRID_SIZE fuel pos a b c d = Some x.
Proof.
  intros Hpos Hfuel.
  do 5 (destruct fuel as [|fuel]; [lia|]). clear Hfuel.
  pose proof (roll_move pos Hpos) as (H1 & E1 & Hh & Hh').
  rewrite roll_avoid_step.
  destruct (_ || _) eqn:X0 at 1; [|eauto].
  remember (Z.rem (pos + Z.quot GRID_SIZE 2) (GRID_SIZE * 4)) as x1 eqn:Ex1.
  pose proof (roll_move x1 H1) as (H2 & E2 & _).
  rewrite roll_avoid_step.
  destruct (_ || _) eqn:X1 at 1; [|eauto].
  remember (Z.rem (x1 + Z.quot GRID_SIZE 2) (GRID_SIZE * 4)) as x2 eqn:Ex2.
  pose proof (roll_move x2 H2) as (H3 & E3 & _).
  rewrite roll_avoid_step.
  destruct (_ || _) eqn:X2 at 1; [|eauto].
  remember (Z.rem (x2 + Z.quot GRID_SIZE 2) (GRID_SIZE * 4)) as x3 eqn:Ex3.
  pose proof (roll_move x3 H3) as (H4 & E4 & _).
  rewrite roll_avoid_step.
  destruct (_ || _) eqn:X3 at 1; [|eauto].
  remember (Z.rem (x3 + Z.quot GRID_SIZE 2) (GRID_SIZE * 4)) as x4 eqn:Ex4.
  rewrite roll_avoid_step.
  destruct (_ || _) eqn:X4 at 1; [|eauto].
  exfalso.
  apply roll_hit in X0, X1, X2, X3, X4.
  assert (Hnd : NoDup [pos; x1; x2; x3; x4]).
  { repeat constructor; simpl; lia. }
  assert (Hincl : incl [pos; x1; x2; x3; x4] [a; b; c; d]).
  { intros y Hy; simpl in Hy.
    destruct Hy as [<-|[<-|[<-|[<-|[<-|[]]]]]]; assumption. }
  pose proof (NoDup_incl_length Hnd Hincl) as Hlen; simpl in Hlen; lia.
Qed.

Lemma roll_start_range (p : list Z) (s : Z) :
  Forall (fun b => 0 <= b < 256) p -> 0 <= s ->
  let rs := if s =? 0
            then Z.rem (s + aget p s + aget p (s + 1)) (GRID_SIZE * 4)
            else Z.rem (s + aget p s + aget p (s - 1)) (GRID_SIZE * 4) in
  0 <= rs < 4 * GRID_SIZE /\
  rs = (s + aget p s + aget p (neigh s)) mod (4 * GRID_SIZE).
Proof.
  intros Hp Hs rs; subst rs; unfold neigh.
  pose proof (aget_byte p s Hp). pose proof (aget_byte p (s + 1) Hp).
  pose proof (aget_byte p (s - 1) Hp).
  replace (4 * GRID_SIZE) with (GRID_SIZE * 4) by lia.
  destruct (s =? 0); rewrite Z.rem_mod_nonneg by lia;
    (split; [apply Z.mod_pos_bound; lia | reflexivity]).
Qed.

(** What a call of [mirrorfield_roll_chars] returns, given the two rolled
    positions the collision loops settle on. *)
Lemma roll_chars_unfold (fuel : nat) (s e : Z) (st : state) :
  wf GRID_SIZE st -> 0 <= s < 4 * GRID_SIZE -> 0 <= e < 4 * GRID_SIZE ->
  (5 <= fuel)%nat ->
  let p := perimeterChars st in
  exists rs re,
    roll_avoid GRID_SIZE fuel ((s + aget p s + aget p (neigh s)) mod (4 * GRID_SIZE))
               s e (lastStartCharPos st) (lastEndCharPos st) = Some rs /\
    roll_avoid GRID_SIZE fuel ((e + aget p e + aget p (neigh e)) mod (4 * GRID_SIZE))
               e s (lastEndCharPos st) (lastStartCharPos st) = Some re /\
    0 <= rs < 4 * GRID_SIZE /\ 0 <= re < 4 * GRID_SIZE /\
    mirrorfield_roll_chars GRID_SIZE fuel s e st =
    Ret (mkState (grid st)
                 (if aget p s >? aget p e
                  then roll_one (roll_one p s rs) e re
                  else roll_one (roll_one p e re) s rs)
                 (set_i st) (evenodd st) s e).
Proof.
  intros (_ & Hlen & Hb) Hs He Hfuel p.
  unfold mirrorfield_roll_chars. fold p.
  destruct (roll_start_range p s Hb ltac:(lia)) as [Rs Es]. rewrite Es in *.
  destruct (roll_start_range p e Hb ltac:(lia)) as [Re Ee]. rewrite Ee in *.
  destruct (roll_avoid_returns fuel _ s e (lastStartCharPos st) (lastEndCharPos st)
              Rs Hfuel) as [rs Hrs].
  destruct (roll_avoid_returns fuel _ e s (lastEndCharPos st) (lastStartCharPos st)
              Re Hfuel) as [re Hre].
  exists rs, re. rewrite Hrs, Hre.
  repeat split; try apply (roll_avoid_range _ _ _ _ _ _ _ Rs Hrs);
    try apply (roll_avoid_range _ _ _ _ _ _ _ Re Hre).
Qed.

(** C6: the code's roll is the roll procedure of the specification: the
    two rolled positions with their neighbour terms, the two collision
    loops, the two swaps with the start swap first exactly when
    perim[s] > perim[e], and the two remembered positions. *)
Theorem roll_chars_is_spec_roll (fuel : nat) (s e : Z) (st : state) :
  wf GRID_SIZE st -> 0 <= s < 4 * GRID_SIZE -> 0 <= e < 4 * GRID_SIZE ->
  (5 <= fuel)%nat ->
  exists perim',
    spec_roll GRID_SIZE fuel s e (perimeterChars st)
              (lastStartCharPos st) (lastEndCharPos st) = Some (perim', s, e) /\
    mirrorfield_roll_chars GRID_SIZE fuel s e st =
    Ret (mkState (grid st) perim' (set_i st) (evenodd st) s e).
Proof.
  intros Hwf Hs He Hfuel.
  destruct (roll_chars_unfold fuel s e st Hwf Hs He Hfuel)
    as (rs & re & Hrs & Hre & Rrs & Rre & Hroll).
  destruct Hwf as (_ & Hlen & Hb).
  pose proof (aget_byte (perimeterChars st) s Hb).
  pose proof (aget_byte (perimeterChars st) (neigh s) Hb).
  pose proof (aget_byte (perimeterChars st) e Hb).
  pose proof (aget_byte (perimeterChars st) (neigh e) Hb).
  rewrite roll_avoid_spec_avoid in Hrs, Hre by (apply Z.mod_pos_bound; lia).
  unfold spec_roll. rewrite Hrs, Hre.
  eexists; split; [reflexivity|].
  rewrite Hroll. rewrite Z.gtb_ltb.
  destruct (aget (perimeterChars st) e <? aget (perimeterChars st) s).
  - rewrite <- (roll_one_swap_slots (perimeterChars st) s rs) by lia.
    rewrite <- roll_one_swap_slots by (rewrite roll_one_length; lia).
    reflexivity.
  - rewrite <- (roll_one_swap_slots (perimeterChars st) e re) by lia.
    rewrite <- roll_one_swap_slots by (rewrite roll_one_length; lia).
    reflexivity.
Qed.

Lemma roll_chars_Permutation (fuel : nat) (s e : Z) (st : state) :
  wf GRID_SIZE st -> 0 <= s < 4 * GRID_SIZE -> 0 <= e < 4 * GRID_SIZE ->
  (5 <= fuel)%nat ->
  exists perim',
    mirrorfield_roll_chars GRID_SIZE fuel s e st =
    Ret (mkState (grid st) perim' (set_i st) (evenodd st) s e) /\
    Permutation (perimeterChars st) perim'.
Proof.
  intros Hwf Hs He Hfuel.
  destruct (roll_chars_unfold fuel s e st Hwf Hs He Hfuel)
    as (rs & re & _ & _ & Rrs & Rre & Hroll).
  destruct Hwf as (_ & Hlen & _).
  eexists; split; [exact Hroll|].
  destruct (_ >? _).
  - eapply perm_trans; apply roll_one_Permutation;
      rewrite ?roll_one_length; lia.
  - eapply perm_trans; apply roll_one_Permutation;
      rewrite ?roll_one_length; lia.
Qed.

(** The roll does not depend on which end of the ray is called the start,
    nor on the order of the two remembered positions. *)
Lemma roll_chars_symmetric (fuel : nat) (s e : Z) (a b : state) :
  wf GRID_SIZE a -> wf GRID_SIZE b -> NoDup (perimeterChars a) ->
  0 <= s < 4 * GRID_SIZE -> 0 <= e < 4 * GRID_SIZE -> (5 <= fuel)%nat ->
  perimeterChars a = perimeterChars b ->
  ((lastStartCharPos a = lastStartCharPos b /\ lastEndCharPos a = lastEndCharPos b)
   \/ (lastStartCharPos a = lastEndCharPos b /\ lastEndCharPos a = lastStartCharPos b)) ->
  exists perim',
    Permutation (perimeterChars a) perim' /\
    mirrorfield_roll_chars GRID_SIZE fuel s e a =
    Ret (mkState (grid a) perim' (set_i a) (evenodd a) s e) /\
    mirrorfield_roll_chars GRID_SIZE fuel e s b =
    Ret (mkState (grid b) perim' (set_i b) (evenodd b) e s).
Proof.
  intros Hwf Hwfb Hnd Hs He Hfuel Hp Hlast.
  destruct (roll_chars_Permutation fuel s e a Hwf Hs He Hfuel)
    as (pa & Ha & Hperm).
  exists pa; split; [exact Hperm|]; split; [exact Ha|].
  destruct (roll_chars_unfold fuel s e a Hwf Hs He Hfuel)
    as (rs & re & Hrs & Hre & Rrs & Rre & Hroll).
  rewrite Ha in Hroll; inversion Hroll as [Hpa]; clear Hroll.
  destruct (roll_chars_unfold fuel e s b Hwfb He Hs Hfuel)
    as (rs' & re' & Hrs' & Hre' & _ & _ & Hroll).
  rewrite Hroll; clear Hroll.
  rewrite <- Hp in *.
  assert (rs' = re /\ re' = rs) as [-> ->].
  { destruct Hlast as [[H1 H2]|[H1 H2]]; rewrite <- H1, <- H2 in *.
    - rewrite roll_avoid_swap in Hrs', Hre'. split; congruence.
    - split; congruence. }
  do 2 f_equal.
  destruct Hwf as (_ & Hlen & _).
  set (p := perimeterChars a) in *.
  rewrite !Z.gtb_ltb.
  destruct (Z.ltb_spec (aget p e) (aget p s)), (Z.ltb_spec (aget p s) (aget p e));
    try reflexivity; try lia.
  assert (s = e) by (apply (NoDup_aget_inj p); auto; lia).
  subst e. rewrite roll_avoid_swap in Hre. congruence.
Qed.

(** With the same start and end, the order of the two remembered
    positions does not matter either. *)
Lemma roll_chars_same (fuel : nat) (s e : Z) (a b : state) :
  wf GRID_SIZE a -> wf GRID_SIZE b ->
  0 <= s < 4 * GRID_SIZE -> 0 <= e < 4 * GRID_SIZE -> (5 <= fuel)%nat ->
  perimeterChars a = perimeterChars b ->
  ((lastStartCharPos a = lastStartCharPos b /\ lastEndCharPos a = lastEndCharPos b)
   \/ (lastStartCharPos a = lastEndCharPos b /\ lastEndCharPos a = lastStartCharPos b)) ->
  exists perim',
    Permutation (perimeterChars a) perim' /\
    mirrorfield_roll_chars GRID_SIZE fuel s e a =
    Ret (mkState (grid a) perim' (set_i a) (evenodd a) s e) /\
    mirrorfield_roll_chars GRID_SIZE fuel s e b =
    Ret (mkState (grid b) perim' (set_i b) (evenodd b) s e).
Proof.
  intros Hwf Hwfb Hs He Hfuel Hp Hlast.
  destruct (roll_chars_Permutation fuel s e a Hwf Hs He Hfuel)
    as (pa & Ha & Hperm).
  exists pa; split; [exact Hperm|]; split; [exact Ha|].
  destruct (roll_chars_unfold fuel s e a Hwf Hs He Hfuel)
    as (rs & re & Hrs & Hre & Rrs & Rre & Hroll).
  rewrite Ha in Hroll; inversion Hroll as [Hpa]; clear Hroll.
  destruct (roll_chars_unfold fuel s e b Hwfb Hs He Hfuel)
    as (rs' & re' & Hrs' & Hre' & _ & _ & Hroll).
  rewrite Hroll; clear Hroll.
  rewrite <- Hp in *.
  assert (rs' = rs /\ re' = re) as [-> ->].
  { destruct Hlast as [[H1 H2]|[H1 H2]]; rewrite <- H1, <- H2 in *.
    - split; congruence.
    - rewrite roll_avoid_swap in Hrs', Hre'. split; congruence. }
  reflexivity.
Qed.

End Rolling.

(** * The ray in a fixed grid *)

Section Rays.

Variable GRID_SIZE : Z.
Hypothesis GRID_SIZE_pos : 0 < GRID_SIZE.
Variable g0 : list Z.

Lemma reflect_back (m : Z) (d : direction) :
  reflect m (opposite (reflect m d)) = opposite d.
Proof.
  unfold reflect.
  destruct (m =? MIRROR_FORWARD); [destruct d; reflexivity|].
  destruct (m =? MIRROR_BACKWARD); destruct d; reflexivity.
Qed.

Lemma opposite_inj (d1 d2 : direction) : opposite d1 = opposite d2 -> d1 = d2.
Proof. destruct d1, d2; simpl; congruence. Qed.

Lemma reflect_inj (m : Z) (d1 d2 : direction) :
  reflect m d1 = reflect m d2 -> d1 = d2.
Proof.
  unfold reflect.
  destruct (m =? MIRROR_FORWARD); [destruct d1, d2; simpl; congruence|].
  destruct (m =? MIRROR_BACKWARD); destruct d1, d2; simpl; congruence.
Qed.

Lemma ray_eq (r c r' c' : Z) (d d' : direction) :
  r = r' -> c = c' -> d = d' -> (r, c, d) = (r', c', d').
Proof. congruence. Qed.

Lemma entry_some (s : Z) :
  0 <= s < 4 * GRID_SIZE ->
  exists x, entry GRID_SIZE s = Some x /\ in_grid GRID_SIZE x.
Proof.
  intros Hs; unfold entry.
  destruct (Z.ltb_spec s GRID_SIZE);
    [eexists; split; [reflexivity|simpl; lia]|].
  destruct (Z.ltb_spec s (GRID_SIZE * 2));
    [eexists; split; [reflexivity|simpl; lia]|].
  destruct (Z.ltb_spec s (GRID_SIZE * 3));
    [eexists; split; [reflexivity|simpl; lia]|].
  destruct (Z.ltb_spec s (GRID_SIZE * 4));
    [eexists; split; [reflexivity|simpl; lia]|lia].
Qed.

Lemma entry_none (s : Z) : 4 * GRID_SIZE <= s -> entry GRID_SIZE s = None.
Proof.
  intros Hs; unfold entry.
  repeat match goal with
         | |- context [?a <? ?b] => destruct (Z.ltb_spec a b); try lia
         end.
  reflexivity.
Qed.

(** One step, by the direction the ray leaves the cell with. *)
Lemma ray_step_cases (r c : Z) (d : direction) :
  in_grid GRID_SIZE (r, c, d) ->
  ray_step GRID_SIZE g0 (r, c, d) =
  match reflect (aget g0 (r * GRID_SIZE + c)) d with
  | DIR_DOWN => if r + 1 =? GRID_SIZE then inr (c + GRID_SIZE * 3)
                else inl (r + 1, c, DIR_DOWN)
  | DIR_LEFT => if c - 1 =? -1 then inr (r + GRID_SIZE * 2)
                else inl (r, c - 1, DIR_LEFT)
  | DIR_RIGHT => if c + 1 =? GRID_SIZE then inr (r + GRID_SIZE)
                 else inl (r, c + 1, DIR_RIGHT)
  | DIR_UP => if r - 1 =? -1 then inr c else inl (r - 1, c, DIR_UP)
  end.
Proof.
  intros [Hr Hc]; unfold ray_step, advance.
  destruct (reflect _ d); cbn zeta.
  - destruct (r + 1 =? GRID_SIZE); [|reflexivity].
    destruct (Z.ltb_spec (c + GRID_SIZE * 3) 0); [lia|reflexivity].
  - destruct (c - 1 =? -1); [|reflexivity].
    destruct (Z.ltb_spec (r + GRID_SIZE * 2) 0); [lia|reflexivity].
  - destruct (c + 1 =? GRID_SIZE); [|reflexivity].
    destruct (Z.ltb_spec (r + GRID_SIZE) 0); [lia|reflexivity].
  - destruct (r - 1 =? -1); [|reflexivity].
    destruct (Z.ltb_spec c 0); [lia|reflexivity].
Qed.

Lemma cell_turn_back (x : ray) : cell GRID_SIZE (turn_back GRID_SIZE g0 x) = cell GRID_SIZE x.
Proof. destruct x as [[r c] d]; reflexivity. Qed.

Lemma in_grid_turn_back (x : ray) :
  in_grid GRID_SIZE x -> in_grid GRID_SIZE (turn_back GRID_SIZE g0 x).
Proof. destruct x as [[r c] d]; auto. Qed.

Lemma turn_back_inj (x y : ray) :
  turn_back GRID_SIZE g0 x = turn_back GRID_SIZE g0 y -> x = y.
Proof.
  destruct x as [[r c] d], y as [[r' c'] d']; unfold turn_back; intros H.
  inversion H; subst r' c'. f_equal.
  eapply reflect_inj, opposite_inj; eassumption.
Qed.

Lemma ray_step_in_grid (x y : ray) :
  in_grid GRID_SIZE x -> ray_step GRID_SIZE g0 x = inl y -> in_grid GRID_SIZE y.
Proof.
  destruct x as [[r c] d]; intros Hx; rewrite (ray_step_cases r c d Hx).
  destruct Hx as [Hr Hc].
  destruct (reflect _ d);
    match goal with
    | |- context [?a =? ?b] => destruct (Z.eqb_spec a b)
    end; intros H; inversion H; simpl; lia.
Qed.

(** Leaving the grid at [e] is entering it at [e] backwards. *)
Lemma ray_step_exit (x : ray) (e : Z) :
  in_grid GRID_SIZE x -> ray_step GRID_SIZE g0 x = inr e ->
  0 <= e < 4 * GRID_SIZE /\ entry GRID_SIZE e = Some (turn_back GRID_SIZE g0 x).
Proof.
  destruct x as [[r c] d]; intros Hx; rewrite (ray_step_cases r c d Hx).
  destruct Hx as [Hr Hc]. unfold turn_back, entry.
  destruct (reflect _ d);
    match goal with
    | |- context [?a =? ?b] => destruct (Z.eqb_spec a b)
    end; intros H; inversion H; subst e; (split; [lia|]);
    repeat match goal with
           | |- context [?a <? ?b] => destruct (Z.ltb_spec a b); try lia
           end; cbn [opposite]; apply f_equal, ray_eq; auto; lia.
Qed.

(** A step can be taken back. *)
Lemma ray_step_back (x y : ray) :
  in_grid GRID_SIZE x -> ray_step GRID_SIZE g0 x = inl y ->
  ray_step GRID_SIZE g0 (turn_back GRID_SIZE g0 y) = inl (turn_back GRID_SIZE g0 x).
Proof.
  intros Hx Hstep. pose proof (ray_step_in_grid x y Hx Hstep) as Hy.
  destruct x as [[r c] d], y as [[r' c'] d'].
  rewrite (ray_step_cases r c d Hx) in Hstep.
  unfold turn_back.
  rewrite ray_step_cases by exact Hy.
  rewrite reflect_back.
  destruct Hx as [Hr Hc], Hy as [Hr' Hc'].
  destruct (reflect (aget g0 (r * GRID_SIZE + c)) d);
    match type of Hstep with
    | context [?a =? ?b] => destruct (Z.eqb_spec a b)
    end; inversion Hstep; subst r' c' d'; cbn [opposite];
    match goal with
    | |- context [?a =? ?b] => destruct (Z.eqb_spec a b); try lia
    end; apply f_equal, ray_eq; auto; lia.
Qed.

(** Entering at [s] backwards is leaving at [s]. *)
Lemma ray_step_entry_back (s : Z) (x : ray) :
  0 <= s -> entry GRID_SIZE s = Some x ->
  ray_step GRID_SIZE g0 (turn_back GRID_SIZE g0 x) = inr s.
Proof.
  intros Hs He.
  assert (Hx : in_grid GRID_SIZE x).
  { destruct (Z.lt_ge_cases s (4 * GRID_SIZE)).
    - destruct (entry_some s ltac:(lia)) as (x' & E & G); congruence.
    - rewrite entry_none in He by lia; discriminate. }
  destruct x as [[r c] d]. unfold turn_back.
  rewrite ray_step_cases by exact Hx. rewrite reflect_back.
  unfold entry in He. destruct Hx as [Hr Hc].
  repeat match type of He with
         | context [?a <? ?b] => destruct (Z.ltb_spec a b)
         end; inversion He; subst r c d; cbn [opposite];
    match goal with
    | |- context [?a =? ?b] => destruct (Z.eqb_spec a b); try lia
    end; f_equal; lia.
Qed.

Lemma ray_step_inj (x y z : ray) :
  in_grid GRID_SIZE x -> in_grid GRID_SIZE y ->
  ray_step GRID_SIZE g0 x = inl z -> ray_step GRID_SIZE g0 y = inl z -> x = y.
Proof.
  intros Hx Hy Sx Sy.
  apply ray_step_back in Sx, Sy; auto.
  apply turn_back_inj; congruence.
Qed.

(** No step inside the grid leads to the ray that enters it. *)
Lemma ray_step_not_entry (s : Z) (x0 y : ray) :
  0 <= s -> entry GRID_SIZE s = Some x0 -> in_grid GRID_SIZE y ->
  ray_step GRID_SIZE g0 y <> inl x0.
Proof.
  intros Hs He Hy Sy.
  apply ray_step_back in Sy; auto.
  rewrite (ray_step_entry_back s x0 Hs He) in Sy; discriminate.
Qed.

End Rays.

(** * Paths of the ray: they end, and they can be run backwards *)

Section Paths.

Variable GRID_SIZE : Z.
Hypothesis GRID_SIZE_pos : 0 < GRID_SIZE.
Variable g0 : list Z.

Lemma ray_path_cell_in (x : ray) (ts : list Z) (e : Z) :
  ray_path GRID_SIZE g0 x ts e -> In (cell GRID_SIZE x) ts.
Proof. intros H; destruct H; simpl; auto. Qed.

Lemma ray_path_det (x : ray) (ts ts' : list Z) (e e' : Z) :
  ray_path GRID_SIZE g0 x ts e -> ray_path GRID_SIZE g0 x ts' e' ->
  ts = ts' /\ e = e'.
Proof.
  intros H; revert ts' e'.
  induction H as [x e Hx | x y ts e Hx Hp IH]; intros ts' e' H';
    inversion H' as [x' e'' Hx' | x' y' ts'' e'' Hx' Hp']; subst;
    rewrite Hx in Hx'; inversion Hx'; subst; auto.
  destruct (IH _ _ Hp'); subst; auto.
Qed.

Lemma in_grid_cell (x : ray) :
  in_grid GRID_SIZE x -> 0 <= cell GRID_SIZE x < GRID_SIZE * GRID_SIZE.
Proof.
  destruct x as [[r c] d]; simpl; intros [Hr Hc]. nia.
Qed.

Lemma ray_path_range (x : ray) (ts : list Z) (e : Z) :
  ray_path GRID_SIZE g0 x ts e -> in_grid GRID_SIZE x ->
  0 <= e < 4 * GRID_SIZE /\
  forall t, In t ts -> 0 <= t < GRID_SIZE * GRID_SIZE.
Proof.
  induction 1 as [x e Hx | x y ts e Hx Hp IH]; intros Hin.
  - split; [apply (ray_step_exit GRID_SIZE GRID_SIZE_pos g0 x e Hin Hx)|].
    intros t [<-|[]]; apply in_grid_cell; auto.
  - destruct (IH (ray_step_in_grid GRID_SIZE GRID_SIZE_pos g0 x y Hin Hx)) as [He Hts].
    split; auto. intros t [<-|Ht]; auto. apply in_grid_cell; auto.
Qed.

(** ** Every ray leaves the grid *)

Lemma ray_iter_last (k : nat) (x : ray) :
  ray_iter GRID_SIZE g0 (S k) x =
  match ray_iter GRID_SIZE g0 k x with
  | Some y => match ray_step GRID_SIZE g0 y with
              | inl z => Some z
              | inr _ => None
              end
  | None => None
  end.
Proof.
  revert x; induction k as [|k IH]; intros x.
  - simpl. destruct (ray_step GRID_SIZE g0 x); reflexivity.
  - change (ray_iter GRID_SIZE g0 (S (S k)) x)
      with (match ray_step GRID_SIZE g0 x with
            | inl y => ray_iter GRID_SIZE g0 (S k) y
            | inr _ => None
            end).
    cbn [ray_iter] in *.
    destruct (ray_step GRID_SIZE g0 x) as [y|e]; [apply IH|reflexivity].
Qed.

Lemma ray_iter_in_grid (k : nat) (x y : ray) :
  in_grid GRID_SIZE x -> ray_iter GRID_SIZE g0 k x = Some y -> in_grid GRID_SIZE y.
Proof.
  revert x; induction k as [|k IH]; intros x Hx H; simpl in H.
  - inversion H; subst; auto.
  - destruct (ray_step GRID_SIZE g0 x) as [z|e] eqn:E; [|discriminate].
    apply (IH z); auto. eapply ray_step_in_grid; eauto.
Qed.

Lemma ray_iter_earlier (k j : nat) (x y : ray) :
  ray_iter GRID_SIZE g0 k x = Some y -> (j <= k)%nat ->
  exists z, ray_iter GRID_SIZE g0 j x = Some z.
Proof.
  revert j y; induction k as [|k IH]; intros j y H Hj.
  - assert (j = O) by lia; subst; eauto.
  - destruct (Nat.eq_dec j (S k)) as [->|]; [eauto|].
    rewrite ray_iter_last in H.
    destruct (ray_iter GRID_SIZE g0 k x) as [w|] eqn:E; [|discriminate].
    apply (IH j w); auto; lia.
Qed.

(** Either the ray leaves within [k] cells or it is still inside after
    [k] steps. *)
Lemma ray_path_or_iter (k : nat) (x : ray) :
  (exists ts e, ray_path GRID_SIZE g0 x ts e /\ (length ts <= k)%nat)
  \/ (exists y, ray_iter GRID_SIZE g0 k x = Some y).
Proof.
  revert x; induction k as [|k IH]; intros x.
  - right; simpl; eauto.
  - destruct (ray_step GRID_SIZE g0 x) as [y|e] eqn:E.
    + destruct (IH y) as [(ts & e & Hp & Hl)|(z & Hz)].
      * left; exists (cell GRID_SIZE x :: ts), e; split.
        -- eapply ray_path_step; eauto.
        -- simpl; lia.
      * right; exists z; simpl; rewrite E; exact Hz.
    + left; exists [cell GRID_SIZE x], e; split.
      * apply ray_path_exit; auto.
      * simpl; lia.
Qed.

(** The rays met on the way from an entry are all different. *)
Lemma ray_iter_distinct (s : Z) (x0 : ray) (i j : nat) (a b : ray) :
  0 <= s -> entry GRID_SIZE s = Some x0 -> in_grid GRID_SIZE x0 ->
  (i < j)%nat ->
  ray_iter GRID_SIZE g0 i x0 = Some a -> ray_iter GRID_SIZE g0 j x0 = Some b ->
  a <> b.
Proof.
  intros Hs He Hx0; revert j a b.
  induction i as [|i IH]; intros j a b Hij Ha Hb Hab; subst b.
  - simpl in Ha; inversion Ha; subst a.
    destruct j as [|j]; [lia|]. rewrite ray_iter_last in Hb.
    destruct (ray_iter GRID_SIZE g0 j x0) as [w|] eqn:Ew; [|discriminate].
    destruct (ray_step GRID_SIZE g0 w) as [z|] eqn:Ez; [|discriminate].
    inversion Hb; subst z.
    apply (ray_step_not_entry GRID_SIZE GRID_SIZE_pos g0 s x0 w Hs He); auto.
    eapply ray_iter_in_grid; eauto.
  - destruct j as [|j]; [lia|]. rewrite ray_iter_last in Ha, Hb.
    destruct (ray_iter GRID_SIZE g0 i x0) as [u|] eqn:Eu; [|discriminate].
    destruct (ray_iter GRID_SIZE g0 j x0) as [w|] eqn:Ew; [|discriminate].
    destruct (ray_step GRID_SIZE g0 u) as [z|] eqn:Ezu; [|discriminate].
    destruct (ray_step GRID_SIZE g0 w) as [z'|] eqn:Ezw; [|discriminate].
    inversion Ha; inversion Hb; subst z z'.
    apply (IH j u w); auto; try lia.
    apply (ray_step_inj GRID_SIZE GRID_SIZE_pos g0 u w a); auto;
      eapply ray_iter_in_grid; eauto.
Qed.

Lemma in_all_rays (x : ray) : in_grid GRID_SIZE x -> In x (all_rays GRID_SIZE).
Proof.
  destruct x as [[r c] d]; intros [Hr Hc]; unfold all_rays.
  apply in_prod; [apply in_prod; apply In_range; lia|].
  destruct d; simpl; auto.
Qed.

Lemma length_all_rays :
  length (all_rays GRID_SIZE) = Z.to_nat (4 * GRID_SIZE * GRID_SIZE).
Proof.
  unfold all_rays, ray; rewrite !length_prod, !length_range; simpl length.
  rewrite Z.sub_0_r. lia.
Qed.

Lemma ray_iter_bounded (s : Z) (x0 y : ray) (k : nat) :
  0 <= s -> entry GRID_SIZE s = Some x0 -> in_grid GRID_SIZE x0 ->
  ray_iter GRID_SIZE g0 k x0 = Some y -> (k < length (all_rays GRID_SIZE))%nat.
Proof.
  intros Hs He Hx0 Hk.
  set (f := fun i => match ray_iter GRID_SIZE g0 i x0 with
                     | Some a => a
                     | None => x0
                     end).
  assert (Hnd : NoDup (map f (seq 0 (S k)))).
  { apply NoDup_map_NoDup_ForallPairs; [|apply seq_NoDup].
    intros i j Hi Hj Hf. apply in_seq in Hi, Hj. unfold f in Hf.
    destruct (ray_iter_earlier k i x0 y Hk ltac:(lia)) as [a Ea].
    destruct (ray_iter_earlier k j x0 y Hk ltac:(lia)) as [b Eb].
    rewrite Ea, Eb in Hf. subst b.
    destruct (Nat.lt_total i j) as [H|[H|H]]; auto; exfalso.
    - exact (ray_iter_distinct s x0 i j a a Hs He Hx0 H Ea Eb eq_refl).
    - exact (ray_iter_distinct s x0 j i a a Hs He Hx0 H Eb Ea eq_refl). }
  assert (Hincl : incl (map f (seq 0 (S k))) (all_rays GRID_SIZE)).
  { intros a Ha. apply in_map_iff in Ha. destruct Ha as (i & <- & Hi).
    apply in_seq in Hi. unfold f.
    destruct (ray_iter_earlier k i x0 y Hk ltac:(lia)) as [a Ea].
    rewrite Ea. apply in_all_rays. eapply ray_iter_in_grid; eauto. }
  pose proof (NoDup_incl_length Hnd Hincl) as Hlen.
  rewrite length_map, length_seq in Hlen. lia.
Qed.

(** The traversal from an entry slot leaves the grid after crossing at
    most [4 * GRID_SIZE * GRID_SIZE] cells. *)
Lemma ray_path_exists (s : Z) (x0 : ray) :
  0 <= s -> entry GRID_SIZE s = Some x0 -> in_grid GRID_SIZE x0 ->
  exists ts e, ray_path GRID_SIZE g0 x0 ts e /\
               (length ts <= Z.to_nat (4 * GRID_SIZE * GRID_SIZE))%nat.
Proof.
  intros Hs He Hx0.
  destruct (ray_path_or_iter (length (all_rays GRID_SIZE)) x0)
    as [(ts & e & Hp & Hl)|(y & Hy)].
  - exists ts, e; rewrite <- length_all_rays; auto.
  - pose proof (ray_iter_bounded s x0 y _ Hs He Hx0 Hy); lia.
Qed.

(** ** The path backwards *)

Lemma ray_path_reverse_from (x : ray) (ts : list Z) (e : Z) :
  ray_path GRID_SIZE g0 x ts e -> in_grid GRID_SIZE x ->
  forall tl s,
    ray_path GRID_SIZE g0 (turn_back GRID_SIZE g0 x) tl s ->
    exists x' ts',
      entry GRID_SIZE e = Some x' /\ ray_path GRID_SIZE g0 x' ts' s /\
      forall t, In t ts' <-> In t ts \/ In t tl.
Proof.
  induction 1 as [x e Hx | x y ts e Hx Hp IH]; intros Hin tl s Hback.
  - destruct (ray_step_exit GRID_SIZE GRID_SIZE_pos g0 x e Hin Hx) as [_ He].
    exists (turn_back GRID_SIZE g0 x), tl; repeat split; auto.
    + intros [[<-|[]]|H]; auto.
      apply ray_path_cell_in in Hback. rewrite cell_turn_back in Hback; auto.
  - pose proof (ray_step_in_grid GRID_SIZE GRID_SIZE_pos g0 x y Hin Hx) as Hy.
    pose proof (ray_step_back GRID_SIZE GRID_SIZE_pos g0 x y Hin Hx) as Hb.
    destruct (IH Hy (cell GRID_SIZE (turn_back GRID_SIZE g0 y) :: tl) s)
      as (x' & ts' & He & Hp' & Hts).
    { eapply ray_path_step; eauto. }
    exists x', ts'; repeat split; auto.
    + intros Ht; apply Hts in Ht. rewrite cell_turn_back in Ht.
      simpl in *. destruct Ht as [Ht|[<-|Ht]]; auto.
      left; right; eapply ray_path_cell_in; eauto.
    + intros Ht; apply Hts. rewrite cell_turn_back.
      apply ray_path_cell_in in Hback. rewrite cell_turn_back in Hback.
      simpl in *. destruct Ht as [[<-|Ht]|Ht]; auto.
Qed.

(** The ray that enters where another left crosses the same cells and
    leaves where the other entered. *)
Lemma ray_path_reverse (s e : Z) (x0 : ray) (ts : list Z) :
  0 <= s -> entry GRID_SIZE s = Some x0 -> in_grid GRID_SIZE x0 ->
  ray_path GRID_SIZE g0 x0 ts e ->
  exists x' ts',
    entry GRID_SIZE e = Some x' /\ ray_path GRID_SIZE g0 x' ts' s /\
    forall t, In t ts' <-> In t ts.
Proof.
  intros Hs He Hx0 Hp.
  destruct (ray_path_reverse_from x0 ts e Hp Hx0
              [cell GRID_SIZE (turn_back GRID_SIZE g0 x0)] s)
    as (x' & ts' & He' & Hp' & Hts).
  { apply ray_path_exit. eapply ray_step_entry_back; eauto. }
  exists x', ts'; repeat split; auto.
  - intros Ht; apply Hts in Ht. rewrite cell_turn_back in Ht.
    destruct Ht as [Ht|[<-|[]]]; auto. eapply ray_path_cell_in; eauto.
  - intros Ht; apply Hts; auto.
Qed.

End Paths.

(** * The traversal loop follows the path of the ray *)

Section Traversal.

Variable GRID_SIZE : Z.
Hypothesis GRID_SIZE_pos : 0 < GRID_SIZE.
Variable g0 : list Z.
Hypothesis g0_ok : grid_ok GRID_SIZE g0.
Hypothesis g0_length : length g0 = Z.to_nat (GRID_SIZE * GRID_SIZE).

Lemma spin_unspin (v : Z) :
  0 <= v <= 3 -> v <> MIRROR_NONE ->
  Z.rem (Z.rem (v + 1) 3 + 2) 3 = v /\ Z.rem (v + 1) 3 <> MIRROR_NONE /\
  0 <= Z.rem (v + 1) 3 <= 3.
Proof.
  unfold MIRROR_NONE; intros H1 H2.
  assert (v = 0 \/ v = 1 \/ v = 2) as [-> | [-> | ->]] by lia; cbn; lia.
Qed.

Lemma spun_init :
  spun g0 [] g0 (repeat 0 (Z.to_nat (GRID_SIZE * GRID_SIZE))).
Proof.
  repeat split; [rewrite repeat_length; auto|].
  intros t Ht; right; repeat split; [intros [[] _]|].
  apply aget_repeat; lia.
Qed.

Lemma spun_unique (V V' g g' vis vis' : list Z) :
  spun g0 V g vis -> spun g0 V' g' vis' ->
  (forall t, In t V <-> In t V') -> g = g'.
Proof.
  intros (L1 & _ & H1) (L2 & _ & H2) HV.
  apply aget_ext; [congruence|].
  rewrite L1; intros t Ht.
  destruct (H1 t Ht) as [(A & B & _ & C)|(A & _ & C)];
    destruct (H2 t Ht) as [(A' & B' & _ & C')|(A' & _ & C')];
    try congruence.
  - exfalso; apply A'; split; auto; apply HV; auto.
  - exfalso; apply A; split; auto; apply HV; auto.
Qed.

Lemma spun_same_cells (V V' g vis : list Z) :
  (forall t, In t V <-> In t V') -> spun g0 V g vis -> spun g0 V' g vis.
Proof.
  intros HV (L1 & L2 & H); repeat split; auto.
  intros t Ht; destruct (H t Ht) as [(A & B)|(A & B)]; [left|right];
    split; auto.
  - apply HV; auto.
  - intros [A1 A2]; apply A; split; auto; apply HV; auto.
Qed.

(** The un-spin of the loop meets mirrors only: a marked cell never
    holds the code of an empty cell. *)
Lemma spun_marked_is_mirror (V g vis : list Z) (t : Z) :
  spun g0 V g vis -> 0 <= t < GRID_SIZE * GRID_SIZE ->
  aget vis t <> 0 -> aget g t <> MIRROR_NONE.
Proof.
  intros (_ & _ & H) Ht Hm.
  destruct (H t ltac:(lia)) as [(_ & B & _ & C)|(_ & C & _)]; [|congruence].
  rewrite C. apply spin_unspin; auto.
Qed.

Lemma spun_result (V g vis : list Z) :
  spun g0 V g vis ->
  length g = length g0 /\ grid_ok GRID_SIZE g /\
  forall t, 0 <= t < GRID_SIZE * GRID_SIZE ->
            aget g0 t = MIRROR_NONE -> aget g t = MIRROR_NONE.
Proof.
  intros (L & _ & H); split; auto; split.
  - intros t Ht. specialize (g0_ok t Ht).
    destruct (H t ltac:(lia)) as [(_ & B & _ & C)|(_ & _ & C)]; rewrite C; auto.
    apply spin_unspin; auto.
  - intros t Ht E.
    destruct (H t ltac:(lia)) as [(_ & B & _ & C)|(_ & _ & C)]; congruence.
Qed.

Lemma spun_no_mirror (V g vis : list Z) :
  (forall t, 0 <= t < GRID_SIZE * GRID_SIZE -> aget g0 t = MIRROR_NONE) ->
  spun g0 V g vis -> g = g0.
Proof.
  intros Hempty (L & _ & H). apply aget_ext; auto.
  rewrite L; intros t Ht.
  destruct (H t Ht) as [(_ & B & _ & C)|(_ & _ & C)]; auto.
  exfalso; apply B, Hempty; lia.
Qed.

(** One turn of the loop at the cell [t]: the ray turns as the grid of
    the start of the call tells, and [t] joins the cells crossed. *)
Lemma visit_spun (t : Z) (d : direction) (V g vis : list Z) :
  0 <= t < GRID_SIZE * GRID_SIZE -> spun g0 V g vis ->
  exists g2 vis2,
    visit t d g vis = (reflect (aget g0 t) d, g2, vis2) /\
    spun g0 (t :: V) g2 vis2.
Proof.
  intros Ht (Lg & Lv & H). unfold visit.
  pose proof (g0_ok t Ht) as Hv.
  assert (Ht' : 0 <= t < Z.of_nat (length g0)) by lia.
  set (g1 := if negb (aget vis t =? 0)
             then aset g t (Z.rem (aget g t + 2) 3) else g).
  assert (Hg1 : length g1 = length g0 /\ aget g1 t = aget g0 t /\
                forall u, 0 <= u -> u <> t -> aget g1 u = aget g u).
  { subst g1. destruct (H t Ht') as [(_ & B & C & D)|(_ & C & D)]; rewrite C;
      [change (1 =? 0) with false | change (0 =? 0) with true]; cbn [negb].
    - rewrite length_aset, aget_aset_same by lia. rewrite D.
      repeat split; auto; [apply spin_unspin; auto|].
      intros u Hu Hne; apply aget_aset_other; auto.
    - auto. }
  destruct Hg1 as (Lg1 & Eg1 & Og1). rewrite Eg1.
  destruct (Z.eqb_spec (aget g0 t) MIRROR_NONE) as [E3|N3]; cbn [negb].
  - exists g1, vis; split; auto. repeat split; auto.
    intros u Hu. destruct (Z.eq_dec u t) as [->|Hne].
    + right. destruct (H t Ht') as [(_ & B & _)|(_ & C & D)]; [tauto|].
      repeat split; auto. tauto.
    + rewrite Og1 by lia.
      destruct (H u Hu) as [(A & B & C & D)|(A & C & D)]; [left|right];
        repeat split; simpl; auto.
      intros [[Heq|Hin] Hm]; auto.
  - eexists _, _; split; [reflexivity|].
    split; [rewrite length_aset; auto|]. split; [rewrite length_aset; auto|].
    intros u Hu. destruct (Z.eq_dec u t) as [->|Hne].
    + left. rewrite !aget_aset_same by lia. simpl; auto.
    + rewrite !aget_aset_other by lia. rewrite Og1 by lia.
      destruct (H u Hu) as [(A & B & C & D)|(A & C & D)]; [left|right];
        repeat split; simpl; auto.
      intros [[Heq|Hin] Hm]; auto.
Qed.

Lemma traverse_done (fuel : nat) (r c e : Z) (d : direction) (g vis : list Z) :
  0 <= e -> traverse GRID_SIZE (S fuel) r c d e g vis = Some (e, g).
Proof.
  intros He; cbn [traverse].
  destruct (Z.ltb_spec e 0); [lia|reflexivity].
Qed.

Lemma advance_inside (r c r' c' e' : Z) (d : direction) :
  0 <= r -> 0 <= c ->
  advance GRID_SIZE r c d (-1) = (r', c', e') -> (e' <? 0) = true -> e' = -1.
Proof.
  intros Hr Hc; unfold advance.
  destruct d;
    match goal with
    | |- context [?a =? ?b] => destruct (Z.eqb_spec a b)
    end; intros H; inversion H; subst; auto; intros Hneg;
    apply Z.ltb_lt in Hneg; lia.
Qed.

(** The loop of [mirrorfield_crypt_char] run along a path: it returns the
    end position of the path and the grid with the mirrors of the path
    spun once. *)
Lemma traverse_path (x : ray) (ts : list Z) (e : Z) :
  ray_path GRID_SIZE g0 x ts e ->
  forall fuel V g vis,
    in_grid GRID_SIZE x -> spun g0 V g vis -> (length ts < fuel)%nat ->
    exists g' vis',
      traverse GRID_SIZE fuel (fst (fst x)) (snd (fst x)) (snd x) (-1) g vis
      = Some (e, g') /\
      spun g0 (rev ts ++ V) g' vis'.
Proof.
  induction 1 as [x e Hx | x y ts e Hx Hp IH]; intros fuel V g vis Hin Hs Hf.
  - destruct fuel as [|[|fuel]]; simpl in Hf; try lia.
    pose proof (ray_step_exit GRID_SIZE GRID_SIZE_pos g0 x e Hin Hx) as [He _].
    destruct x as [[r c] d]; cbn [fst snd].
    destruct (visit_spun (r * GRID_SIZE + c) d V g vis) as (g2 & vis2 & Ev & Hs2);
      auto.
    { apply (in_grid_cell GRID_SIZE GRID_SIZE_pos (r, c, d) Hin). }
    exists g2, vis2; split; [|exact Hs2].
    unfold ray_step in Hx.
    remember (S fuel) as f1.
    cbn [traverse]. cbn [Z.ltb Z.compare]. rewrite Ev.
    destruct (advance GRID_SIZE r c _ (-1)) as [[r' c'] e'].
    destruct (e' <? 0); inversion Hx; subst e' f1.
    apply traverse_done; lia.
  - destruct fuel as [|fuel]; simpl in Hf; try lia.
    pose proof (ray_step_in_grid GRID_SIZE GRID_SIZE_pos g0 x y Hin Hx) as Hy.
    destruct x as [[r c] d]; cbn [fst snd].
    destruct (visit_spun (r * GRID_SIZE + c) d V g vis) as (g2 & vis2 & Ev & Hs2);
      auto.
    { apply (in_grid_cell GRID_SIZE GRID_SIZE_pos (r, c, d) Hin). }
    destruct (IH fuel (r * GRID_SIZE + c :: V) g2 vis2 Hy Hs2 ltac:(lia))
      as (g' & vis' & Ht & Hs').
    exists g', vis'; split.
    + unfold ray_step in Hx.
      cbn [traverse]. cbn [Z.ltb Z.compare]. rewrite Ev.
      destruct (advance GRID_SIZE r c _ (-1)) as [[r' c'] e'] eqn:Ea.
      destruct (e' <? 0) eqn:En; inversion Hx; subst y.
      rewrite (advance_inside r c r' c' e' _ (proj1 (proj1 Hin)) (proj1 (proj2 Hin)) Ea En).
      exact Ht.
    + cbn [rev cell]. rewrite <- app_assoc. exact Hs'.
Qed.

End Traversal.

(** * One call of mirrorfield_crypt_char *)

Section Crypt.

Variable GRID_SIZE : Z.
Hypothesis GRID_SIZE_ge2 : 2 <= GRID_SIZE.

Lemma scan_perimeter_spec (n : nat) (pos : Z) (p : list Z) (ch : Z) :
  let k := scan_perimeter n pos p ch in
  pos <= k <= pos + Z.of_nat n /\
  (k < pos + Z.of_nat n -> aget p k = ch) /\
  (forall j, pos <= j < k -> aget p j <> ch).
Proof.
  revert pos; induction n as [|n IH]; intros pos; cbn [scan_perimeter].
  - cbn zeta; split; [lia|split; intros; lia].
  - destruct (Z.eqb_spec (aget p pos) ch) as [E|E]; cbn zeta.
    + split; [lia|split; [auto|intros; lia]].
    + destruct (IH (pos + 1)) as (A & B & C). cbn zeta in *.
      split; [lia|split].
      * intros H; apply B; lia.
      * intros j Hj. destruct (Z.eq_dec j pos) as [->|]; auto. apply C; lia.
Qed.

(** The scan finds a byte that is on the perimeter. *)
Lemma scan_perimeter_found (p : list Z) (ch : Z) :
  length p = Z.to_nat (GRID_SIZE * 4) -> In ch p ->
  let s := scan_perimeter (Z.to_nat (GRID_SIZE * 4)) 0 p ch in
  0 <= s < 4 * GRID_SIZE /\ aget p s = ch.
Proof.
  intros Hl Hin s.
  destruct (scan_perimeter_spec (Z.to_nat (GRID_SIZE * 4)) 0 p ch) as (A & B & C).
  fold s in A, B, C.
  destruct (In_aget p ch Hin) as (i & Hi & Ei).
  assert (s <= i).
  { destruct (Z.le_gt_cases s i); auto. exfalso; apply (C i); auto; lia. }
  split; [lia|apply B; lia].
Qed.

(** The scan runs to its end on a byte that is not on the perimeter. *)
Lemma scan_perimeter_missing (p : list Z) (ch : Z) :
  length p = Z.to_nat (GRID_SIZE * 4) -> ~ In ch p ->
  scan_perimeter (Z.to_nat (GRID_SIZE * 4)) 0 p ch = GRID_SIZE * 4.
Proof.
  intros Hl Hin.
  destruct (scan_perimeter_spec (Z.to_nat (GRID_SIZE * 4)) 0 p ch) as (A & B & C).
  set (s := scan_perimeter (Z.to_nat (GRID_SIZE * 4)) 0 p ch) in *.
  destruct (Z.lt_ge_cases s (GRID_SIZE * 4)); [|lia].
  exfalso; apply Hin. rewrite <- B by lia. apply aget_In; lia.
Qed.

(** C4: what the code does on a byte that is on no perimeter slot. The
    call has already toggled [evenodd] when the scan ends at
    [GRID_SIZE * 4]; no entry branch is taken, and the traversal loop
    starts from the uninitialised [r] and [c]: the call signals no error,
    and the state it reaches differs from the one it was given. *)
Theorem crypt_char_unknown_byte (fuel : nat) (ch : Z) (st : state) :
  length (perimeterChars st) = Z.to_nat (GRID_SIZE * 4) ->
  ~ In ch (perimeterChars st) ->
  mirrorfield_crypt_char GRID_SIZE fuel ch st
  = Undefined (with_evenodd st (Z.rem (evenodd st + 1) 2)).
Proof.
  intros Hl Hin. unfold mirrorfield_crypt_char.
  cbn [perimeterChars with_evenodd].
  rewrite scan_perimeter_missing by auto.
  rewrite entry_none by lia. reflexivity.
Qed.

(** A call on a byte of the perimeter, up to the roll: the slot [s] of the
    byte, the path of the ray from [s] to the slot [e], and the grid [g']
    with the mirrors of the path spun once. *)
Lemma crypt_char_trace (ch : Z) (st : state) :
  ready GRID_SIZE st -> In ch (perimeterChars st) ->
  exists s x0 ts e g' vis',
    0 <= s < 4 * GRID_SIZE /\ aget (perimeterChars st) s = ch /\
    entry GRID_SIZE s = Some x0 /\ in_grid GRID_SIZE x0 /\
    ray_path GRID_SIZE (grid st) x0 ts e /\ 0 <= e < 4 * GRID_SIZE /\
    spun (grid st) ts g' vis' /\
    forall fuel, (fuel_bound GRID_SIZE <= fuel)%nat ->
      mirrorfield_crypt_char GRID_SIZE fuel ch st =
      match mirrorfield_roll_chars GRID_SIZE fuel s e
              (mkState g' (perimeterChars st) (set_i st)
                       (Z.rem (evenodd st + 1) 2)
                       (lastStartCharPos st) (lastEndCharPos st)) with
      | Ret st' =>
          Ret (emitted (perimeterChars st) (Z.rem (evenodd st + 1) 2) s e, st')
      | Undefined st' => Undefined st'
      | OutOfFuel => OutOfFuel
      end.
Proof.
  intros Hready Hin.
  assert (Hpos : 0 < GRID_SIZE) by lia.
  pose proof (ready_grid_ok GRID_SIZE st Hready) as Hok.
  destruct Hready as [(Lg & Lp & Hb) _].
  destruct (scan_perimeter_found (perimeterChars st) ch Lp Hin) as [Hs Es].
  set (s := scan_perimeter (Z.to_nat (GRID_SIZE * 4)) 0 (perimeterChars st) ch) in *.
  destruct (entry_some GRID_SIZE Hpos s Hs) as (x0 & Ex0 & Gx0).
  destruct (ray_path_exists GRID_SIZE Hpos (grid st) s x0 ltac:(lia) Ex0 Gx0)
    as (ts & e & Hp & Hlen).
  destruct (ray_path_range GRID_SIZE Hpos (grid st) x0 ts e Hp Gx0) as [He _].
  assert (Hfb : (length ts < fuel_bound GRID_SIZE)%nat) by (unfold fuel_bound; lia).
  destruct (traverse_path GRID_SIZE Hpos (grid st) Hok Lg x0 ts e Hp
              (fuel_bound GRID_SIZE) [] (grid st)
              (repeat 0 (Z.to_nat (GRID_SIZE * GRID_SIZE))) Gx0
              (spun_init GRID_SIZE Hpos (grid st) Lg) Hfb)
    as (g' & vis' & Ht & Hs').
  rewrite app_nil_r in Hs'.
  apply (spun_same_cells (grid st) (rev ts) ts) in Hs';
    [|intros t; symmetry; apply in_rev].
  exists s, x0, ts, e, g', vis'.
  do 7 (split; [solve [auto | lia]|]).
  intros fuel Hfuel.
  assert (Hf : (length ts < fuel)%nat) by (unfold fuel_bound in Hfuel; lia).
  destruct (traverse_path GRID_SIZE Hpos (grid st) Hok Lg x0 ts e Hp
              fuel [] (grid st)
              (repeat 0 (Z.to_nat (GRID_SIZE * GRID_SIZE))) Gx0
              (spun_init GRID_SIZE Hpos (grid st) Lg) Hf)
    as (g'' & vis'' & Ht' & Hs'').
  rewrite app_nil_r in Hs''.
  assert (g'' = g').
  { apply (spun_unique (grid st) (rev ts) ts g'' g' vis'' vis'); auto.
    intros t; symmetry; apply in_rev. }
  subst g''.
  unfold mirrorfield_crypt_char.
  cbn [perimeterChars with_evenodd grid]. fold s. rewrite Ex0.
  destruct x0 as [[r c] d]. cbn [fst snd] in Ht'. rewrite Ht'.
  reflexivity.
Qed.

End Crypt.

(** * What a call keeps, and the call that undoes it *)

Section Calls.

Variable GRID_SIZE : Z.
Hypothesis GRID_SIZE_ge2 : 2 <= GRID_SIZE.

Lemma fuel_bound_roll (fuel : nat) :
  (fuel_bound GRID_SIZE <= fuel)%nat -> (5 <= fuel)%nat.
Proof.
  unfold fuel_bound; intros H.
  assert (16 <= 4 * GRID_SIZE * GRID_SIZE) by nia. lia.
Qed.

Lemma wf_after (st : state) (g' perim' : list Z) (i ev ls le : Z) :
  wf GRID_SIZE st -> length g' = length (grid st) ->
  Permutation (perimeterChars st) perim' ->
  wf GRID_SIZE (mkState g' perim' i ev ls le).
Proof.
  intros (Lg & Lp & Hb) Hg Hp; repeat split; cbn.
  - congruence.
  - rewrite <- (Permutation_length Hp); auto.
  - apply (Permutation_Forall Hp); auto.
Qed.

(** One call on a byte of the perimeter returns, and this is what it
    leaves behind. *)
Lemma crypt_char_step (fuel : nat) (ch : Z) (st : state) :
  ready GRID_SIZE st -> In ch (perimeterChars st) ->
  (fuel_bound GRID_SIZE <= fuel)%nat ->
  exists s e x0 ts g' vis' perim',
    0 <= s < 4 * GRID_SIZE /\ aget (perimeterChars st) s = ch /\
    0 <= e < 4 * GRID_SIZE /\
    entry GRID_SIZE s = Some x0 /\ ray_path GRID_SIZE (grid st) x0 ts e /\
    spun (grid st) ts g' vis' /\
    Permutation (perimeterChars st) perim' /\
    ready GRID_SIZE (mkState g' perim' (set_i st) (Z.rem (evenodd st + 1) 2) s e) /\
    mirrorfield_crypt_char GRID_SIZE fuel ch st =
    Ret (emitted (perimeterChars st) (Z.rem (evenodd st + 1) 2) s e,
         mkState g' perim' (set_i st) (Z.rem (evenodd st + 1) 2) s e).
Proof.
  intros Hready Hin Hfuel.
  assert (Hpos : 0 < GRID_SIZE) by lia.
  destruct (crypt_char_trace GRID_SIZE GRID_SIZE_ge2 ch st Hready Hin)
    as (s & x0 & ts & e & g' & vis' & Hs & Es & Ex0 & Gx0 & Hp & He & Hspun & Hrun).
  pose proof (ready_grid_ok GRID_SIZE st Hready) as Hok.
  pose proof (ready_NoDup GRID_SIZE Hpos st Hready) as Hnd.
  destruct Hready as [Hwf _]. pose proof Hwf as (Lg & Lp & Hb).
  destruct (spun_result GRID_SIZE Hpos (grid st) Hok Lg ts g' vis' Hspun)
    as (Lg' & Hok' & _).
  set (mid := mkState g' (perimeterChars st) (set_i st)
                      (Z.rem (evenodd st + 1) 2)
                      (lastStartCharPos st) (lastEndCharPos st)) in *.
  assert (Hwfm : wf GRID_SIZE mid) by (apply (wf_after st); auto).
  destruct (roll_chars_Permutation GRID_SIZE GRID_SIZE_ge2 fuel s e mid Hwfm Hs He
              (fuel_bound_roll fuel Hfuel)) as (perim' & Hroll & Hperm).
  cbn [mid grid perimeterChars set_i evenodd] in Hroll, Hperm.
  exists s, e, x0, ts, g', vis', perim'.
  do 7 (split; [solve [auto | lia]|]).
  split.
  - apply ready_intro; cbn [grid perimeterChars]; auto.
    + apply (wf_after st); auto.
    + apply (Permutation_NoDup Hperm Hnd).
  - rewrite (Hrun fuel Hfuel), Hroll. reflexivity.
Qed.

Lemma in_sync_ready (a b : state) :
  ready GRID_SIZE a -> in_sync a b -> ready GRID_SIZE b.
Proof.
  intros [(Lg & Lp & Hb) Hv] (Eg & Ep & _).
  split.
  - repeat split; congruence.
  - unfold mirrorfield_validate in *. rewrite <- Eg, <- Ep. exact Hv.
Qed.

Lemma emitted_cases (p : list Z) (ev s e : Z) :
  (emitted p ev s e = aget p s /\ emitted p ev e s = aget p e)
  \/ (emitted p ev s e = aget p e /\ emitted p ev e s = aget p s).
Proof.
  unfold emitted. rewrite (orb_comm (aget p e =? e)).
  destruct ((aget p s =? s) || (aget p e =? e)); auto.
  destruct (negb (ev =? 0)); auto.
Qed.

(** The call that undoes a call: a second engine in step with the first,
    given the byte the first returned, returns the byte the first was
    given, and the two engines are in step again. *)
Lemma crypt_char_round_trip (fuel : nat) (ch : Z) (a b : state) :
  ready GRID_SIZE a -> in_sync a b -> In ch (perimeterChars a) ->
  (fuel_bound GRID_SIZE <= fuel)%nat ->
  exists ech a' b',
    mirrorfield_crypt_char GRID_SIZE fuel ch a = Ret (ech, a') /\
    mirrorfield_crypt_char GRID_SIZE fuel ech b = Ret (ch, b') /\
    ready GRID_SIZE a' /\ in_sync a' b' /\
    Permutation (perimeterChars a) (perimeterChars a').
Proof.
  intros Hra Hsync Hin Hfuel.
  assert (Hpos : 0 < GRID_SIZE) by lia.
  pose proof (in_sync_ready a b Hra Hsync) as Hrb.
  destruct Hsync as (Eg & Ep & Eev & Elast).
  pose proof (ready_NoDup GRID_SIZE Hpos a Hra) as Hnd.
  pose proof (ready_grid_ok GRID_SIZE a Hra) as Hok.
  pose proof (fuel_bound_roll fuel Hfuel) as Hfuel5.
  destruct (crypt_char_trace GRID_SIZE GRID_SIZE_ge2 ch a Hra Hin)
    as (s & x0 & ts & e & g' & vis' & Hs & Es & Ex0 & Gx0 & Hp & He & Hspun & Hrun).
  destruct Hra as [Hwfa Hva]. pose proof Hwfa as (Lg & Lp & Hb).
  destruct (spun_result GRID_SIZE Hpos (grid a) Hok Lg ts g' vis' Hspun)
    as (Lg' & Hok' & _).
  set (p := perimeterChars a) in *.
  set (ev := Z.rem (evenodd a + 1) 2) in *.
  set (mida := mkState g' p (set_i a) ev (lastStartCharPos a) (lastEndCharPos a)) in *.
  set (midb := mkState g' p (set_i b) ev (lastStartCharPos b) (lastEndCharPos b)).
  assert (Hwfma : wf GRID_SIZE mida) by (apply (wf_after a); auto).
  assert (Hwfmb : wf GRID_SIZE midb) by (apply (wf_after a); auto).
  assert (Lp' : Z.of_nat (length p) = 4 * GRID_SIZE) by lia.
  destruct (emitted_cases p ev s e) as [[Ese Ees]|[Ese Ees]].
  - (* the byte comes back unchanged: the second engine runs the same ray *)
    assert (Hinb : In ch (perimeterChars b)) by (rewrite <- Ep; exact Hin).
    destruct (crypt_char_trace GRID_SIZE GRID_SIZE_ge2 ch b Hrb Hinb)
      as (s2 & x2 & ts2 & e2 & g2 & vis2 & Hs2 & Es2 & Ex2 & Gx2 & Hp2 & He2
          & Hspun2 & Hrun2).
    rewrite <- Ep, <- Eg, <- Eev in *. fold p in Es2, Hrun2. fold ev in Hrun2.
    assert (s2 = s) by (apply (NoDup_aget_inj p); auto; try lia; congruence).
    subst s2. rewrite Ex0 in Ex2; inversion Ex2; subst x2.
    destruct (ray_path_det GRID_SIZE (grid a) x0 ts ts2 e e2 Hp Hp2); subst ts2 e2.
    assert (g2 = g') by (apply (spun_unique (grid a) ts ts g2 g' vis2 vis'); tauto).
    subst g2. fold midb in Hrun2.
    destruct (roll_chars_same GRID_SIZE GRID_SIZE_ge2 fuel s e mida midb
                Hwfma Hwfmb Hs He Hfuel5 eq_refl Elast)
      as (perim' & Hperm & Hrolla & Hrollb).
    cbn [mida midb grid perimeterChars set_i evenodd] in Hperm, Hrolla, Hrollb.
    eexists _, _, _. split; [rewrite (Hrun fuel Hfuel), Hrolla; reflexivity|].
    rewrite Ese, Es.
    split; [rewrite (Hrun2 fuel Hfuel), Hrollb, Ese, Es; reflexivity|].
    split.
    { apply ready_intro; cbn [grid perimeterChars]; auto.
      - apply (wf_after a); auto.
      - apply (Permutation_NoDup Hperm Hnd). }
    split; [|exact Hperm].
    repeat split; cbn; auto.
  - (* the byte at the end of the ray: the second engine runs the ray back *)
    assert (Hinb : In (aget p e) (perimeterChars b)).
    { rewrite <- Ep. apply aget_In. fold p. lia. }
    destruct (crypt_char_trace GRID_SIZE GRID_SIZE_ge2 (aget p e) b Hrb Hinb)
      as (s2 & x2 & ts2 & e2 & g2 & vis2 & Hs2 & Es2 & Ex2 & Gx2 & Hp2 & He2
          & Hspun2 & Hrun2).
    rewrite <- Ep, <- Eg, <- Eev in *. fold p in Es2, Hrun2. fold ev in Hrun2.
    assert (s2 = e) by (apply (NoDup_aget_inj p); auto; lia).
    subst s2.
    destruct (ray_path_reverse GRID_SIZE Hpos (grid a) s e x0 ts ltac:(lia)
                Ex0 Gx0 Hp) as (x' & ts' & Ex' & Hp' & Hcells).
    rewrite Ex' in Ex2; inversion Ex2; subst x2.
    destruct (ray_path_det GRID_SIZE (grid a) x' ts' ts2 s e2 Hp' Hp2); subst ts2 e2.
    assert (g2 = g').
    { apply (spun_unique (grid a) ts' ts g2 g' vis2 vis'); auto. }
    subst g2. fold midb in Hrun2.
    destruct (roll_chars_symmetric GRID_SIZE GRID_SIZE_ge2 fuel s e mida midb
                Hwfma Hwfmb Hnd Hs He Hfuel5 eq_refl Elast)
      as (perim' & Hperm & Hrolla & Hrollb).
    cbn [mida midb grid perimeterChars set_i evenodd] in Hperm, Hrolla, Hrollb.
    eexists _, _, _. split; [rewrite (Hrun fuel Hfuel), Hrolla; reflexivity|].
    rewrite Ese.
    split; [rewrite (Hrun2 fuel Hfuel), Hrollb, Ees, Es; reflexivity|].
    split.
    { apply ready_intro; cbn [grid perimeterChars]; auto.
      - apply (wf_after a); auto.
      - apply (Permutation_NoDup Hperm Hnd). }
    split; [|exact Hperm].
    repeat split; cbn; auto.
Qed.

End Calls.

(** * Streams of calls, and the claims about the engine *)

Section Engine.

Variable GRID_SIZE : Z.
Hypothesis GRID_SIZE_ge2 : 2 <= GRID_SIZE.

(** What a message through the engine keeps. *)
Lemma crypt_stream_keeps (fuel : nat) (msg : list Z) (st : state) :
  ready GRID_SIZE st ->
  Forall (fun ch => In ch (perimeterChars st)) msg ->
  (fuel_bound GRID_SIZE <= fuel)%nat ->
  exists out st',
    crypt_stream GRID_SIZE fuel msg st = Ret (out, st') /\
    ready GRID_SIZE st' /\
    Permutation (perimeterChars st) (perimeterChars st') /\
    length (grid st') = length (grid st) /\
    forall t, 0 <= t < GRID_SIZE * GRID_SIZE ->
              aget (grid st) t = MIRROR_NONE -> aget (grid st') t = MIRROR_NONE.
Proof.
  intros Hready Hmsg Hfuel. revert st Hready Hmsg.
  assert (Hpos : 0 < GRID_SIZE) by lia.
  induction msg as [|ch rest IH]; intros st Hready Hmsg.
  - exists [], st; cbn; auto.
  - inversion Hmsg as [|? ? Hch Hrest]; subst.
    destruct (crypt_char_step GRID_SIZE GRID_SIZE_ge2 fuel ch st Hready Hch Hfuel)
      as (s & e & x0 & ts & g' & vis' & perim' & Hs & Es & He & Ex0 & Hp & Hspun
          & Hperm & Hready' & Hrun).
    destruct (spun_result GRID_SIZE Hpos (grid st)
                (ready_grid_ok GRID_SIZE st Hready) (proj1 (proj1 Hready))
                ts g' vis' Hspun) as (Lg' & _ & Hnone).
    set (st1 := mkState g' perim' (set_i st) (Z.rem (evenodd st + 1) 2) s e) in *.
    destruct (IH st1 Hready') as (out & st' & Hrest' & Hr' & Hperm' & Hlen' & Hnone').
    { apply (Forall_impl _ (fun ch H => Permutation_in ch Hperm H) Hrest). }
    exists (emitted (perimeterChars st) (Z.rem (evenodd st + 1) 2) s e :: out), st'.
    cbn [crypt_stream]. rewrite Hrun. fold st1. rewrite Hrest'.
    split; [reflexivity|]. split; [exact Hr'|].
    split; [exact (perm_trans Hperm Hperm')|].
    split; [cbn [st1 grid] in Hlen'; congruence|].
    intros t Ht E. apply Hnone'; [exact Ht|]. apply Hnone; assumption.
Qed.

(** C10: on a key that passes validation and a byte of the perimeter, a
    call of [mirrorfield_crypt_char] returns: with the fuel
    [fuel_bound] or more, the traversal loop and the two collision loops
    of the roll all leave before the fuel is spent. *)
Theorem mirrorfield_crypt_char_terminates (fuel : nat) (ch : Z) (st : state) :
  ready GRID_SIZE st -> In ch (perimeterChars st) ->
  (fuel_bound GRID_SIZE <= fuel)%nat ->
  exists ech st', mirrorfield_crypt_char GRID_SIZE fuel ch st = Ret (ech, st').
Proof.
  intros Hready Hch Hfuel.
  destruct (crypt_char_step GRID_SIZE GRID_SIZE_ge2 fuel ch st Hready Hch Hfuel)
    as (s & e & x0 & ts & g' & vis' & perim' & _ & _ & _ & _ & _ & _ & _ & _ & Hrun).
  eauto.
Qed.

(** C2: after any sequence of calls on bytes of the perimeter, the
    perimeter is a permutation of what it was after loading, and still
    holds no byte twice. *)
Theorem perimeter_stays_permutation (fuel : nat) (msg : list Z) (st : state) :
  ready GRID_SIZE st ->
  Forall (fun ch => In ch (perimeterChars st)) msg ->
  (fuel_bound GRID_SIZE <= fuel)%nat ->
  exists out st',
    crypt_stream GRID_SIZE fuel msg st = Ret (out, st') /\
    Permutation (perimeterChars st) (perimeterChars st') /\
    NoDup (perimeterChars st') /\
    forall b, In b (perimeterChars st) ->
      exists s, 0 <= s < 4 * GRID_SIZE /\ aget (perimeterChars st') s = b /\
                forall s', 0 <= s' < 4 * GRID_SIZE ->
                           aget (perimeterChars st') s' = b -> s' = s.
Proof.
  intros Hready Hmsg Hfuel.
  destruct (crypt_stream_keeps fuel msg st Hready Hmsg Hfuel)
    as (out & st' & Hrun & Hr' & Hperm & _).
  pose proof (ready_NoDup GRID_SIZE ltac:(lia) st' Hr') as Hnd.
  exists out, st'. split; [exact Hrun|]. split; [exact Hperm|].
  split; [exact Hnd|].
  intros b Hb. destruct Hr' as [(_ & Lp & _) _].
  destruct (In_aget _ b (Permutation_in b Hperm Hb)) as (s & Hs & Es).
  exists s. split; [lia|]. split; [exact Es|].
  intros s' Hs' Es'.
  apply (NoDup_aget_inj (perimeterChars st')); auto; try lia; congruence.
Qed.

(** C3: after any sequence of calls on bytes of the perimeter, every
    cell of the grid holds a value from 0 to 3, and every cell that was
    empty (code 3) when the sequence began is still empty. *)
Theorem grid_cells_stay_in_range (fuel : nat) (msg : list Z) (st : state) :
  ready GRID_SIZE st ->
  Forall (fun ch => In ch (perimeterChars st)) msg ->
  (fuel_bound GRID_SIZE <= fuel)%nat ->
  exists out st',
    crypt_stream GRID_SIZE fuel msg st = Ret (out, st') /\
    length (grid st') = length (grid st) /\
    (forall t, 0 <= t < GRID_SIZE * GRID_SIZE -> 0 <= aget (grid st') t <= 3) /\
    (forall t, 0 <= t < GRID_SIZE * GRID_SIZE ->
               aget (grid st) t = MIRROR_NONE -> aget (grid st') t = MIRROR_NONE).
Proof.
  intros Hready Hmsg Hfuel.
  destruct (crypt_stream_keeps fuel msg st Hready Hmsg Hfuel)
    as (out & st' & Hrun & Hr' & _ & Hlen & Hnone).
  exists out, st'. split; [exact Hrun|]. split; [exact Hlen|].
  split; [|exact Hnone].
  exact (ready_grid_ok GRID_SIZE st' Hr').
Qed.

(** Two engines in step stay in step over a message and its ciphertext. *)
Lemma crypt_stream_in_sync (fuel : nat) (msg : list Z) (a b : state) :
  ready GRID_SIZE a -> in_sync a b ->
  Forall (fun ch => In ch (perimeterChars a)) msg ->
  (fuel_bound GRID_SIZE <= fuel)%nat ->
  exists out a' b',
    crypt_stream GRID_SIZE fuel msg a = Ret (out, a') /\
    crypt_stream GRID_SIZE fuel out b = Ret (msg, b') /\
    in_sync a' b'.
Proof.
  intros Hready Hsync Hmsg Hfuel. revert a b Hready Hsync Hmsg.
  induction msg as [|ch rest IH]; intros a b Hready Hsync Hmsg.
  - exists [], a, b; cbn; auto.
  - inversion Hmsg as [|? ? Hch Hrest]; subst.
    destruct (crypt_char_round_trip GRID_SIZE GRID_SIZE_ge2 fuel ch a b
                Hready Hsync Hch Hfuel)
      as (ech & a1 & b1 & Ha & Hb & Hr1 & Hs1 & Hperm).
    destruct (IH a1 b1 Hr1 Hs1) as (out & a' & b' & Ha' & Hb' & Hs').
    { apply (Forall_impl _ (fun ch H => Permutation_in ch Hperm H) Hrest). }
    exists (ech :: out), a', b'.
    cbn [crypt_stream]. rewrite Ha, Ha', Hb, Hb'. auto.
Qed.

(** C1, as amended: for a key that passes validation and a message whose
    bytes all occur on the perimeter, the ciphertext fed to a second
    engine started from the same key gives the message back. *)
Theorem crypt_stream_round_trip (fuel : nat) (msg : list Z) (st : state) :
  ready GRID_SIZE st ->
  Forall (fun ch => In ch (perimeterChars st)) msg ->
  (fuel_bound GRID_SIZE <= fuel)%nat ->
  exists cipher st1 st2,
    crypt_stream GRID_SIZE fuel msg st = Ret (cipher, st1) /\
    crypt_stream GRID_SIZE fuel cipher st = Ret (msg, st2).
Proof.
  intros Hready Hmsg Hfuel.
  destruct (crypt_stream_in_sync fuel msg st st Hready) as (out & a' & b' & Ha & Hb & _);
    auto.
  - repeat split; auto.
  - eauto.
Qed.

Lemma reflect_none (d : direction) : reflect MIRROR_NONE d = d.
Proof. reflexivity. Qed.

(** In a grid without mirrors the ray keeps its direction. *)
Lemma ray_path_straight (g0 : list Z) (x : ray) (ts : list Z) (e : Z) :
  (forall t, 0 <= t < GRID_SIZE * GRID_SIZE -> aget g0 t = MIRROR_NONE) ->
  ray_path GRID_SIZE g0 x ts e -> in_grid GRID_SIZE x ->
  e = match snd x with
      | DIR_DOWN => snd (fst x) + GRID_SIZE * 3
      | DIR_LEFT => fst (fst x) + GRID_SIZE * 2
      | DIR_RIGHT => fst (fst x) + GRID_SIZE
      | DIR_UP => snd (fst x)
      end.
Proof.
  intros Hempty Hp. assert (Hpos : 0 < GRID_SIZE) by lia.
  induction Hp as [x e Hx | x y ts e Hx Hp IH]; intros Hin.
  - destruct x as [[r c] d].
    rewrite (ray_step_cases GRID_SIZE Hpos g0 r c d Hin) in Hx.
    pose proof (Hempty _ (in_grid_cell GRID_SIZE Hpos (r, c, d) Hin)) as Hc.
    cbn [cell] in Hc. rewrite Hc in Hx.
    cbn [fst snd]. rewrite reflect_none in Hx.
    destruct d;
      match type of Hx with
      | context [?a =? ?b] => destruct (a =? b)
      end; inversion Hx; reflexivity.
  - pose proof (ray_step_in_grid GRID_SIZE Hpos g0 x y Hin Hx) as Hy.
    specialize (IH Hy). destruct x as [[r c] d].
    rewrite (ray_step_cases GRID_SIZE Hpos g0 r c d Hin) in Hx.
    pose proof (Hempty _ (in_grid_cell GRID_SIZE Hpos (r, c, d) Hin)) as Hc.
    cbn [cell] in Hc. rewrite Hc in Hx.
    cbn [fst snd]. rewrite reflect_none in Hx.
    destruct d;
      match type of Hx with
      | context [?a =? ?b] => destruct (a =? b)
      end; inversion Hx; subst y; exact IH.
Qed.

(** C8: with a grid that is empty throughout, the call on the byte at
    slot [s] ends the ray at the opposite-edge mirror image of [s] (the
    end position is what the call leaves in [lastEndCharPos]) and leaves
    every cell of the grid as it was. *)
Theorem empty_grid_opposite_slot (fuel : nat) (s : Z) (st : state) :
  ready GRID_SIZE st ->
  (forall t, 0 <= t < GRID_SIZE * GRID_SIZE -> aget (grid st) t = MIRROR_NONE) ->
  0 <= s < 4 * GRID_SIZE ->
  (fuel_bound GRID_SIZE <= fuel)%nat ->
  exists ech st',
    mirrorfield_crypt_char GRID_SIZE fuel (aget (perimeterChars st) s) st
    = Ret (ech, st') /\
    lastStartCharPos st' = s /\
    lastEndCharPos st' = opposite_slot GRID_SIZE s /\
    grid st' = grid st.
Proof.
  intros Hready Hempty Hs Hfuel.
  assert (Hpos : 0 < GRID_SIZE) by lia.
  pose proof (ready_NoDup GRID_SIZE Hpos st Hready) as Hnd.
  pose proof Hready as [(Lg & Lp & _) _].
  assert (Hch : In (aget (perimeterChars st) s) (perimeterChars st))
    by (apply aget_In; lia).
  destruct (crypt_char_step GRID_SIZE GRID_SIZE_ge2 fuel _ st Hready Hch Hfuel)
    as (s' & e & x0 & ts & g' & vis' & perim' & Hs' & Es & He & Ex0 & Hp & Hspun
        & _ & _ & Hrun).
  assert (s' = s) by (apply (NoDup_aget_inj (perimeterChars st)); auto; lia).
  subst s'.
  destruct (entry_some GRID_SIZE Hpos s Hs) as (x0' & Ex0' & Gx0).
  rewrite Ex0 in Ex0'; inversion Ex0'; subst x0'.
  pose proof (ray_path_straight (grid st) x0 ts e Hempty Hp Gx0) as Ee.
  eexists _, _. split; [exact Hrun|]. cbn [lastStartCharPos lastEndCharPos grid].
  split; [reflexivity|]. split.
  - rewrite Ee. unfold entry in Ex0. unfold opposite_slot.
    repeat match type of Ex0 with
           | context [?a <? ?b] => destruct (Z.ltb_spec a b)
           end; inversion Ex0; subst x0; cbn [fst snd];
      repeat match goal with
             | |- context [?a <? ?b] => destruct (Z.ltb_spec a b); try lia
             end; lia.
  - apply (spun_no_mirror GRID_SIZE Hpos (grid st) Lg ts g' vis' Hempty Hspun).
Qed.

End Engine.

(** * keyfile_shuffle_string *)

Section Shuffle.

Lemma draw_other_spec (draws : list nat) (len sIndex rIndex : nat) (rest : list nat) :
  (0 < len)%nat ->
  draw_other draws len sIndex = Some (rIndex, rest) ->
  (rIndex < len)%nat /\ rIndex <> sIndex.
Proof.
  intros Hlen; induction draws as [|x t IH]; cbn [draw_other]; [discriminate|].
  destruct (Nat.eqb_spec (x mod len) sIndex) as [E|E]; auto.
  intros H; inversion H; subst. split; auto.
  apply Nat.mod_upper_bound; lia.
Qed.

(** The loop keeps this true: the string, with the carried character put
    at the reserved index, is a permutation of the string it began with. *)
Lemma shuffle_loop_Permutation (p : nat) (orig str : list ascii) (c1 : ascii)
      (sIndex : nat) (draws : list nat) (str' : list ascii) (c1' : ascii)
      (rest : list nat) :
  (sIndex < length str)%nat ->
  Permutation orig (upd_nth sIndex c1 str) ->
  shuffle_loop p str c1 sIndex draws = Some (str', c1', rest) ->
  Permutation orig (upd_nth sIndex c1' str').
Proof.
  revert str c1 draws; induction p as [|p IH]; intros str c1 draws Hs Hperm;
    cbn [shuffle_loop].
  - intros H; inversion H; subst; exact Hperm.
  - destruct (draw_other draws (length str) sIndex) as [[rIndex draws']|] eqn:E;
      [|discriminate].
    assert (Hl : (0 < length str)%nat) by lia.
    destruct (draw_other_spec _ _ _ _ _ Hl E) as [Hr Hne].
    apply IH.
    + rewrite length_upd_nth; exact Hs.
    + apply (perm_trans Hperm).
      rewrite <- (upd_nth_same zero str rIndex) at 1.
      apply (upd_nth_exchange ascii_dec); auto.
Qed.

Lemma draw_other_returns (draws : list nat) (len sIndex k : nat) :
  (S k <= length (filter (fun y => negb (y mod len =? sIndex)%nat) draws))%nat ->
  exists rIndex rest,
    draw_other draws len sIndex = Some (rIndex, rest) /\
    (k <= length (filter (fun y => negb (y mod len =? sIndex)%nat) rest))%nat.
Proof.
  induction draws as [|x t IH]; cbn [filter draw_other]; [simpl; lia|].
  destruct (x mod len =? sIndex)%nat; cbn [negb].
  - exact IH.
  - cbn [length]. intros H. exists (x mod len)%nat, t. split; [reflexivity|lia].
Qed.

Lemma shuffle_loop_returns (p : nat) (str : list ascii) (c1 : ascii)
      (sIndex : nat) (draws : list nat) :
  (p <= length (filter (fun y => negb (y mod length str =? sIndex)%nat) draws))%nat ->
  exists res, shuffle_loop p str c1 sIndex draws = Some res.
Proof.
  revert str c1 draws; induction p as [|p IH]; intros str c1 draws Hp;
    cbn [shuffle_loop]; [eauto|].
  destruct (draw_other_returns draws (length str) sIndex p Hp)
    as (rIndex & rest & E & Hrest).
  rewrite E. apply IH. rewrite length_upd_nth. exact Hrest.
Qed.

Lemma keyfile_shuffle_string_unfold (str : list ascii) (p : Z) (x : nat)
      (draws : list nat) :
  str <> [] ->
  keyfile_shuffle_string str p (x :: draws) =
  match shuffle_loop (Z.to_nat p) str (nth (x mod length str) str zero)
                     (x mod length str) draws with
  | None => NoMoreDraws
  | Some (s, c, d) => Shuffled (upd_nth (x mod length str) c s) d
  end.
Proof.
  destruct str; [congruence|reflexivity].
Qed.

(** C9: whatever the draws, the string [keyfile_shuffle_string] returns
    is a permutation of the string it was given; and it does return when
    the supply holds a first draw and at least [p] later draws that the
    rejection loop accepts. *)
Theorem keyfile_shuffle_string_permutation (str : list ascii) (p : Z)
        (draws : list nat) :
  str <> [] ->
  (forall str' rest,
      keyfile_shuffle_string str p draws = Shuffled str' rest ->
      Permutation str str')
  /\ (enough_draws str p draws ->
      exists str' rest, keyfile_shuffle_string str p draws = Shuffled str' rest).
Proof.
  intros Hne.
  assert (Hlen : (0 < length str)%nat) by (destruct str; simpl; [congruence|lia]).
  destruct draws as [|x draws].
  { split; [|simpl; tauto]. destruct str; discriminate. }
  rewrite keyfile_shuffle_string_unfold by exact Hne.
  unfold enough_draws.
  set (sIndex := (x mod length str)%nat).
  assert (Hs : (sIndex < length str)%nat) by (apply Nat.mod_upper_bound; lia).
  split.
  - intros str' rest.
    destruct (shuffle_loop _ str _ sIndex draws) as [[[s1 c1] d1]|] eqn:E;
      [|discriminate].
    intros H; inversion H; subst.
    apply (shuffle_loop_Permutation (Z.to_nat p) str str (nth sIndex str zero)
             sIndex draws s1 c1 rest Hs); [|exact E].
    rewrite upd_nth_same; apply Permutation_refl.
  - intros Hp.
    destruct (shuffle_loop_returns (Z.to_nat p) str (nth sIndex str zero)
                sIndex draws Hp) as [[[s1 c1] d1] E].
    rewrite E; eauto.
Qed.

End Shuffle.

(** * The theorems at work on an engine with [GRID_SIZE = 2] *)

Lemma demo_state_ready : ready 2 demo_state.
Proof.
  split; [|reflexivity].
  split; [reflexivity|]. split; [reflexivity|].
  unfold demo_state, demo_perim; cbn [perimeterChars].
  repeat constructor; lia.
Qed.

Lemma demo_empty_state_ready : ready 2 demo_empty_state.
Proof.
  split; [|reflexivity].
  split; [reflexivity|]. split; [reflexivity|].
  unfold demo_empty_state, demo_perim; cbn [perimeterChars].
  repeat constructor; lia.
Qed.

(** Loading [demo_key] into a fresh engine: the twelve calls succeed and
    leave [demo_state]. *)
Lemma demo_key_loads :
  set_all 2 demo_key (fresh_state 2) = (repeat 1 12, demo_state).
Proof. reflexivity. Qed.

Lemma demo_fuel : (fuel_bound 2 <= 17)%nat.
Proof. vm_compute. apply le_n. Qed.

Lemma demo_message : Forall (fun ch => In ch (perimeterChars demo_state)) [65; 66; 72; 65].
Proof.
  repeat (apply Forall_cons; [simpl; auto 12|]). apply Forall_nil.
Qed.

(** The round trip of a message of perimeter bytes. *)
Lemma crypt_stream_round_trip_witness :
  exists cipher st1 st2,
    crypt_stream 2 17 [65; 66; 72; 65] demo_state = Ret (cipher, st1) /\
    crypt_stream 2 17 cipher demo_state = Ret ([65; 66; 72; 65], st2).
Proof.
  apply (crypt_stream_round_trip 2).
  - lia.
  - exact demo_state_ready.
  - exact demo_message.
  - exact demo_fuel.
Defined.

(** C1 as stated fails on a message with a byte that is not on the
    perimeter: the first engine does not return a ciphertext. *)
Lemma crypt_stream_unknown_byte :
  crypt_stream 2 17 [65; 0] demo_state
  = Undefined (mkState [1; 3; 2; 1] [68; 66; 67; 65; 70; 69; 71; 72] 11 0 0 4).
Proof. vm_compute. reflexivity. Qed.

Lemma perimeter_stays_permutation_witness :
  exists out st',
    crypt_stream 2 17 [65; 66; 72; 65] demo_state = Ret (out, st') /\
    Permutation (perimeterChars demo_state) (perimeterChars st') /\
    NoDup (perimeterChars st') /\
    forall b, In b (perimeterChars demo_state) ->
      exists s, 0 <= s < 4 * 2 /\ aget (perimeterChars st') s = b /\
                forall s', 0 <= s' < 4 * 2 ->
                           aget (perimeterChars st') s' = b -> s' = s.
Proof.
  apply (perimeter_stays_permutation 2).
  - lia.
  - exact demo_state_ready.
  - exact demo_message.
  - exact demo_fuel.
Defined.

Lemma grid_cells_stay_in_range_witness :
  exists out st',
    crypt_stream 2 17 [65; 66; 72; 65] demo_state = Ret (out, st') /\
    length (grid st') = length (grid demo_state) /\
    (forall t, 0 <= t < 2 * 2 -> 0 <= aget (grid st') t <= 3) /\
    (forall t, 0 <= t < 2 * 2 ->
               aget (grid demo_state) t = MIRROR_NONE -> aget (grid st') t = MIRROR_NONE).
Proof.
  apply (grid_cells_stay_in_range 2).
  - lia.
  - exact demo_state_ready.
  - exact demo_message.
  - exact demo_fuel.
Defined.

(** The byte 0 is on no slot of [demo_perim]: [evenodd] goes from 0 to 1
    and the call is undefined. *)
Lemma crypt_char_unknown_byte_witness :
  mirrorfield_crypt_char 2 17 0 demo_state
  = Undefined (mkState demo_grid demo_perim 11 1 (-1) (-1)).
Proof.
  apply (crypt_char_unknown_byte 2).
  - lia.
  - reflexivity.
  - simpl; intros H; repeat (destruct H as [H|H]; [discriminate|]); exact H.
Defined.

Lemma roll_chars_is_spec_roll_witness :
  exists perim',
    spec_roll 2 5 1 6 (perimeterChars demo_state)
              (lastStartCharPos demo_state) (lastEndCharPos demo_state)
    = Some (perim', 1, 6) /\
    mirrorfield_roll_chars 2 5 1 6 demo_state =
    Ret (mkState (grid demo_state) perim' (set_i demo_state) (evenodd demo_state) 1 6).
Proof.
  apply (roll_chars_is_spec_roll 2).
  - lia.
  - exact (proj1 demo_state_ready).
  - lia.
  - lia.
  - lia.
Defined.

(** The second call of a load, with a backslash. *)
Lemma mirrorfield_set_phases_witness :
  fst (mirrorfield_set 2 char_backslash
         (snd (set_all 2 [char_slash] (fresh_state 2)))) = 1 /\
  grid (snd (mirrorfield_set 2 char_backslash
               (snd (set_all 2 [char_slash] (fresh_state 2)))))
  = aset (grid (snd (set_all 2 [char_slash] (fresh_state 2)))) 1 2.
Proof.
  pose proof (mirrorfield_set_phases 2 ltac:(lia) [char_slash] char_backslash
                ltac:(unfold INT_MAX; simpl; lia)) as H.
  cbv zeta in H. destruct H as [_ [H _]].
  destruct (H ltac:(simpl; lia)) as [_ H1].
  exact H1.
Defined.

(** C7 as stated fails on the backslash: the code stores 2 for it, the
    table of the loading paragraph gives 1. *)
Lemma backslash_cell_code :
  grid (snd (mirrorfield_set 2 char_backslash (fresh_state 2))) = [2; 0; 0; 0] /\
  claimed_cell_code char_backslash = Some 1.
Proof. split; reflexivity. Qed.

Lemma empty_grid_opposite_slot_witness :
  exists ech st',
    mirrorfield_crypt_char 2 17 (aget (perimeterChars demo_empty_state) 5)
                           demo_empty_state = Ret (ech, st') /\
    lastStartCharPos st' = 5 /\
    lastEndCharPos st' = opposite_slot 2 5 /\
    grid st' = grid demo_empty_state.
Proof.
  apply (empty_grid_opposite_slot 2).
  - lia.
  - exact demo_empty_state_ready.
  - intros t Ht.
    assert (t = 0 \/ t = 1 \/ t = 2 \/ t = 3) as [-> | [-> | [-> | ->]]] by lia;
      reflexivity.
  - lia.
  - exact demo_fuel.
Defined.

Lemma keyfile_shuffle_string_witness :
  exists str' rest,
    keyfile_shuffle_string demo_str 3 demo_draws = Shuffled str' rest /\
    Permutation demo_str str'.
Proof.
  destruct (keyfile_shuffle_string_permutation demo_str 3 demo_draws
              ltac:(discriminate)) as [Hperm Hret].
  destruct (Hret ltac:(vm_compute; repeat constructor)) as (str' & rest & E).
  exists str', rest. split; [exact E|exact (Hperm _ _ E)].
Defined.

Lemma mirrorfield_crypt_char_terminates_witness :
  exists ech st', mirrorfield_crypt_char 2 17 70 demo_state = Ret (ech, st').
Proof.
  apply (mirrorfield_crypt_char_terminates 2).
  - lia.
  - exact demo_state_ready.
  - simpl; auto 12.
  - exact demo_fuel.
Defined.

(** * More about the ray: where it cannot end *)

Section RayEnds.

Variable GRID_SIZE : Z.
Hypothesis GRID_SIZE_pos : 0 < GRID_SIZE.
Variable g0 : list Z.

Lemma ray_iter_plus (a b : nat) (x : ray) :
  ray_iter GRID_SIZE g0 (a + b) x =
  match ray_iter GRID_SIZE g0 a x with
  | Some y => ray_iter GRID_SIZE g0 b y
  | None => None
  end.
Proof.
  revert x; induction a as [|a IH]; intros x; [reflexivity|].
  cbn [Nat.add ray_iter].
  destruct (ray_step GRID_SIZE g0 x) as [y|e]; [apply IH|reflexivity].
Qed.

(** A run of steps can be taken back. *)
Lemma ray_iter_back (k : nat) (x y : ray) :
  in_grid GRID_SIZE x -> ray_iter GRID_SIZE g0 k x = Some y ->
  ray_iter GRID_SIZE g0 k (turn_back GRID_SIZE g0 y) = Some (turn_back GRID_SIZE g0 x).
Proof.
  revert x y; induction k as [|k IH]; intros x y Hx H.
  - simpl in *; congruence.
  - cbn [ray_iter] in H.
    destruct (ray_step GRID_SIZE g0 x) as [x1|e] eqn:E; [|discriminate].
    pose proof (ray_step_in_grid GRID_SIZE GRID_SIZE_pos g0 x x1 Hx E) as Hx1.
    rewrite ray_iter_last, (IH x1 y Hx1 H).
    rewrite (ray_step_back GRID_SIZE GRID_SIZE_pos g0 x x1 Hx E). reflexivity.
Qed.

Lemma ray_path_iter (x : ray) (ts : list Z) (e : Z) :
  ray_path GRID_SIZE g0 x ts e ->
  exists k y, ray_iter GRID_SIZE g0 k x = Some y /\ ray_step GRID_SIZE g0 y = inr e.
Proof.
  induction 1 as [x e Hx | x y ts e Hx Hp (k & z & Hk & Hz)].
  - exists O, x; auto.
  - exists (S k), z; cbn [ray_iter]; rewrite Hx; auto.
Qed.

Lemma turn_back_differs (x : ray) : turn_back GRID_SIZE g0 x <> x.
Proof.
  destruct x as [[r c] d]; unfold turn_back, reflect; intros H.
  inversion H as [Hd]; revert Hd.
  destruct (_ =? MIRROR_FORWARD); [destruct d; discriminate|].
  destruct (_ =? MIRROR_BACKWARD); destruct d; discriminate.
Qed.

Lemma ray_step_moves (x y : ray) :
  in_grid GRID_SIZE x -> ray_step GRID_SIZE g0 x = inl y -> fst y <> fst x.
Proof.
  destruct x as [[r c] d]; intros Hx; rewrite (ray_step_cases GRID_SIZE GRID_SIZE_pos g0 r c d Hx).
  destruct (reflect _ d);
    match goal with
    | |- context [?a =? ?b] => destruct (a =? b)
    end; intros H; inversion H; cbn [fst]; intros E; inversion E; lia.
Qed.

(** The ray does not leave the grid where it entered: a path that ended
    at its own entry would read the same backwards, and its middle would
    be a ray that is its own way back, or a step that does not move. *)
Lemma ray_exit_not_entry (s e : Z) (x0 : ray) (ts : list Z) :
  0 <= s -> entry GRID_SIZE s = Some x0 -> in_grid GRID_SIZE x0 ->
  ray_path GRID_SIZE g0 x0 ts e -> e <> s.
Proof.
  intros Hs He Hx0 Hp Hes; subst e.
  destruct (ray_path_iter x0 ts s Hp) as (k & y & Hk & Hy).
  pose proof (ray_iter_in_grid GRID_SIZE GRID_SIZE_pos g0 k x0 y Hx0 Hk) as Gy.
  destruct (ray_step_exit GRID_SIZE GRID_SIZE_pos g0 y s Gy Hy) as [_ He'].
  assert (Hback : turn_back GRID_SIZE g0 y = x0) by congruence.
  destruct (Nat.Even_or_Odd k) as [[m Hm]|[m Hm]].
  - replace k with (m + m)%nat in Hk by lia.
    rewrite ray_iter_plus in Hk.
    destruct (ray_iter GRID_SIZE g0 m x0) as [xm|] eqn:Em; [|discriminate].
    pose proof (ray_iter_in_grid GRID_SIZE GRID_SIZE_pos g0 m x0 xm Hx0 Em) as Gm.
    pose proof (ray_iter_back m xm y Gm Hk) as Hb.
    rewrite Hback, Em in Hb. inversion Hb as [Hx].
    exact (turn_back_differs xm (eq_sym Hx)).
  - replace k with (m + S m)%nat in Hk by lia.
    rewrite ray_iter_plus in Hk.
    destruct (ray_iter GRID_SIZE g0 m x0) as [xm|] eqn:Em; [|discriminate].
    pose proof (ray_iter_in_grid GRID_SIZE GRID_SIZE_pos g0 m x0 xm Hx0 Em) as Gm.
    pose proof (ray_iter_back (S m) xm y Gm Hk) as Hb.
    rewrite Hback, ray_iter_last, Em in Hb.
    destruct (ray_step GRID_SIZE g0 xm) as [z|] eqn:Ez; [|discriminate].
    inversion Hb; subst z.
    apply (ray_step_moves xm _ Gm Ez).
    destruct xm as [[r c] d]; reflexivity.
Qed.

End RayEnds.

(** * More about a call of mirrorfield_crypt_char *)

Section CallsMore.

Variable GRID_SIZE : Z.
Hypothesis GRID_SIZE_ge2 : 2 <= GRID_SIZE.

(** X1: the traversal can be run backwards. From the empty [visited]
    array the loop started at slot [s] returns an end position [e], and
    started at [e] on the same grid it returns [s] and leaves the same
    grid. *)
Theorem traverse_reversible (fuel : nat) (g : list Z) (s : Z) :
  grid_ok GRID_SIZE g -> length g = Z.to_nat (GRID_SIZE * GRID_SIZE) ->
  0 <= s < 4 * GRID_SIZE -> (fuel_bound GRID_SIZE <= fuel)%nat ->
  exists x0 xe e g',
    entry GRID_SIZE s = Some x0 /\ entry GRID_SIZE e = Some xe /\
    traverse GRID_SIZE fuel (fst (fst x0)) (snd (fst x0)) (snd x0) (-1) g
             (repeat 0 (Z.to_nat (GRID_SIZE * GRID_SIZE))) = Some (e, g') /\
    traverse GRID_SIZE fuel (fst (fst xe)) (snd (fst xe)) (snd xe) (-1) g
             (repeat 0 (Z.to_nat (GRID_SIZE * GRID_SIZE))) = Some (s, g').
Proof.
  intros Hok Lg Hs Hfuel.
  assert (Hpos : 0 < GRID_SIZE) by lia.
  destruct (entry_some GRID_SIZE Hpos s Hs) as (x0 & Ex0 & Gx0).
  destruct (ray_path_exists GRID_SIZE Hpos g s x0 ltac:(lia) Ex0 Gx0)
    as (ts & e & Hp & Hlen).
  destruct (ray_path_range GRID_SIZE Hpos g x0 ts e Hp Gx0) as [He _].
  destruct (ray_path_reverse GRID_SIZE Hpos g s e x0 ts ltac:(lia) Ex0 Gx0 Hp)
    as (xe & ts' & Exe & Hp' & Hcells).
  destruct (entry_some GRID_SIZE Hpos e He) as (xe' & Exe' & Gxe).
  rewrite Exe in Exe'; inversion Exe'; subst xe'.
  destruct (ray_path_exists GRID_SIZE Hpos g e xe ltac:(lia) Exe Gxe)
    as (ts2 & s2 & Hp2 & Hlen2).
  destruct (ray_path_det GRID_SIZE g xe ts' ts2 s s2 Hp' Hp2); subst ts2 s2.
  assert (Hf : (length ts < fuel)%nat) by (unfold fuel_bound in Hfuel; lia).
  assert (Hf' : (length ts' < fuel)%nat) by (unfold fuel_bound in Hfuel; lia).
  destruct (traverse_path GRID_SIZE Hpos g Hok Lg x0 ts e Hp fuel [] g _ Gx0
              (spun_init GRID_SIZE Hpos g Lg) Hf) as (g1 & v1 & Ht1 & Hs1).
  destruct (traverse_path GRID_SIZE Hpos g Hok Lg xe ts' s Hp' fuel [] g _ Gxe
              (spun_init GRID_SIZE Hpos g Lg) Hf') as (g2 & v2 & Ht2 & Hs2).
  assert (g2 = g1).
  { apply (spun_unique g (rev ts' ++ []) (rev ts ++ []) g2 g1 v2 v1); auto.
    intros t; rewrite !app_nil_r, <- !in_rev; apply Hcells. }
  subst g2. exists x0, xe, e, g1; auto.
Qed.

(** A call on a byte of the perimeter, with what the later statements
    need: the ray ends at another slot than the one it entered. *)
Lemma crypt_char_ends (fuel : nat) (ch : Z) (st : state) :
  ready GRID_SIZE st -> In ch (perimeterChars st) ->
  (fuel_bound GRID_SIZE <= fuel)%nat ->
  exists s e x0 ts g' vis' perim',
    0 <= s < 4 * GRID_SIZE /\ aget (perimeterChars st) s = ch /\
    0 <= e < 4 * GRID_SIZE /\ e <> s /\
    entry GRID_SIZE s = Some x0 /\ in_grid GRID_SIZE x0 /\
    ray_path GRID_SIZE (grid st) x0 ts e /\
    spun (grid st) ts g' vis' /\
    Permutation (perimeterChars st) perim' /\
    mirrorfield_crypt_char GRID_SIZE fuel ch st =
    Ret (emitted (perimeterChars st) (Z.rem (evenodd st + 1) 2) s e,
         mkState g' perim' (set_i st) (Z.rem (evenodd st + 1) 2) s e).
Proof.
  intros Hready Hch Hfuel.
  assert (Hpos : 0 < GRID_SIZE) by lia.
  destruct (crypt_char_step GRID_SIZE GRID_SIZE_ge2 fuel ch st Hready Hch Hfuel)
    as (s & e & x0 & ts & g' & vis' & perim' & Hs & Es & He & Ex0 & Hp & Hspun
        & Hperm & _ & Hrun).
  destruct (entry_some GRID_SIZE Hpos s Hs) as (x0' & Ex0' & Gx0).
  rewrite Ex0 in Ex0'; inversion Ex0'; subst x0'.
  pose proof (ray_exit_not_entry GRID_SIZE Hpos (grid st) s e x0 ts
                ltac:(lia) Ex0 Gx0 Hp) as Hne.
  exists s, e, x0, ts, g', vis', perim'.
  do 9 (split; [solve [auto | lia]|]). exact Hrun.
Qed.

(** X2: a call never ends the ray at the slot where it entered: the two
    positions the call leaves in [lastStartCharPos] and [lastEndCharPos]
    differ, and the first is the slot of the byte the call was given. *)
Theorem crypt_char_start_end_differ (fuel : nat) (ch : Z) (st : state) :
  ready GRID_SIZE st -> In ch (perimeterChars st) ->
  (fuel_bound GRID_SIZE <= fuel)%nat ->
  exists ech st',
    mirrorfield_crypt_char GRID_SIZE fuel ch st = Ret (ech, st') /\
    aget (perimeterChars st) (lastStartCharPos st') = ch /\
    lastEndCharPos st' <> lastStartCharPos st'.
Proof.
  intros Hready Hch Hfuel.
  destruct (crypt_char_ends fuel ch st Hready Hch Hfuel)
    as (s & e & x0 & ts & g' & vis' & perim' & Hs & Es & He & Hne & _ & _ & _
        & _ & _ & Hrun).
  eexists _, _; split; [exact Hrun|]. cbn [lastStartCharPos lastEndCharPos]. auto.
Qed.

(** X3: when a call returns the byte it was given. With [s] and [e] the
    start and end slots of the ray (the call leaves them in
    [lastStartCharPos] and [lastEndCharPos]), the byte returned equals the
    byte given exactly when one of the two slots holds its own index as a
    byte and [evenodd], after the toggle, is not 0. *)
Theorem crypt_char_fixed_point_iff (fuel : nat) (ch : Z) (st : state) :
  ready GRID_SIZE st -> In ch (perimeterChars st) ->
  (fuel_bound GRID_SIZE <= fuel)%nat ->
  exists ech st',
    mirrorfield_crypt_char GRID_SIZE fuel ch st = Ret (ech, st') /\
    (ech = ch <->
     (aget (perimeterChars st) (lastStartCharPos st') = lastStartCharPos st' \/
      aget (perimeterChars st) (lastEndCharPos st') = lastEndCharPos st') /\
     evenodd st' <> 0).
Proof.
  intros Hready Hch Hfuel.
  assert (Hpos : 0 < GRID_SIZE) by lia.
  pose proof (ready_NoDup GRID_SIZE Hpos st Hready) as Hnd.
  pose proof Hready as [(_ & Lp & _) _].
  destruct (crypt_char_ends fuel ch st Hready Hch Hfuel)
    as (s & e & x0 & ts & g' & vis' & perim' & Hs & Es & He & Hne & _ & _ & _
        & _ & _ & Hrun).
  eexists _, _; split; [exact Hrun|].
  cbn [lastStartCharPos lastEndCharPos evenodd].
  assert (Hpe : aget (perimeterChars st) e <> ch).
  { rewrite <- Es. intros E. apply Hne.
    apply (NoDup_aget_inj (perimeterChars st)); auto; lia. }
  unfold emitted.
  destruct (Z.eqb_spec (aget (perimeterChars st) s) s) as [E1|E1];
    destruct (Z.eqb_spec (aget (perimeterChars st) e) e) as [E2|E2];
    destruct (Z.eqb_spec (Z.rem (evenodd st + 1) 2) 0) as [E3|E3];
    cbn [orb negb]; split; try tauto; try (intros; exfalso; tauto);
    try (intros _; split; [tauto|exact E3]).
Qed.

(** X4: a mirror spins at most once in a call. Every cell of the grid
    holds after the call what it held before or, when that was a mirror,
    the next code of the cycle 0, 1, 2; and the cell where the ray enters
    the grid, when it holds a mirror, is one of those that spin. *)
Theorem crypt_char_spins_once (fuel : nat) (ch : Z) (st : state) :
  ready GRID_SIZE st -> In ch (perimeterChars st) ->
  (fuel_bound GRID_SIZE <= fuel)%nat ->
  exists ech st',
    mirrorfield_crypt_char GRID_SIZE fuel ch st = Ret (ech, st') /\
    (forall t, 0 <= t < GRID_SIZE * GRID_SIZE ->
       aget (grid st') t = aget (grid st) t \/
       (aget (grid st) t <> MIRROR_NONE /\
        aget (grid st') t = Z.rem (aget (grid st) t + 1) 3)) /\
    (forall r c d,
       entry GRID_SIZE (lastStartCharPos st') = Some (r, c, d) ->
       aget (grid st) (r * GRID_SIZE + c) <> MIRROR_NONE ->
       aget (grid st') (r * GRID_SIZE + c)
       = Z.rem (aget (grid st) (r * GRID_SIZE + c) + 1) 3).
Proof.
  intros Hready Hch Hfuel.
  assert (Hpos : 0 < GRID_SIZE) by lia.
  pose proof Hready as [(Lg & _ & _) _].
  destruct (crypt_char_ends fuel ch st Hready Hch Hfuel)
    as (s & e & x0 & ts & g' & vis' & perim' & Hs & Es & He & Hne & Ex0 & Gx0
        & Hp & (_ & _ & Hspun) & _ & Hrun).
  eexists _, _; split; [exact Hrun|]. cbn [grid lastStartCharPos]. split.
  - intros t Ht.
    destruct (Hspun t ltac:(lia)) as [(_ & B & _ & C)|(_ & _ & C)]; auto.
  - intros r c d E Hm. rewrite Ex0 in E; inversion E; subst x0.
    pose proof (ray_path_cell_in GRID_SIZE (grid st) _ ts e Hp) as Hin.
    pose proof (in_grid_cell GRID_SIZE Hpos _ Gx0) as Hc. cbn [cell] in Hin, Hc.
    destruct (Hspun (r * GRID_SIZE + c) ltac:(lia))
      as [(_ & _ & _ & C)|(A & _)]; [exact C|tauto].
Qed.

(** X5: the ciphertext stays in the alphabet of the key. A message of
    perimeter bytes gives one byte a byte, each of them a byte of the
    perimeter. *)
Theorem crypt_stream_alphabet (fuel : nat) (msg : list Z) (st : state) :
  ready GRID_SIZE st ->
  Forall (fun ch => In ch (perimeterChars st)) msg ->
  (fuel_bound GRID_SIZE <= fuel)%nat ->
  exists out st',
    crypt_stream GRID_SIZE fuel msg st = Ret (out, st') /\
    length out = length msg /\
    Forall (fun b => In b (perimeterChars st)) out.
Proof.
  intros Hready Hmsg Hfuel. revert st Hready Hmsg.
  induction msg as [|ch rest IH]; intros st Hready Hmsg.
  - exists [], st; cbn; auto.
  - inversion Hmsg as [|? ? Hch Hrest]; subst.
    pose proof Hready as [(_ & Lp & _) _].
    destruct (crypt_char_step GRID_SIZE GRID_SIZE_ge2 fuel ch st Hready Hch Hfuel)
      as (s & e & x0 & ts & g' & vis' & perim' & Hs & Es & He & _ & _ & _
          & Hperm & Hready' & Hrun).
    set (st1 := mkState g' perim' (set_i st) (Z.rem (evenodd st + 1) 2) s e) in *.
    destruct (IH st1 Hready') as (out & st' & Hrest' & Hlen & Hout).
    { apply (Forall_impl _ (fun ch H => Permutation_in ch Hperm H) Hrest). }
    eexists _, st'. cbn [crypt_stream]. rewrite Hrun. fold st1. rewrite Hrest'.
    split; [reflexivity|]. split; [simpl; congruence|].
    constructor.
    + unfold emitted.
      destruct (_ || _); [destruct (negb _)|]; apply aget_In; lia.
    + apply (Forall_impl _ (fun b H => Permutation_in b (Permutation_sym Hperm) H) Hout).
Qed.

End CallsMore.

(** * More about mirrorfield_roll_chars *)

Section RollingMore.

Variable GRID_SIZE : Z.
Hypothesis GRID_SIZE_ge2 : 2 <= GRID_SIZE.

(** X6: the roll is the same whichever end of the ray is called the
    start: with the positions exchanged the call leaves the same
    perimeter, and remembers the two positions in the other order. *)
Theorem roll_chars_exchange (fuel : nat) (s e : Z) (st : state) :
  wf GRID_SIZE st -> NoDup (perimeterChars st) ->
  0 <= s < 4 * GRID_SIZE -> 0 <= e < 4 * GRID_SIZE -> (5 <= fuel)%nat ->
  exists perim',
    mirrorfield_roll_chars GRID_SIZE fuel s e st =
    Ret (mkState (grid st) perim' (set_i st) (evenodd st) s e) /\
    mirrorfield_roll_chars GRID_SIZE fuel e s st =
    Ret (mkState (grid st) perim' (set_i st) (evenodd st) e s).
Proof.
  intros Hwf Hnd Hs He Hfuel.
  destruct (roll_chars_symmetric GRID_SIZE GRID_SIZE_ge2 fuel s e st st
              Hwf Hwf Hnd Hs He Hfuel eq_refl (or_introl (conj eq_refl eq_refl)))
    as (perim' & _ & H1 & H2).
  exists perim'; auto.
Qed.

(** X7: the roll moves both bytes. When the two positions differ and the
    perimeter holds no byte twice, neither position holds after the call
    the byte it held before, and the perimeter is still a permutation of
    what it was. *)
Theorem roll_chars_moves_both (fuel : nat) (s e : Z) (st : state) :
  wf GRID_SIZE st -> NoDup (perimeterChars st) ->
  0 <= s < 4 * GRID_SIZE -> 0 <= e < 4 * GRID_SIZE -> s <> e ->
  (5 <= fuel)%nat ->
  exists st',
    mirrorfield_roll_chars GRID_SIZE fuel s e st = Ret st' /\
    aget (perimeterChars st') s <> aget (perimeterChars st) s /\
    aget (perimeterChars st') e <> aget (perimeterChars st) e /\
    Permutation (perimeterChars st) (perimeterChars st').
Proof.
  intros Hwf Hnd Hs He Hse Hfuel.
  destruct (roll_chars_Permutation GRID_SIZE GRID_SIZE_ge2 fuel s e st Hwf Hs He Hfuel)
    as (pa & Ha & Hperm).
  destruct (roll_chars_unfold GRID_SIZE GRID_SIZE_ge2 fuel s e st Hwf Hs He Hfuel)
    as (rs & re & Hrs & Hre & Rrs & Rre & Hroll).
  destruct Hwf as (_ & Lp & Hb).
  set (p := perimeterChars st) in *.
  assert (Lp' : Z.of_nat (length p) = 4 * GRID_SIZE) by lia.
  pose proof (aget_byte p s Hb). pose proof (aget_byte p (neigh s) Hb).
  pose proof (aget_byte p e Hb). pose proof (aget_byte p (neigh e) Hb).
  apply roll_avoid_range in Hrs; [|exact GRID_SIZE_ge2|apply Z.mod_pos_bound; lia].
  apply roll_avoid_range in Hre; [|exact GRID_SIZE_ge2|apply Z.mod_pos_bound; lia].
  destruct Hrs as (_ & Hrs1 & Hrs2 & _). destruct Hre as (_ & Hre1 & Hre2 & _).
  assert (Hdiff : forall i j, 0 <= i < 4 * GRID_SIZE -> 0 <= j < 4 * GRID_SIZE ->
                              i <> j -> aget p i <> aget p j).
  { intros i j Hi Hj Hij E; apply Hij.
    apply (NoDup_aget_inj p); auto; lia. }
  eexists; split; [exact Hroll|]. cbn [perimeterChars].
  split; [|split].
  - destruct (_ >? _); rewrite !roll_one_get by (rewrite ?roll_one_length; lia).
    + destruct (Z.eqb_spec s re); [lia|]. destruct (Z.eqb_spec s e); [lia|].
      destruct (Z.eqb_spec s rs); [lia|]. rewrite Z.eqb_refl. apply Hdiff; auto.
    + destruct (Z.eqb_spec s rs); [lia|]. rewrite Z.eqb_refl.
      destruct (Z.eqb_spec rs re).
      * apply Hdiff; auto.
      * destruct (Z.eqb_spec rs e); [lia|]. apply Hdiff; auto.
  - destruct (_ >? _); rewrite !roll_one_get by (rewrite ?roll_one_length; lia).
    + destruct (Z.eqb_spec e re); [lia|]. rewrite Z.eqb_refl.
      destruct (Z.eqb_spec re rs).
      * apply Hdiff; auto.
      * destruct (Z.eqb_spec re s); [lia|]. apply Hdiff; auto.
    + destruct (Z.eqb_spec e rs); [lia|]. destruct (Z.eqb_spec e s); [lia|].
      destruct (Z.eqb_spec e re); [lia|]. rewrite Z.eqb_refl. apply Hdiff; auto.
  - rewrite Ha in Hroll; inversion Hroll as [Hpa]. rewrite <- Hpa. exact Hperm.
Qed.

(** X8: where a collision loop ends. From a position of the perimeter
    the loop leaves after at most four moves, at a position that is still
    on the perimeter and is none of the four it avoids; more fuel than
    five does not change the result. *)
Theorem roll_avoid_lands (fuel : nat) (pos a b c d : Z) :
  0 <= pos < 4 * GRID_SIZE -> (5 <= fuel)%nat ->
  exists x,
    roll_avoid GRID_SIZE 5 pos a b c d = Some x /\
    roll_avoid GRID_SIZE fuel pos a b c d = Some x /\
    0 <= x < 4 * GRID_SIZE /\ x <> a /\ x <> b /\ x <> c /\ x <> d.
Proof.
  intros Hpos Hfuel.
  destruct (roll_avoid_returns GRID_SIZE GRID_SIZE_ge2 5 pos a b c d Hpos (le_n 5))
    as [x Hx].
  exists x. split; [exact Hx|]. split.
  - clear Hpos. revert pos Hx.
    assert (Hmono : forall f1 f2 pos, (f1 <= f2)%nat ->
              roll_avoid GRID_SIZE f1 pos a b c d = Some x ->
              roll_avoid GRID_SIZE f2 pos a b c d = Some x).
    { induction f1 as [|f1 IH]; intros f2 pos0 Hle H; [discriminate|].
      destruct f2 as [|f2]; [lia|].
      rewrite roll_avoid_step in *.
      destruct (_ || _); [apply IH; [lia|exact H]|exact H]. }
    intros pos0 Hx. exact (Hmono 5%nat fuel pos0 Hfuel Hx).
  - exact (roll_avoid_range GRID_SIZE GRID_SIZE_ge2 5 pos a b c d x Hpos Hx).
Qed.

End RollingMore.

(** * More about loading: whole keys, short keys, a second load *)

Section LoadingMore.

Variable GRID_SIZE : Z.
Hypothesis GRID_SIZE_pos : 0 < GRID_SIZE.

Lemma aset_app_mid (l1 l2 : list Z) (x v : Z) :
  aset (l1 ++ x :: l2) (Z.of_nat (length l1)) v = l1 ++ v :: l2.
Proof.
  unfold aset. destruct (Z.ltb_spec (Z.of_nat (length l1)) 0) as [H|_]; [lia|].
  rewrite Nat2Z.id. induction l1 as [|y t IH]; simpl; [reflexivity|].
  rewrite IH; reflexivity.
Qed.

Lemma set_all_app (a b : list Z) (st : state) :
  set_all GRID_SIZE (a ++ b) st =
  (fst (set_all GRID_SIZE a st)
   ++ fst (set_all GRID_SIZE b (snd (set_all GRID_SIZE a st))),
   snd (set_all GRID_SIZE b (snd (set_all GRID_SIZE a st)))).
Proof.
  revert st; induction a as [|ch rest IH]; intros st.
  - cbn. destruct (set_all GRID_SIZE b st); reflexivity.
  - cbn [app set_all].
    destruct (mirrorfield_set GRID_SIZE ch st) as [ok st1].
    rewrite IH.
    destruct (set_all GRID_SIZE rest st1) as [oks st2]. reflexivity.
Qed.

Lemma mirrorfield_set_glyph (g c : Z) (st : state) :
  set_i st + 1 < GRID_SIZE * GRID_SIZE -> cell_code g = Some c ->
  mirrorfield_set GRID_SIZE g st =
  (1, mkState (aset (grid st) (set_i st + 1) c) (perimeterChars st)
              (set_i st + 1) (evenodd st) (lastStartCharPos st) (lastEndCharPos st)).
Proof.
  intros Hk Hc. unfold mirrorfield_set. rewrite cell_index.
  destruct (Z.ltb_spec (set_i st + 1) (GRID_SIZE * GRID_SIZE)); [|lia].
  unfold cell_code in Hc.
  destruct (g =? char_slash) eqn:E1; [inversion Hc; reflexivity|].
  destruct (g =? char_minus) eqn:E3.
  { apply Z.eqb_eq in E3; subst g. inversion Hc; reflexivity. }
  destruct (g =? char_backslash) eqn:E2; [inversion Hc; reflexivity|].
  destruct (g =? char_space) eqn:E4; [inversion Hc; reflexivity|discriminate].
Qed.

Lemma mirrorfield_set_byte (b : Z) (st : state) :
  GRID_SIZE * GRID_SIZE <= set_i st + 1 < GRID_SIZE * GRID_SIZE + 4 * GRID_SIZE ->
  mirrorfield_set GRID_SIZE b st =
  (1, mkState (grid st)
              (aset (perimeterChars st) (set_i st + 1 - GRID_SIZE * GRID_SIZE) b)
              (set_i st + 1) (evenodd st) (lastStartCharPos st) (lastEndCharPos st)).
Proof.
  intros Hk. unfold mirrorfield_set.
  destruct (Z.ltb_spec (set_i st + 1) (GRID_SIZE * GRID_SIZE)); [lia|].
  destruct (Z.ltb_spec (set_i st + 1 - GRID_SIZE * GRID_SIZE) (GRID_SIZE * 4)); [|lia].
  reflexivity.
Qed.

Lemma mirrorfield_set_full (b : Z) (st : state) :
  GRID_SIZE * GRID_SIZE + 4 * GRID_SIZE <= set_i st + 1 ->
  mirrorfield_set GRID_SIZE b st = (0, with_set_i st (set_i st + 1)).
Proof.
  intros Hk. unfold mirrorfield_set.
  destruct (Z.ltb_spec (set_i st + 1) (GRID_SIZE * GRID_SIZE)); [lia|].
  destruct (Z.ltb_spec (set_i st + 1 - GRID_SIZE * GRID_SIZE) (GRID_SIZE * 4)); [lia|].
  reflexivity.
Qed.

(** The grid phase of a load: the cells fill in order. *)
Lemma load_glyphs (todo cs : list Z) (st : state) :
  Forall (fun g => cell_code g <> None) todo ->
  grid st = cs ++ repeat 0 (length todo) ->
  set_i st + 1 = Z.of_nat (length cs) ->
  Z.of_nat (length cs + length todo) <= GRID_SIZE * GRID_SIZE ->
  exists cs',
    Forall2 (fun g c => cell_code g = Some c) todo cs' /\
    set_all GRID_SIZE todo st =
    (repeat 1 (length todo),
     mkState (cs ++ cs') (perimeterChars st) (set_i st + Z.of_nat (length todo))
             (evenodd st) (lastStartCharPos st) (lastEndCharPos st)).
Proof.
  revert cs st; induction todo as [|g rest IH]; intros cs st Hg Hgrid Hi Hlen.
  - exists []; split; [constructor|]. cbn in *.
    rewrite app_nil_r in *. rewrite <- Hgrid, Z.add_0_r. destruct st; reflexivity.
  - inversion Hg as [|? ? Hg1 Hg2]; subst.
    destruct (cell_code g) as [c|] eqn:Ec; [|congruence].
    cbn [length] in Hlen.
    cbn [set_all]. rewrite (mirrorfield_set_glyph g c st) by (auto; lia).
    set (st1 := mkState _ _ _ _ _ _).
    destruct (IH (cs ++ [c]) st1 Hg2) as (cs' & Hcs' & Hrun).
    + subst st1; cbn [grid]. rewrite Hgrid, Hi. cbn [length repeat].
      rewrite aset_app_mid, <- app_assoc. reflexivity.
    + subst st1; cbn [set_i]. rewrite length_app; cbn [length]. lia.
    + rewrite length_app; cbn [length]. lia.
    + exists (c :: cs'); split; [constructor; auto|].
      rewrite Hrun. subst st1; cbn [perimeterChars set_i evenodd lastStartCharPos
                                      lastEndCharPos length repeat].
      rewrite <- app_assoc. cbn [app]. do 2 f_equal. lia.
Qed.

(** The perimeter phase of a load: the slots fill in order, the slots
    not reached keep what they held. *)
Lemma load_bytes (todo bs tail : list Z) (st : state) :
  perimeterChars st = bs ++ repeat 0 (length todo) ++ tail ->
  set_i st + 1 = GRID_SIZE * GRID_SIZE + Z.of_nat (length bs) ->
  Z.of_nat (length bs + length todo) <= 4 * GRID_SIZE ->
  set_all GRID_SIZE todo st =
  (repeat 1 (length todo),
   mkState (grid st) (bs ++ todo ++ tail) (set_i st + Z.of_nat (length todo))
           (evenodd st) (lastStartCharPos st) (lastEndCharPos st)).
Proof.
  revert bs st; induction todo as [|b rest IH]; intros bs st Hp Hi Hlen.
  - cbn in *. rewrite <- Hp, Z.add_0_r. destruct st; reflexivity.
  - cbn [length] in Hlen.
    cbn [set_all]. rewrite (mirrorfield_set_byte b st) by lia.
    set (st1 := mkState _ _ _ _ _ _).
    rewrite (IH (bs ++ [b]) st1).
    + subst st1; cbn [grid set_i evenodd lastStartCharPos lastEndCharPos
                        length repeat].
      rewrite <- app_assoc. cbn [app]. do 2 f_equal. lia.
    + subst st1; cbn [perimeterChars]. rewrite Hp.
      replace (set_i st + 1 - GRID_SIZE * GRID_SIZE) with (Z.of_nat (length bs)) by lia.
      cbn [length repeat app]. rewrite aset_app_mid, <- app_assoc. reflexivity.
    + subst st1; cbn [set_i]. rewrite length_app; cbn [length]. lia.
    + rewrite length_app; cbn [length]. lia.
Qed.

Lemma cell_code_range (g c : Z) : cell_code g = Some c -> 0 <= c <= 3.
Proof.
  unfold cell_code.
  repeat match goal with
         | |- context [if ?b then _ else _] => destruct b
         end; intros H; inversion H; lia.
Qed.

Lemma loaded_grid_ok (glyphs cs : list Z) :
  Forall2 (fun g c => cell_code g = Some c) glyphs cs -> grid_ok GRID_SIZE cs.
Proof.
  intros H.
  assert (Hall : Forall (fun c => 0 <= c <= 3) cs).
  { induction H as [|g c gs cs' Hc _ IH]; constructor; auto.
    exact (cell_code_range g c Hc). }
  intros t _. unfold aget.
  destruct (Nat.lt_ge_cases (Z.to_nat t) (length cs)) as [Hlt|Hge].
  - exact (proj1 (Forall_forall _ cs) Hall _ (nth_In cs 0 Hlt)).
  - rewrite nth_overflow by lia; lia.
Qed.

(** With the grid in range, validation is the test that no byte stands
    twice on the perimeter. *)
Lemma validate_iff_NoDup (st : state) :
  length (perimeterChars st) = Z.to_nat (GRID_SIZE * 4) ->
  grid_ok GRID_SIZE (grid st) ->
  (mirrorfield_validate GRID_SIZE st = 1 <-> NoDup (perimeterChars st)).
Proof.
  intros Lp Hok. rewrite (proj1 (validate_cases GRID_SIZE st)). split.
  - intros [_ Hp].
    apply (proj2 (NoDup_nth (perimeterChars st) 0)); intros i j Hi Hj H.
    destruct (Nat.eq_dec i j) as [|Hne]; auto.
    exfalso; apply (Hp (Z.of_nat i) (Z.of_nat j)); try lia.
    unfold aget; rewrite !Nat2Z.id; exact H.
  - intros Hnd; split; [exact Hok|].
    intros i j Hi Hj Hne H; apply Hne.
    apply (NoDup_aget_inj (perimeterChars st)); auto; lia.
Qed.

Lemma fresh_load (glyphs bytes tail : list Z) :
  Z.of_nat (length glyphs) = GRID_SIZE * GRID_SIZE ->
  Z.of_nat (length bytes + length tail) = 4 * GRID_SIZE ->
  Forall (fun g => cell_code g <> None) glyphs ->
  tail = repeat 0 (length tail) ->
  exists cs,
    Forall2 (fun g c => cell_code g = Some c) glyphs cs /\
    set_all GRID_SIZE (glyphs ++ bytes) (fresh_state GRID_SIZE) =
    (repeat 1 (length glyphs + length bytes),
     mkState cs (bytes ++ tail)
             (GRID_SIZE * GRID_SIZE + Z.of_nat (length bytes) - 1) 0 (-1) (-1)).
Proof.
  intros Lg Lb Hg Htail.
  destruct (load_glyphs glyphs [] (fresh_state GRID_SIZE) Hg) as (cs & Hcs & Hrun1).
  { cbn. f_equal. lia. }
  { reflexivity. }
  { cbn [length]; lia. }
  exists cs; split; [exact Hcs|].
  rewrite set_all_app, Hrun1. cbn [fst snd app].
  rewrite (load_bytes bytes [] tail).
  - cbn [grid set_i evenodd lastStartCharPos lastEndCharPos fresh_state app
              fst snd].
    rewrite repeat_app.
    replace (-1 + Z.of_nat (length glyphs) + Z.of_nat (length bytes))
      with (GRID_SIZE * GRID_SIZE + Z.of_nat (length bytes) - 1) by lia.
    reflexivity.
  - cbn [perimeterChars fresh_state app fst snd]. rewrite Htail.
    rewrite <- repeat_app. f_equal. lia.
  - cbn [set_i fresh_state length]. lia.
  - cbn [length]; lia.
Qed.

(** X9: a whole key is stored as it is given. Fed [GRID_SIZE * GRID_SIZE]
    mirror glyphs and then [4 * GRID_SIZE] bytes, every call of
    [mirrorfield_set] answers 1, the grid holds the codes of the glyphs in
    order, the perimeter holds the bytes in order, and the engine passes
    [mirrorfield_validate] exactly when no byte stands twice among them. *)
Theorem load_stores_key (glyphs bytes : list Z) :
  Z.of_nat (length glyphs) = GRID_SIZE * GRID_SIZE ->
  Z.of_nat (length bytes) = 4 * GRID_SIZE ->
  Forall (fun g => cell_code g <> None) glyphs ->
  let loaded := set_all GRID_SIZE (glyphs ++ bytes) (fresh_state GRID_SIZE) in
  fst loaded = repeat 1 (length glyphs + length bytes) /\
  Forall2 (fun g c => cell_code g = Some c) glyphs (grid (snd loaded)) /\
  perimeterChars (snd loaded) = bytes /\
  (mirrorfield_validate GRID_SIZE (snd loaded) = 1 <-> NoDup bytes).
Proof.
  intros Lg Lb Hg loaded.
  destruct (fresh_load glyphs bytes [] Lg ltac:(cbn [length]; lia) Hg eq_refl)
    as (cs & Hcs & Hrun).
  subst loaded. rewrite Hrun. cbn [fst snd grid perimeterChars].
  rewrite app_nil_r.
  split; [reflexivity|]. split; [exact Hcs|]. split; [reflexivity|].
  rewrite validate_iff_NoDup; cbn [grid perimeterChars].
  - reflexivity.
  - lia.
  - exact (loaded_grid_ok glyphs cs Hcs).
Qed.

(** X10: an engine that was not loaded does not validate: after
    [mirrorfield_init], as at program start, the perimeter is all zero
    and [mirrorfield_validate] answers 0. *)
Theorem unloaded_engine_invalid (st : state) :
  mirrorfield_validate GRID_SIZE (mirrorfield_init GRID_SIZE st) = 0 /\
  mirrorfield_validate GRID_SIZE (fresh_state GRID_SIZE) = 0.
Proof.
  assert (H : forall s, perimeterChars s = repeat 0 (Z.to_nat (GRID_SIZE * 4)) ->
                        mirrorfield_validate GRID_SIZE s = 0).
  { intros s Hp.
    destruct (validate_cases GRID_SIZE s) as [Hiff [H1|H0]]; [|exact H0].
    exfalso. apply Hiff in H1. destruct H1 as [_ Hd].
    apply (Hd 0 1); try lia.
    rewrite Hp, !aget_repeat by lia. reflexivity. }
  split; apply H; reflexivity.
Qed.

(** X11: a key that is one byte short is not refused. Fed the mirror
    glyphs and only [4 * GRID_SIZE - 1] bytes, different from each other
    and from 0, every call answers 1, the last slot keeps the 0 of the
    initialisation, and [mirrorfield_validate] answers 1. *)
Theorem short_key_validates (glyphs bytes : list Z) :
  Z.of_nat (length glyphs) = GRID_SIZE * GRID_SIZE ->
  Z.of_nat (length bytes) = 4 * GRID_SIZE - 1 ->
  Forall (fun g => cell_code g <> None) glyphs ->
  NoDup bytes -> ~ In 0 bytes ->
  let loaded := set_all GRID_SIZE (glyphs ++ bytes) (fresh_state GRID_SIZE) in
  fst loaded = repeat 1 (length glyphs + length bytes) /\
  perimeterChars (snd loaded) = bytes ++ [0] /\
  mirrorfield_validate GRID_SIZE (snd loaded) = 1.
Proof.
  intros Lg Lb Hg Hnd H0 loaded.
  destruct (fresh_load glyphs bytes [0] Lg ltac:(cbn [length]; lia) Hg eq_refl)
    as (cs & Hcs & Hrun).
  subst loaded. rewrite Hrun. cbn [fst snd grid perimeterChars].
  split; [reflexivity|]. split; [reflexivity|].
  apply validate_iff_NoDup; cbn [grid perimeterChars].
  - rewrite length_app; cbn [length]. lia.
  - exact (loaded_grid_ok glyphs cs Hcs).
  - apply (Permutation_NoDup (l := 0 :: bytes)).
    + apply Permutation_cons_append.
    + constructor; assumption.
Qed.

(** X12: [mirrorfield_init] does not rewind the loader. Once
    [GRID_SIZE * GRID_SIZE + 4 * GRID_SIZE] calls of [mirrorfield_set]
    or more have been made, every call made after a [mirrorfield_init]
    answers 0 and stores nothing: the arrays stay zeroed and the engine
    does not validate. This holds for as long as the counter of the
    calls stays within [INT_MAX], that is for at most 2^31 calls in all;
    the counter is then still within [INT_MAX] after the last call. *)
Theorem init_does_not_rewind (key1 key2 : list Z) :
  GRID_SIZE * GRID_SIZE + 4 * GRID_SIZE <= Z.of_nat (length key1) ->
  Z.of_nat (length key1) + Z.of_nat (length key2) <= INT_MAX + 1 ->
  let st := snd (set_all GRID_SIZE key1 (fresh_state GRID_SIZE)) in
  let again := set_all GRID_SIZE key2 (mirrorfield_init GRID_SIZE st) in
  set_i (snd again) <= INT_MAX /\
  fst again = repeat 0 (length key2) /\
  grid (snd again) = repeat 0 (Z.to_nat (GRID_SIZE * GRID_SIZE)) /\
  perimeterChars (snd again) = repeat 0 (Z.to_nat (GRID_SIZE * 4)) /\
  mirrorfield_validate GRID_SIZE (snd again) = 0.
Proof.
  intros Hlen Hint st again.
  assert (Hi : GRID_SIZE * GRID_SIZE + 4 * GRID_SIZE <=
               set_i (mirrorfield_init GRID_SIZE st) + 1).
  { unfold st. cbn [mirrorfield_init with_perimeterChars with_grid set_i].
    rewrite set_all_counter. cbn [fresh_state set_i]. lia. }
  assert (Hover : forall key s,
             GRID_SIZE * GRID_SIZE + 4 * GRID_SIZE <= set_i s + 1 ->
             fst (set_all GRID_SIZE key s) = repeat 0 (length key) /\
             grid (snd (set_all GRID_SIZE key s)) = grid s /\
             perimeterChars (snd (set_all GRID_SIZE key s)) = perimeterChars s).
  { induction key as [|b rest IH]; intros s Hs; [cbn; auto|].
    cbn [set_all]. rewrite (mirrorfield_set_full b s Hs).
    destruct (IH (with_set_i s (set_i s + 1))) as (A & B & C).
    { cbn [with_set_i set_i]. lia. }
    destruct (set_all GRID_SIZE rest (with_set_i s (set_i s + 1))) as [oks s2].
    cbn [fst snd] in *. rewrite A, B, C. auto. }
  destruct (Hover key2 _ Hi) as (A & B & C). fold again in A, B, C.
  split.
  { unfold again, st. rewrite set_all_counter.
    cbn [mirrorfield_init with_perimeterChars with_grid set_i].
    rewrite set_all_counter. cbn [fresh_state set_i]. lia. }
  split; [exact A|]. split; [exact B|]. split; [exact C|].
  destruct (validate_cases GRID_SIZE (snd again)) as [Hiff [H1|H0]]; [|exact H0].
  exfalso. apply Hiff in H1. destruct H1 as [_ Hd].
  apply (Hd 0 1); try lia.
  rewrite C. cbn [mirrorfield_init with_perimeterChars perimeterChars].
  rewrite !aget_repeat by lia. reflexivity.
Qed.

End LoadingMore.

(** * More about the key file: what keyfile_create writes *)

Section KeyfileMore.

Lemma draw_other_one (draws : list nat) : draw_other draws 1 0 = None.
Proof.
  induction draws as [|x t IH]; cbn [draw_other]; [reflexivity|].
  rewrite Nat.mod_1_r. exact IH.
Qed.

(** X15: a string of one character cannot be shuffled. With [p] at least
    1 the rejection loop refuses every draw, whatever the supply: the
    call does not return. *)
Theorem shuffle_one_char_never_returns (c : ascii) (p : Z) (draws : list nat) :
  0 < p -> keyfile_shuffle_string [c] p draws = NoMoreDraws.
Proof.
  intros Hp. destruct draws as [|x draws]; [reflexivity|].
  rewrite keyfile_shuffle_string_unfold by discriminate.
  cbn [length]. rewrite Nat.mod_1_r.
  destruct (Z.to_nat p) as [|n] eqn:E; [lia|].
  cbn [shuffle_loop length]. rewrite draw_other_one. reflexivity.
Qed.

Lemma shuffled_Permutation (str : list ascii) (p : Z) (draws : list nat)
      (str' : list ascii) (rest : list nat) :
  keyfile_shuffle_string str p draws = Shuffled str' rest ->
  Permutation str str'.
Proof.
  destruct str as [|c0 str0]; [discriminate|].
  destruct draws as [|x draws]; [discriminate|].
  rewrite keyfile_shuffle_string_unfold by discriminate.
  set (str := c0 :: str0). set (sIndex := (x mod length str)%nat).
  assert (Hs : (sIndex < length str)%nat)
    by (apply Nat.mod_upper_bound; discriminate).
  destruct (shuffle_loop _ str _ sIndex draws) as [[[s1 c1] d1]|] eqn:E;
    [|discriminate].
  intros H; inversion H; subst.
  apply (shuffle_loop_Permutation (Z.to_nat p) str str (nth sIndex str zero)
           sIndex draws s1 c1 rest Hs); [|exact E].
  rewrite upd_nth_same; apply Permutation_refl.
Qed.

Lemma mirror_glyph_cases (x : nat) :
  mirror_glyph x = "/"%char \/ mirror_glyph x = "\"%char \/ mirror_glyph x = " "%char.
Proof.
  unfold mirror_glyph.
  destruct (x mod MIRROR_DENSITY)%nat as [|[|[|n]]]; auto.
Qed.

Lemma write_row_spec (cols : nat) (draws : list nat) (gs : list ascii)
      (rest : list nat) :
  write_row cols draws = Some (gs, rest) ->
  length gs = cols /\
  Forall (fun g => g = "/"%char \/ g = "\"%char \/ g = " "%char) gs.
Proof.
  revert draws gs rest; induction cols as [|cols IH]; intros draws gs rest;
    cbn [write_row].
  - intros H; inversion H; auto.
  - destruct draws as [|x draws]; [discriminate|].
    destruct (write_row cols draws) as [[gs' rest']|] eqn:E; [|discriminate].
    intros H; inversion H; subst. destruct (IH _ _ _ E) as [L F].
    split; [simpl; congruence|]. constructor; [apply mirror_glyph_cases|exact F].
Qed.

Lemma write_rows_spec (rows cols : nat) (draws : list nat) (gs : list ascii)
      (rest : list nat) :
  write_rows rows cols draws = Some (gs, rest) ->
  length gs = (rows * cols)%nat /\
  Forall (fun g => g = "/"%char \/ g = "\"%char \/ g = " "%char) gs.
Proof.
  revert draws gs rest; induction rows as [|rows IH]; intros draws gs rest;
    cbn [write_rows].
  - intros H; inversion H; auto.
  - destruct (write_row cols draws) as [[g1 d1]|] eqn:E1; [|discriminate].
    destruct (write_rows rows cols d1) as [[g2 d2]|] eqn:E2; [|discriminate].
    intros H; inversion H; subst.
    destruct (write_row_spec _ _ _ _ E1) as [L1 F1].
    destruct (IH _ _ _ E2) as [L2 F2].
    split; [rewrite length_app; simpl; lia|apply Forall_app; auto].
Qed.

Lemma write_chars_fst (s : list ascii) : map fst (write_chars s) = s.
Proof.
  induction s as [|c t IH]; [reflexivity|].
  cbn [write_chars]. destruct t as [|c' t']; [reflexivity|].
  cbn [map fst] in *. rewrite IH. reflexivity.
Qed.

Lemma write_chars_length (s : list ascii) : length (write_chars s) = length s.
Proof.
  rewrite <- (write_chars_fst s) at 2. rewrite length_map. reflexivity.
Qed.

Lemma write_chars_snd (s : list ascii) :
  s <> [] ->
  map snd (write_chars s) = repeat B64_NOFORCE (length s - 1) ++ [B64_FORCE].
Proof.
  induction s as [|c t IH]; [congruence|]. intros _.
  cbn [write_chars]. destruct t as [|c' t']; [reflexivity|].
  cbn [map snd]. rewrite IH by discriminate.
  replace (length (c :: c' :: t') - 1)%nat with (S (length (c' :: t') - 1))
    by (cbn [length]; lia).
  reflexivity.
Qed.

Lemma created_parts (GRID_SIZE : Z) (SUPPORTED_CHARS : list ascii)
      (draws : list nat) (ws : list (ascii * b64_flag)) (rest : list nat) :
  0 <= GRID_SIZE ->
  keyfile_create_writes GRID_SIZE SUPPORTED_CHARS draws
  = Created ws rest ->
  exists gs shuffled,
    ws = map (fun g => (g, B64_NOFORCE)) gs ++ write_chars shuffled /\
    Z.of_nat (length gs) = GRID_SIZE * GRID_SIZE /\
    Forall (fun g => g = "/"%char \/ g = "\"%char \/ g = " "%char) gs /\
    Permutation SUPPORTED_CHARS shuffled /\ SUPPORTED_CHARS <> [].
Proof.
  intros HN. unfold keyfile_create_writes.
  destruct (write_rows _ _ draws) as [[gs d1]|] eqn:E1; [|discriminate].
  destruct (keyfile_shuffle_string SUPPORTED_CHARS 1000 d1) as [s' r'| |] eqn:E2;
    try discriminate.
  intros H; inversion H; subst.
  destruct (write_rows_spec _ _ _ _ _ E1) as [L F].
  exists gs, s'. split; [reflexivity|]. split; [rewrite L; lia|].
  split; [exact F|]. split; [exact (shuffled_Permutation _ _ _ _ _ E2)|].
  intros ->; discriminate.
Qed.

(** X13: what [keyfile_create] writes. The characters handed to the
    encoder are [GRID_SIZE * GRID_SIZE] mirror glyphs, each a slash, a
    backslash or a space (never a minus), followed by a permutation of
    [SUPPORTED_CHARS]; the last write, and no other, carries
    [B64_FORCE]. *)
Theorem keyfile_create_writes_shape (GRID_SIZE : Z) (SUPPORTED_CHARS : list ascii)
        (draws : list nat) (ws : list (ascii * b64_flag)) (rest : list nat) :
  0 <= GRID_SIZE ->
  keyfile_create_writes GRID_SIZE SUPPORTED_CHARS draws
  = Created ws rest ->
  exists gs shuffled,
    map fst ws = gs ++ shuffled /\
    Z.of_nat (length gs) = GRID_SIZE * GRID_SIZE /\
    Forall (fun g => g = "/"%char \/ g = "\"%char \/ g = " "%char) gs /\
    Permutation SUPPORTED_CHARS shuffled /\
    map snd ws = repeat B64_NOFORCE (length ws - 1) ++ [B64_FORCE].
Proof.
  intros HN H.
  destruct (created_parts GRID_SIZE SUPPORTED_CHARS draws ws rest HN H)
    as (gs & s' & -> & L & F & P & Hne).
  exists gs, s'.
  assert (Hs' : s' <> []).
  { intros ->. apply Permutation_sym, Permutation_nil in P. contradiction. }
  split; [rewrite map_app, map_map, write_chars_fst; cbn [fst];
          rewrite map_id; reflexivity|].
  split; [exact L|]. split; [exact F|]. split; [exact P|].
  rewrite map_app, map_map, write_chars_snd by exact Hs'. cbn [snd].
  rewrite length_app, length_map, write_chars_length.
  replace (map (fun _ : ascii => B64_NOFORCE) gs)
    with (repeat B64_NOFORCE (length gs))
    by (clear; induction gs; simpl; congruence).
  rewrite app_assoc, <- repeat_app. do 2 f_equal.
  destruct s'; [congruence|]. cbn [length]. lia.
Qed.

Lemma write_row_returns (cells draws : list nat) :
  write_row (length cells) (cells ++ draws) = Some (map mirror_glyph cells, draws).
Proof.
  induction cells as [|x t IH]; [reflexivity|].
  cbn [length app write_row map]. rewrite IH. reflexivity.
Qed.

Lemma write_rows_returns (rows cols : nat) (cells draws : list nat) :
  length cells = (rows * cols)%nat ->
  write_rows rows cols (cells ++ draws) = Some (map mirror_glyph cells, draws).
Proof.
  revert cells; induction rows as [|rows IH]; intros cells L.
  - destruct cells; [reflexivity|discriminate].
  - cbn [write_rows].
    rewrite <- (firstn_skipn cols cells), <- app_assoc.
    assert (L1 : length (firstn cols cells) = cols)
      by (rewrite length_firstn; simpl in L; lia).
    assert (L2 : length (skipn cols cells) = (rows * cols)%nat)
      by (rewrite length_skipn; simpl in L; lia).
    rewrite <- L1 at 1. rewrite write_row_returns.
    rewrite (IH _ L2), map_app. reflexivity.
Qed.

Lemma shuffle_returns (str : list ascii) (p : Z) (draws : list nat) :
  str <> [] -> enough_draws str p draws ->
  exists str' rest, keyfile_shuffle_string str p draws = Shuffled str' rest.
Proof.
  intros Hne He. destruct draws as [|x draws]; [contradiction|].
  rewrite keyfile_shuffle_string_unfold by exact Hne.
  unfold enough_draws in He.
  destruct (shuffle_loop_returns (Z.to_nat p) str
              (nth (x mod length str) str zero) (x mod length str) draws He)
    as ([[s1 c1] d1] & E).
  rewrite E. eauto.
Qed.

(** X16: [keyfile_create] returns, and what it draws. The double loop
    uses one draw a cell, row after row, and the shuffle runs on the draws
    that follow; when these hold a first draw and 1000 draws the rejection
    loop accepts, the writes are the glyphs of the cell draws followed by
    the characters of the shuffled string. *)
Theorem keyfile_create_returns (GRID_SIZE : Z) (SUPPORTED_CHARS : list ascii)
        (cells draws : list nat) :
  0 <= GRID_SIZE -> SUPPORTED_CHARS <> [] ->
  Z.of_nat (length cells) = GRID_SIZE * GRID_SIZE ->
  enough_draws SUPPORTED_CHARS 1000 draws ->
  exists shuffledChars rest,
    keyfile_shuffle_string SUPPORTED_CHARS 1000 draws = Shuffled shuffledChars rest /\
    keyfile_create_writes GRID_SIZE SUPPORTED_CHARS (cells ++ draws)
    = Created (map (fun x => (mirror_glyph x, B64_NOFORCE)) cells
               ++ write_chars shuffledChars) rest.
Proof.
  intros HN Hne L He.
  destruct (shuffle_returns SUPPORTED_CHARS 1000 draws Hne He) as (s' & rest & E).
  exists s', rest. split; [exact E|].
  unfold keyfile_create_writes.
  rewrite write_rows_returns by nia.
  rewrite E, map_map. reflexivity.
Qed.

Lemma byte_of_char_inj (a b : ascii) : byte_of_char a = byte_of_char b -> a = b.
Proof.
  unfold byte_of_char; intros H. apply N2Z.inj in H.
  rewrite <- (ascii_N_embedding a), <- (ascii_N_embedding b), H. reflexivity.
Qed.

Lemma glyph_bytes (gs : list ascii) :
  Forall (fun g => g = "/"%char \/ g = "\"%char \/ g = " "%char) gs ->
  Forall (fun g => cell_code g = Some 0 \/ cell_code g = Some 2 \/ cell_code g = Some 3)
         (map byte_of_char gs).
Proof.
  induction 1 as [|g t Hg _ IH]; cbn [map]; constructor; auto.
  destruct Hg as [-> | [-> | ->]]; cbn; auto.
Qed.

(** X14: a key that [keyfile_create] wrote is a key the engine accepts.
    When [SUPPORTED_CHARS] lists [4 * GRID_SIZE] different characters, the
    characters written, fed in order to [mirrorfield_set] on a fresh
    engine, are all accepted; the engine then passes
    [mirrorfield_validate], its perimeter is a permutation of
    [SUPPORTED_CHARS], and no cell of its grid holds a straight mirror. *)
Theorem created_key_loads (GRID_SIZE : Z) (SUPPORTED_CHARS : list ascii)
        (draws : list nat) (ws : list (ascii * b64_flag)) (rest : list nat) :
  0 < GRID_SIZE ->
  Z.of_nat (length SUPPORTED_CHARS) = 4 * GRID_SIZE ->
  NoDup SUPPORTED_CHARS ->
  keyfile_create_writes GRID_SIZE SUPPORTED_CHARS draws
  = Created ws rest ->
  let loaded := set_all GRID_SIZE (key_of_writes ws) (fresh_state GRID_SIZE) in
  fst loaded = repeat 1 (length ws) /\
  mirrorfield_validate GRID_SIZE (snd loaded) = 1 /\
  Permutation (map byte_of_char SUPPORTED_CHARS) (perimeterChars (snd loaded)) /\
  Forall (fun code => code <> MIRROR_STRAIGHT) (grid (snd loaded)).
Proof.
  intros HN HL Hnd H loaded.
  destruct (created_parts GRID_SIZE SUPPORTED_CHARS draws ws rest ltac:(lia) H)
    as (gs & s' & -> & L & F & P & Hne).
  assert (Hkey : key_of_writes (map (fun g => (g, B64_NOFORCE)) gs ++ write_chars s')
                 = map byte_of_char gs ++ map byte_of_char s').
  { unfold key_of_writes. rewrite map_app, map_map. cbn [fst]. f_equal.
    rewrite <- (write_chars_fst s') at 2. rewrite map_map. reflexivity. }
  pose proof (glyph_bytes gs F) as Hcodes.
  destruct (fresh_load GRID_SIZE HN (map byte_of_char gs) (map byte_of_char s') [])
    as (cs & Hcs & Hrun).
  { rewrite length_map; exact L. }
  { rewrite length_map, <- (Permutation_length P). cbn [length]. lia. }
  { revert Hcodes. apply Forall_impl. intros g [Hg | [Hg | Hg]]; congruence. }
  { reflexivity. }
  subst loaded. rewrite Hkey, Hrun. cbn [fst snd grid perimeterChars].
  rewrite app_nil_r.
  split; [|split; [|split]].
  - rewrite length_app, !length_map. rewrite <- (write_chars_fst s') at 1.
    rewrite length_map. reflexivity.
  - apply (validate_iff_NoDup GRID_SIZE HN); cbn [grid perimeterChars].
    + rewrite length_map, <- (Permutation_length P). lia.
    + exact (loaded_grid_ok GRID_SIZE _ cs Hcs).
    + apply Injective_map_NoDup; [exact byte_of_char_inj|].
      exact (Permutation_NoDup P Hnd).
  - apply Permutation_map; exact P.
  - clear Hrun Hkey. revert Hcodes.
    induction Hcs as [|g c gs' cs' Hc _ IH]; intros Hcodes; constructor.
    + inversion Hcodes as [|? ? Hg _]; subst.
      unfold MIRROR_STRAIGHT. destruct Hg as [Hg|[Hg|Hg]]; congruence.
    + inversion Hcodes; subst. auto.
Qed.

End KeyfileMore.

(** * The picture mirrorfield_draw prints *)

Section Drawing.

Variable GRID_SIZE : Z.
Hypothesis GRID_SIZE_pos : 0 < GRID_SIZE.

Lemma range_split (lo m hi : Z) :
  lo <= m <= hi -> range lo hi = range lo m ++ range m hi.
Proof.
  intros H. unfold range.
  replace (Z.to_nat (hi - lo)) with (Z.to_nat (m - lo) + Z.to_nat (hi - m))%nat by lia.
  rewrite seq_app, map_app. f_equal. cbn [Nat.add].
  assert (G : forall n k,
             map (fun j => lo + Z.of_nat j) (seq (Z.to_nat (m - lo) + k) n)
             = map (fun j => m + Z.of_nat j) (seq k n)).
  { induction n as [|n IH]; intros k; [reflexivity|].
    cbn [seq map]. f_equal; [lia|].
    rewrite <- Nat.add_succ_r. apply IH. }
  rewrite <- (G _ 0%nat), Nat.add_0_r. reflexivity.
Qed.

Lemma range_one (m : Z) : range m (m + 1) = [m].
Proof.
  unfold range. replace (m + 1 - m) with 1 by lia.
  change (Z.to_nat 1) with 1%nat. cbn [seq map Z.of_nat].
  rewrite Z.add_0_r. reflexivity.
Qed.

Lemma range_around (lo m hi : Z) :
  lo <= m < hi -> range lo hi = range lo m ++ [m] ++ range (m + 1) hi.
Proof.
  intros H. rewrite (range_split lo m hi) by lia.
  rewrite (range_split m (m + 1) hi) by lia. rewrite range_one. reflexivity.
Qed.

Lemma draw_cell_inside (st : state) (r c : Z) :
  0 <= r < GRID_SIZE -> 0 <= c < GRID_SIZE ->
  draw_cell GRID_SIZE st r c
  = if aget (grid st) (r * GRID_SIZE + c) =? MIRROR_FORWARD then Char2 char_slash
    else if aget (grid st) (r * GRID_SIZE + c) =? MIRROR_BACKWARD then Char2 char_backslash
    else if aget (grid st) (r * GRID_SIZE + c) =? MIRROR_STRAIGHT then Char2 char_minus
    else Char2 char_space.
Proof.
  intros Hr Hc. unfold draw_cell.
  destruct (Z.eqb_spec r (-1)); [lia|].
  destruct (Z.eqb_spec r GRID_SIZE); [lia|].
  destruct (Z.eqb_spec c (-1)); [lia|].
  destruct (Z.eqb_spec c GRID_SIZE); [lia|].
  reflexivity.
Qed.

Lemma Forall2_aget (P : Z -> Z -> Prop) (a b : list Z) (t : Z) :
  Forall2 P a b -> 0 <= t < Z.of_nat (length a) -> P (aget a t) (aget b t).
Proof.
  intros F Ht. unfold aget.
  assert (Hn : (Z.to_nat t < length a)%nat) by lia.
  clear Ht. revert Hn. generalize (Z.to_nat t). clear t.
  induction F as [|x y a b Hxy F IH]; intros n Hn; [simpl in Hn; lia|].
  destruct n as [|n]; [exact Hxy|]. cbn [nth]. apply IH. simpl in Hn; lia.
Qed.

(** X17: the picture shows the key as it was written. After a whole key
    has been loaded, the cell of row [r] and column [c] of the picture is
    printed with the glyph the key has for it, the glyph number
    [r * GRID_SIZE + c] of the key. *)
Theorem draw_shows_key_glyphs (glyphs bytes : list Z) (r c : Z) :
  Z.of_nat (length glyphs) = GRID_SIZE * GRID_SIZE ->
  Z.of_nat (length bytes) = 4 * GRID_SIZE ->
  Forall (fun g => cell_code g <> None) glyphs ->
  0 <= r < GRID_SIZE -> 0 <= c < GRID_SIZE ->
  draw_cell GRID_SIZE
            (snd (set_all GRID_SIZE (glyphs ++ bytes) (fresh_state GRID_SIZE))) r c
  = Char2 (aget glyphs (r * GRID_SIZE + c)).
Proof.
  intros Lg Lb Hg Hr Hc.
  destruct (fresh_load GRID_SIZE GRID_SIZE_pos glyphs bytes [] Lg
              ltac:(cbn [length]; lia) Hg eq_refl) as (cs & Hcs & Hrun).
  rewrite Hrun. cbn [snd]. rewrite draw_cell_inside by assumption.
  cbn [grid].
  assert (Ht : 0 <= r * GRID_SIZE + c < Z.of_nat (length glyphs)) by nia.
  pose proof (Forall2_aget _ glyphs cs _ Hcs Ht) as Hcode. cbv beta in Hcode.
  revert Hcode. generalize (aget glyphs (r * GRID_SIZE + c)) as g.
  generalize (aget cs (r * GRID_SIZE + c)) as code. intros code g.
  unfold cell_code, char_slash, char_minus, char_backslash, char_space,
    MIRROR_FORWARD, MIRROR_BACKWARD, MIRROR_STRAIGHT.
  destruct (Z.eqb_spec g 47); [intros H; inversion H; subst; reflexivity|].
  destruct (Z.eqb_spec g 45); [intros H; inversion H; subst; reflexivity|].
  destruct (Z.eqb_spec g 92); [intros H; inversion H; subst; reflexivity|].
  destruct (Z.eqb_spec g 32); [intros H; inversion H; subst; reflexivity|].
  discriminate.
Qed.

Lemma advance_exit_cell (st : state) (r c : Z) (d : direction) (r' c' e : Z) :
  0 <= r < GRID_SIZE -> 0 <= c < GRID_SIZE ->
  advance GRID_SIZE r c d (-1) = (r', c', e) -> 0 <= e ->
  0 <= e < 4 * GRID_SIZE /\
  draw_cell GRID_SIZE st r' c' = Hex2 (aget (perimeterChars st) e).
Proof.
  intros Hr Hc Ha He. unfold advance in Ha. unfold draw_cell.
  destruct d; cbv zeta in Ha.
  - destruct (Z.eqb_spec (r + 1) GRID_SIZE) as [E|E];
      injection Ha as <- <- <-; [|lia].
    split; [lia|].
    destruct (Z.eqb_spec (r + 1) (-1)); [lia|].
    destruct (Z.eqb_spec (r + 1) GRID_SIZE); [|lia].
    destruct (Z.eqb_spec c (-1)); [lia|].
    destruct (Z.eqb_spec c GRID_SIZE); [lia|].
    reflexivity.
  - destruct (Z.eqb_spec (c - 1) (-1)) as [E|E];
      injection Ha as <- <- <-; [|lia].
    split; [lia|].
    destruct (Z.eqb_spec r (-1)); [lia|].
    destruct (Z.eqb_spec r GRID_SIZE); [lia|].
    destruct (Z.eqb_spec (c - 1) (-1)); [|lia].
    destruct (Z.eqb_spec (c - 1) GRID_SIZE); [lia|].
    reflexivity.
  - destruct (Z.eqb_spec (c + 1) GRID_SIZE) as [E|E];
      injection Ha as <- <- <-; [|lia].
    split; [lia|].
    destruct (Z.eqb_spec r (-1)); [lia|].
    destruct (Z.eqb_spec r GRID_SIZE); [lia|].
    destruct (Z.eqb_spec (c + 1) (-1)); [lia|].
    destruct (Z.eqb_spec (c + 1) GRID_SIZE); [|lia].
    reflexivity.
  - destruct (Z.eqb_spec (r - 1) (-1)) as [E|E];
      injection Ha as <- <- <-; [|lia].
    split; [lia|].
    destruct (Z.eqb_spec (r - 1) (-1)); [|lia].
    destruct (Z.eqb_spec c (-1)); [lia|].
    destruct (Z.eqb_spec c GRID_SIZE); [lia|].
    destruct (Z.eqb_spec (r - 1) GRID_SIZE); reflexivity.
Qed.

(** X18: the border of the picture follows the numbering of the end
    positions. When the step of the traversal leaves the grid and sets
    the end position [e], the place of the picture the step arrives at
    shows the byte of the perimeter slot [e]. *)
Theorem draw_exit_byte (st : state) (r c : Z) (d : direction) (r' c' e : Z) :
  0 <= r < GRID_SIZE -> 0 <= c < GRID_SIZE ->
  advance GRID_SIZE r c d (-1) = (r', c', e) -> 0 <= e ->
  0 <= e < 4 * GRID_SIZE /\
  draw_cell GRID_SIZE st r' c' = Hex2 (aget (perimeterChars st) e).
Proof.
  exact (advance_exit_cell st r c d r' c' e).
Qed.

(** X19: a byte is drawn where its ray enters. For a slot [s] of the
    perimeter, the cell and direction the call starts with are inside the
    grid, a step out of that cell against the direction leaves the grid
    with the end position [s], and the place of the picture it arrives at
    shows the byte of slot [s]. *)
Theorem draw_entry_byte (st : state) (s : Z) :
  0 <= s < 4 * GRID_SIZE ->
  exists r c d r' c',
    entry GRID_SIZE s = Some (r, c, d) /\
    0 <= r < GRID_SIZE /\ 0 <= c < GRID_SIZE /\
    advance GRID_SIZE r c (opposite d) (-1) = (r', c', s) /\
    draw_cell GRID_SIZE st r' c' = Hex2 (aget (perimeterChars st) s).
Proof.
  intros Hs.
  assert (exists r c d r' c',
             entry GRID_SIZE s = Some (r, c, d) /\
             0 <= r < GRID_SIZE /\ 0 <= c < GRID_SIZE /\
             advance GRID_SIZE r c (opposite d) (-1) = (r', c', s))
    as (r & c & d & r' & c' & He & Hr & Hc & Ha).
  { unfold entry.
    destruct (Z.ltb_spec s GRID_SIZE) as [H1|H1].
    { exists 0, s, DIR_DOWN, (0 - 1), s.
      split; [reflexivity|]. split; [lia|]. split; [lia|]. reflexivity. }
    destruct (Z.ltb_spec s (GRID_SIZE * 2)) as [H2|H2].
    { exists (s - GRID_SIZE), (GRID_SIZE - 1), DIR_LEFT, (s - GRID_SIZE),
        (GRID_SIZE - 1 + 1).
      split; [reflexivity|]. split; [lia|]. split; [lia|].
      cbn [opposite advance].
      destruct (Z.eqb_spec (GRID_SIZE - 1 + 1) GRID_SIZE); [|lia].
      do 2 f_equal. lia. }
    destruct (Z.ltb_spec s (GRID_SIZE * 3)) as [H3|H3].
    { exists (s - GRID_SIZE * 2), 0, DIR_RIGHT, (s - GRID_SIZE * 2), (0 - 1).
      split; [reflexivity|]. split; [lia|]. split; [lia|].
      cbn [opposite advance]. change (0 - 1 =? -1) with true. cbv iota.
      do 2 f_equal. lia. }
    destruct (Z.ltb_spec s (GRID_SIZE * 4)) as [H4|H4]; [|lia].
    exists (GRID_SIZE - 1), (s - GRID_SIZE * 3), DIR_UP, (GRID_SIZE - 1 + 1),
      (s - GRID_SIZE * 3).
    split; [reflexivity|]. split; [lia|]. split; [lia|].
    cbn [opposite advance].
    destruct (Z.eqb_spec (GRID_SIZE - 1 + 1) GRID_SIZE); [|lia].
    do 2 f_equal. lia. }
  exists r, c, d, r', c'.
  split; [exact He|]. split; [exact Hr|]. split; [exact Hc|]. split; [exact Ha|].
  apply (advance_exit_cell st r c (opposite d) r' c' s Hr Hc Ha). lia.
Qed.

Lemma draw_cell_is_cell (st : state) (r c : Z) :
  is_cell (draw_cell GRID_SIZE st r c) = true /\
  is_highlight (draw_cell GRID_SIZE st r c) = false.
Proof.
  unfold draw_cell.
  repeat match goal with
         | |- context [if ?b then _ else _] => destruct b
         end; split; reflexivity.
Qed.

Lemma draw_at_other (pos_r pos_c : Z) (st : state) (r c : Z) :
  r <> pos_r \/ c <> pos_c ->
  draw_at GRID_SIZE pos_r pos_c st r c = [draw_cell GRID_SIZE st r c].
Proof.
  intros H. unfold draw_at.
  destruct (Z.eqb_spec r pos_r), (Z.eqb_spec c pos_c); cbn [andb];
    try reflexivity.
  lia.
Qed.

Lemma draw_cells_plain (pos_r pos_c : Z) (st : state) (r : Z) (cols : list Z) :
  (forall c, In c cols -> r <> pos_r \/ c <> pos_c) ->
  flat_map (draw_at GRID_SIZE pos_r pos_c st r) cols
  = map (draw_cell GRID_SIZE st r) cols.
Proof.
  induction cols as [|c t IH]; intros H; [reflexivity|].
  cbn [flat_map map]. rewrite draw_at_other by (apply H; left; reflexivity).
  rewrite IH by (intros c' Hc'; apply H; right; exact Hc'). reflexivity.
Qed.

Lemma cells_plain (st : state) (r : Z) (cols : list Z) :
  forallb (fun p => negb (is_highlight p)) (map (draw_cell GRID_SIZE st r) cols) = true /\
  length (filter is_cell (map (draw_cell GRID_SIZE st r) cols)) = length cols.
Proof.
  induction cols as [|c t [IH1 IH2]]; [split; reflexivity|].
  cbn [map forallb filter].
  destruct (draw_cell_is_cell st r c) as [H1 H2]. rewrite H1, H2.
  cbn [negb andb length]. split; [exact IH1|congruence].
Qed.

Lemma rows_plain (pos_r pos_c : Z) (st : state) (rows : list Z) :
  (forall r, In r rows -> r <> pos_r) ->
  forallb (fun p => negb (is_highlight p))
          (flat_map (draw_row GRID_SIZE pos_r pos_c st) rows) = true /\
  length (filter is_cell (flat_map (draw_row GRID_SIZE pos_r pos_c st) rows))
  = (length rows * Z.to_nat (GRID_SIZE + 2))%nat.
Proof.
  induction rows as [|r t IH]; intros H; [split; reflexivity|].
  destruct IH as [IH1 IH2]; [intros r' Hr'; apply H; right; exact Hr'|].
  cbn [flat_map]. unfold draw_row at 1 3.
  rewrite draw_cells_plain by (intros c _; left; apply H; left; reflexivity).
  destruct (cells_plain st r (range (-1) (GRID_SIZE + 1))) as [C1 C2].
  rewrite !forallb_app, !filter_app, !length_app, C1, C2, IH1, IH2, length_range.
  cbn. split; [reflexivity|lia].
Qed.

(** X20: one cell is highlighted, the one asked for. When [pos_r] and
    [pos_c] name a place of the picture, what the call prints is a part
    without highlight, the two items that switch the highlight on, the
    cell of that place, the item that switches the highlight off, and a
    part without highlight; the first part holds the cells of the rows
    above and of the columns to the left. *)
Theorem draw_highlights_one_cell (pos_r pos_c : Z) (st : state) (resetCursor : Z) :
  -1 <= pos_r <= GRID_SIZE -> -1 <= pos_c <= GRID_SIZE ->
  exists before after,
    fst (mirrorfield_draw GRID_SIZE pos_r pos_c st resetCursor)
    = before
      ++ [ForegroundBlack; BackgroundWhite;
          draw_cell GRID_SIZE st pos_r pos_c; HighlightOff]
      ++ after /\
    forallb (fun p => negb (is_highlight p)) before = true /\
    forallb (fun p => negb (is_highlight p)) after = true /\
    length (filter is_cell before)
    = Z.to_nat ((pos_r + 1) * (GRID_SIZE + 2) + (pos_c + 1)).
Proof.
  intros Hr Hc. unfold mirrorfield_draw. cbn [fst].
  rewrite (range_around (-1) pos_r (GRID_SIZE + 1)) by lia.
  rewrite !flat_map_app. cbn [flat_map]. rewrite app_nil_r.
  unfold draw_row at 2.
  rewrite (range_around (-1) pos_c (GRID_SIZE + 1)) by lia.
  rewrite !flat_map_app. cbn [flat_map]. rewrite app_nil_r.
  unfold draw_at at 2. rewrite !Z.eqb_refl. cbn [andb].
  rewrite !draw_cells_plain
    by (intros c Hc'; apply In_range in Hc'; right; lia).
  destruct (rows_plain pos_r pos_c st (range (-1) pos_r)) as [A1 A2];
    [intros r Hr'; apply In_range in Hr'; lia|].
  destruct (rows_plain pos_r pos_c st (range (pos_r + 1) (GRID_SIZE + 1))) as [B1 _];
    [intros r Hr'; apply In_range in Hr'; lia|].
  destruct (cells_plain st pos_r (range (-1) pos_c)) as [C1 C2].
  destruct (cells_plain st pos_r (range (pos_c + 1) (GRID_SIZE + 1))) as [D1 _].
  set (hdr := [if negb (resetCursor =? 0) then SaveCursor else ClearScreen]).
  set (ftr := if negb (resetCursor =? 0) then [RestoreCursor] else []).
  exists (hdr ++ [CursorHome]
          ++ flat_map (draw_row GRID_SIZE pos_r pos_c st) (range (-1) pos_r)
          ++ map (draw_cell GRID_SIZE st pos_r) (range (-1) pos_c)),
         (map (draw_cell GRID_SIZE st pos_r) (range (pos_c + 1) (GRID_SIZE + 1))
          ++ [NewLine]
          ++ flat_map (draw_row GRID_SIZE pos_r pos_c st)
                      (range (pos_r + 1) (GRID_SIZE + 1))
          ++ [NewLine] ++ ftr).
  split; [|split; [|split]].
  - cbn [app]. rewrite <- !app_assoc. cbn [app]. rewrite <- !app_assoc.
    reflexivity.
  - rewrite !forallb_app, A1, C1. subst hdr.
    destruct (negb (resetCursor =? 0)); reflexivity.
  - rewrite !forallb_app, B1, D1. subst ftr.
    destruct (negb (resetCursor =? 0)); reflexivity.
  - rewrite !filter_app, !length_app, A2, C2, !length_range. subst hdr.
    destruct (negb (resetCursor =? 0)); cbn [filter is_cell length]; nia.
Qed.

End Drawing.

(** * The further theorems at work, with [GRID_SIZE = 2] *)

Lemma demo_supply_creates :
  keyfile_create_writes 2 demo_alphabet demo_supply
  = Created demo_writes (seq 1147 253).
Proof. vm_compute. reflexivity. Qed.

Lemma demo_alphabet_NoDup : NoDup demo_alphabet.
Proof.
  unfold demo_alphabet.
  repeat (constructor; [simpl; intros H; repeat (destruct H as [H|H]; [discriminate|]); exact H|]).
  constructor.
Qed.

Lemma demo_perim_NoDup : NoDup demo_perim.
Proof.
  unfold demo_perim.
  repeat (constructor; [simpl; intros H; repeat (destruct H as [H|H]; [discriminate|]); exact H|]).
  constructor.
Qed.

Lemma demo_glyphs : Forall (fun g => cell_code g <> None)
                           [char_slash; char_space; char_backslash; char_minus].
Proof. repeat constructor; discriminate. Qed.

Lemma traverse_reversible_witness :
  exists x0 xe e g',
    entry 2 1 = Some x0 /\ entry 2 e = Some xe /\
    traverse 2 17 (fst (fst x0)) (snd (fst x0)) (snd x0) (-1) demo_grid
             (repeat 0 (Z.to_nat (2 * 2))) = Some (e, g') /\
    traverse 2 17 (fst (fst xe)) (snd (fst xe)) (snd xe) (-1) demo_grid
             (repeat 0 (Z.to_nat (2 * 2))) = Some (1, g').
Proof.
  apply (traverse_reversible 2).
  - lia.
  - exact (ready_grid_ok 2 demo_state demo_state_ready).
  - reflexivity.
  - lia.
  - exact demo_fuel.
Defined.

Lemma crypt_char_start_end_differ_witness :
  exists ech st',
    mirrorfield_crypt_char 2 17 70 demo_state = Ret (ech, st') /\
    aget (perimeterChars demo_state) (lastStartCharPos st') = 70 /\
    lastEndCharPos st' <> lastStartCharPos st'.
Proof.
  apply (crypt_char_start_end_differ 2).
  - lia.
  - exact demo_state_ready.
  - simpl; auto 12.
  - exact demo_fuel.
Defined.

Lemma crypt_char_fixed_point_iff_witness :
  exists ech st',
    mirrorfield_crypt_char 2 17 66 demo_state = Ret (ech, st') /\
    (ech = 66 <->
     (aget (perimeterChars demo_state) (lastStartCharPos st') = lastStartCharPos st' \/
      aget (perimeterChars demo_state) (lastEndCharPos st') = lastEndCharPos st') /\
     evenodd st' <> 0).
Proof.
  apply (crypt_char_fixed_point_iff 2).
  - lia.
  - exact demo_state_ready.
  - simpl; auto 12.
  - exact demo_fuel.
Defined.

Lemma crypt_char_spins_once_witness :
  exists ech st',
    mirrorfield_crypt_char 2 17 72 demo_state = Ret (ech, st') /\
    (forall t, 0 <= t < 2 * 2 ->
       aget (grid st') t = aget (grid demo_state) t \/
       (aget (grid demo_state) t <> MIRROR_NONE /\
        aget (grid st') t = Z.rem (aget (grid demo_state) t + 1) 3)) /\
    (forall r c d,
       entry 2 (lastStartCharPos st') = Some (r, c, d) ->
       aget (grid demo_state) (r * 2 + c) <> MIRROR_NONE ->
       aget (grid st') (r * 2 + c)
       = Z.rem (aget (grid demo_state) (r * 2 + c) + 1) 3).
Proof.
  apply (crypt_char_spins_once 2).
  - lia.
  - exact demo_state_ready.
  - simpl; auto 12.
  - exact demo_fuel.
Defined.

Lemma crypt_stream_alphabet_witness :
  exists out st',
    crypt_stream 2 17 [65; 66; 72; 65] demo_state = Ret (out, st') /\
    length out = length [65; 66; 72; 65] /\
    Forall (fun b => In b (perimeterChars demo_state)) out.
Proof.
  apply (crypt_stream_alphabet 2).
  - lia.
  - exact demo_state_ready.
  - exact demo_message.
  - exact demo_fuel.
Defined.

Lemma roll_chars_exchange_witness :
  exists perim',
    mirrorfield_roll_chars 2 5 1 6 demo_state =
    Ret (mkState (grid demo_state) perim' (set_i demo_state) (evenodd demo_state) 1 6) /\
    mirrorfield_roll_chars 2 5 6 1 demo_state =
    Ret (mkState (grid demo_state) perim' (set_i demo_state) (evenodd demo_state) 6 1).
Proof.
  apply (roll_chars_exchange 2).
  - lia.
  - exact (proj1 demo_state_ready).
  - exact demo_perim_NoDup.
  - lia.
  - lia.
  - lia.
Defined.

Lemma roll_chars_moves_both_witness :
  exists st',
    mirrorfield_roll_chars 2 5 1 6 demo_state = Ret st' /\
    aget (perimeterChars st') 1 <> aget (perimeterChars demo_state) 1 /\
    aget (perimeterChars st') 6 <> aget (perimeterChars demo_state) 6 /\
    Permutation (perimeterChars demo_state) (perimeterChars st').
Proof.
  apply (roll_chars_moves_both 2).
  - lia.
  - exact (proj1 demo_state_ready).
  - exact demo_perim_NoDup.
  - lia.
  - lia.
  - lia.
  - lia.
Defined.

Lemma roll_avoid_lands_witness :
  exists x,
    roll_avoid 2 5 1 1 2 3 4 = Some x /\
    roll_avoid 2 9 1 1 2 3 4 = Some x /\
    0 <= x < 4 * 2 /\ x <> 1 /\ x <> 2 /\ x <> 3 /\ x <> 4.
Proof.
  apply (roll_avoid_lands 2).
  - lia.
  - lia.
  - lia.
Defined.

Lemma load_stores_key_witness :
  fst (set_all 2 ([char_slash; char_space; char_backslash; char_minus] ++ demo_perim)
               (fresh_state 2))
  = repeat 1 (length [char_slash; char_space; char_backslash; char_minus]
              + length demo_perim) /\
  Forall2 (fun g c => cell_code g = Some c)
          [char_slash; char_space; char_backslash; char_minus]
          (grid (snd (set_all 2 ([char_slash; char_space; char_backslash; char_minus]
                                   ++ demo_perim) (fresh_state 2)))) /\
  perimeterChars (snd (set_all 2 ([char_slash; char_space; char_backslash; char_minus]
                                    ++ demo_perim) (fresh_state 2))) = demo_perim /\
  (mirrorfield_validate 2
     (snd (set_all 2 ([char_slash; char_space; char_backslash; char_minus]
                        ++ demo_perim) (fresh_state 2))) = 1
   <-> NoDup demo_perim).
Proof.
  apply (load_stores_key 2).
  - lia.
  - reflexivity.
  - reflexivity.
  - exact demo_glyphs.
Defined.

Lemma unloaded_engine_invalid_witness :
  mirrorfield_validate 2 (mirrorfield_init 2 demo_state) = 0 /\
  mirrorfield_validate 2 (fresh_state 2) = 0.
Proof.
  apply (unloaded_engine_invalid 2). lia.
Defined.

Lemma short_key_validates_witness :
  fst (set_all 2 ([char_slash; char_space; char_backslash; char_minus]
                    ++ [65; 66; 67; 68; 69; 70; 71]) (fresh_state 2))
  = repeat 1 (length [char_slash; char_space; char_backslash; char_minus]
              + length [65; 66; 67; 68; 69; 70; 71]) /\
  perimeterChars
    (snd (set_all 2 ([char_slash; char_space; char_backslash; char_minus]
                       ++ [65; 66; 67; 68; 69; 70; 71]) (fresh_state 2)))
  = [65; 66; 67; 68; 69; 70; 71] ++ [0] /\
  mirrorfield_validate 2
    (snd (set_all 2 ([char_slash; char_space; char_backslash; char_minus]
                       ++ [65; 66; 67; 68; 69; 70; 71]) (fresh_state 2))) = 1.
Proof.
  apply (short_key_validates 2).
  - lia.
  - reflexivity.
  - reflexivity.
  - exact demo_glyphs.
  - repeat (constructor;
            [simpl; intros H; repeat (destruct H as [H|H]; [discriminate|]); exact H|]).
    constructor.
  - simpl; intros H; repeat (destruct H as [H|H]; [discriminate|]); exact H.
Defined.

Lemma init_does_not_rewind_witness :
  set_i (snd (set_all 2 demo_key
                (mirrorfield_init 2 (snd (set_all 2 demo_key (fresh_state 2))))))
  <= INT_MAX /\
  fst (set_all 2 demo_key
         (mirrorfield_init 2 (snd (set_all 2 demo_key (fresh_state 2)))))
  = repeat 0 (length demo_key) /\
  grid (snd (set_all 2 demo_key
               (mirrorfield_init 2 (snd (set_all 2 demo_key (fresh_state 2))))))
  = repeat 0 (Z.to_nat (2 * 2)) /\
  perimeterChars
    (snd (set_all 2 demo_key
            (mirrorfield_init 2 (snd (set_all 2 demo_key (fresh_state 2))))))
  = repeat 0 (Z.to_nat (2 * 4)) /\
  mirrorfield_validate 2
    (snd (set_all 2 demo_key
            (mirrorfield_init 2 (snd (set_all 2 demo_key (fresh_state 2)))))) = 0.
Proof.
  apply (init_does_not_rewind 2).
  - lia.
  - simpl; lia.
  - unfold INT_MAX; simpl; lia.
Defined.

Lemma keyfile_create_writes_shape_witness :
  exists gs shuffled,
    map fst demo_writes = gs ++ shuffled /\
    Z.of_nat (length gs) = 2 * 2 /\
    Forall (fun g => g = "/"%char \/ g = "\"%char \/ g = " "%char) gs /\
    Permutation demo_alphabet shuffled /\
    map snd demo_writes = repeat B64_NOFORCE (length demo_writes - 1) ++ [B64_FORCE].
Proof.
  apply (keyfile_create_writes_shape 2 demo_alphabet demo_supply demo_writes
           (seq 1147 253)).
  - lia.
  - exact demo_supply_creates.
Defined.

Lemma created_key_loads_witness :
  fst (set_all 2 (key_of_writes demo_writes) (fresh_state 2))
  = repeat 1 (length demo_writes) /\
  mirrorfield_validate 2 (snd (set_all 2 (key_of_writes demo_writes) (fresh_state 2))) = 1 /\
  Permutation (map byte_of_char demo_alphabet)
              (perimeterChars (snd (set_all 2 (key_of_writes demo_writes) (fresh_state 2)))) /\
  Forall (fun code => code <> MIRROR_STRAIGHT)
         (grid (snd (set_all 2 (key_of_writes demo_writes) (fresh_state 2)))).
Proof.
  apply (created_key_loads 2 demo_alphabet demo_supply demo_writes (seq 1147 253)).
  - lia.
  - reflexivity.
  - exact demo_alphabet_NoDup.
  - exact demo_supply_creates.
Defined.

Lemma shuffle_one_char_never_returns_witness :
  keyfile_shuffle_string ["a"%char] 3 demo_draws = NoMoreDraws.
Proof.
  apply shuffle_one_char_never_returns. lia.
Defined.

Lemma keyfile_create_returns_witness :
  exists shuffledChars rest,
    keyfile_shuffle_string demo_alphabet 1000 (seq 4 1396) = Shuffled shuffledChars rest /\
    keyfile_create_writes 2 demo_alphabet ([0; 1; 2; 3]%nat ++ seq 4 1396)
    = Created (map (fun x => (mirror_glyph x, B64_NOFORCE)) [0; 1; 2; 3]%nat
               ++ write_chars shuffledChars) rest.
Proof.
  apply (keyfile_create_returns 2 demo_alphabet).
  - lia.
  - discriminate.
  - reflexivity.
  - apply Nat.leb_le. vm_compute. reflexivity.
Defined.

Lemma draw_shows_key_glyphs_witness :
  draw_cell 2
            (snd (set_all 2 ([char_slash; char_space; char_backslash; char_minus]
                               ++ demo_perim) (fresh_state 2))) 1 0
  = Char2 (aget [char_slash; char_space; char_backslash; char_minus] (1 * 2 + 0)).
Proof.
  apply (draw_shows_key_glyphs 2).
  - lia.
  - reflexivity.
  - reflexivity.
  - exact demo_glyphs.
  - lia.
  - lia.
Defined.

Lemma draw_exit_byte_witness :
  0 <= 7 < 4 * 2 /\
  draw_cell 2 demo_state 2 1 = Hex2 (aget (perimeterChars demo_state) 7).
Proof.
  apply (draw_exit_byte 2 ltac:(lia) demo_state 1 1 DIR_DOWN 2 1 7).
  - lia.
  - lia.
  - reflexivity.
  - lia.
Defined.

Lemma draw_entry_byte_witness :
  exists r c d r' c',
    entry 2 5 = Some (r, c, d) /\
    0 <= r < 2 /\ 0 <= c < 2 /\
    advance 2 r c (opposite d) (-1) = (r', c', 5) /\
    draw_cell 2 demo_state r' c' = Hex2 (aget (perimeterChars demo_state) 5).
Proof.
  apply (draw_entry_byte 2).
  - lia.
  - lia.
Defined.

Lemma draw_highlights_one_cell_witness :
  exists before after,
    fst (mirrorfield_draw 2 0 1 demo_state 0)
    = before
      ++ [ForegroundBlack; BackgroundWhite; draw_cell 2 demo_state 0 1; HighlightOff]
      ++ after /\
    forallb (fun p => negb (is_highlight p)) before = true /\
    forallb (fun p => negb (is_highlight p)) after = true /\
    length (filter is_cell before) = Z.to_nat ((0 + 1) * (2 + 2) + (1 + 1)).
Proof.
  apply (draw_highlights_one_cell 2).
  - lia.
  - lia.
  - lia.
Defined.
